(** * Fairness linear learner and batch-transform notebooks: a shallow embedding

    The notebooks of the repository contain three pieces of local logic:
    - [deo_from_list], the empirical Difference in Equal Opportunity;
    - the class [UncorrelationMethod] with its methods [fit] and
      [new_representation];
    - the random three-way split of the batch-transform notebook.

    Numbers are modelled as exact rationals ([Qc], canonical fractions with
    Leibniz equality); the one non-finite value the code can produce, the
    [nan] of an empty mean or of a division [0/0], is a constructor of its
    own.  Arrays live in a store and are passed by reference where the code
    passes them by reference, exceptions are values, and [print] appends to
    a log. *)

From Stdlib Require Import QArith Qcanon.
From Stdlib Require Qcabs.
From stdpp Require Import base option list numbers gmap strings sorting.

Local Open Scope Qc_scope.

(** ** Exceptions and results *)

(** The Python exceptions the modelled calls can raise.  [BadReference] is
    not a Python exception: it marks a store in which a reference points to
    nothing or to an array of the wrong rank, which no Python run produces. *)
Inductive exn : Set :=
| IndexError
| ValueError
| TypeError
| AxisError
| BadReference.

Inductive outcome (A : Type) : Type :=
| Ok (a : A)
| Raise (e : exn).
Arguments Ok {A} a.
Arguments Raise {A} e.

Definition obind {A B} (o : outcome A) (k : A → outcome B) : outcome B :=
  match o with
  | Ok a => k a
  | Raise e => Raise e
  end.

Notation "x ←! o ; k" := (obind o (λ x, k))
  (at level 20, o at level 100, k at level 200, right associativity,
   format "x  ←!  o ;  '/' k").

(** A Python comprehension [[f(x) for x in l]] whose body may raise. *)
Fixpoint map_raising {A B} (f : A → outcome B) (l : list A) : outcome (list B) :=
  match l with
  | [] => Ok []
  | x :: l' => y ←! f x; ys ←! map_raising f l'; Ok (y :: ys)
  end.

(** A Python comprehension [[x for x in l if c(x)]] whose condition may raise. *)
Fixpoint filter_raising {A} (c : A → outcome bool) (l : list A) : outcome (list A) :=
  match l with
  | [] => Ok []
  | x :: l' =>
      b ←! c x; xs ←! filter_raising c l';
      Ok (if b : bool then x :: xs else xs)
  end.

(** ** Numbers and arrays *)

Inductive scalar : Set :=
| Num (q : Qc)
| NaN.

(** A numpy array of rank 0, 1 or 2.  A rank-2 array is the list of its
    rows; the arrays the notebooks build have rows of one common width.
    [ArrObj] is the rank-1 array of dtype [object] that [np.array] makes of
    rank-1 arrays of different lengths (the notebook uses [np.object], so
    its numpy is older than 1.24, where such a list is refused). *)
Inductive ndarray : Set :=
| Scal (x : scalar)
| Arr1 (v : list Qc)
| Arr2 (m : list (list Qc))
| ArrObj (items : list (list Qc)).

Definition rectangular (d : nat) (m : list (list Qc)) : Prop :=
  Forall (λ r, length r = d) m.

(** [a[i]] on a rank-1 array, for a non-negative index [i]. *)
Definition item (ex : list Qc) (i : nat) : outcome Qc :=
  match ex !! i with
  | Some v => Ok v
  | None => Raise IndexError
  end.

(** The position a Python integer index addresses in a sequence of [n]
    items: [i] itself for [0 <= i < n], [n + i] for [-n <= i < 0], and
    none otherwise. *)
Definition normalize_index (n : nat) (i : Z) : option nat :=
  if decide (0 ≤ i < Z.of_nat n)%Z then Some (Z.to_nat i)
  else if decide (- Z.of_nat n ≤ i < 0)%Z then Some (Z.to_nat (Z.of_nat n + i))
  else None.

(** [a[i]] on a rank-1 array, for a Python integer [i]. *)
Definition item_at (ex : list Qc) (i : Z) : outcome Qc :=
  match normalize_index (length ex) i with
  | Some j => item ex j
  | None => Raise IndexError
  end.

(** [a[-1]] on a rank-1 array. *)
Definition item_last (ex : list Qc) : outcome Qc :=
  match last ex with
  | Some v => Ok v
  | None => Raise IndexError
  end.

(** [for idx, ex in enumerate(a)] with [a[idx, -1]] evaluated for each
    row, as in [fit]: the rows of a rank-2 array.  On a non-empty rank-1
    array [a[idx, -1]] raises [IndexError]; a rank-0 array cannot be
    iterated. *)
Definition rows_of (a : ndarray) : outcome (list (list Qc)) :=
  match a with
  | Arr2 m => Ok m
  | Arr1 [] | ArrObj [] => Ok []
  | Arr1 (_ :: _) | ArrObj (_ :: _) => Raise IndexError
  | Scal _ => Raise TypeError
  end.

(** [for ex in a], each [ex] then being indexed, as in
    [new_representation]: the rows of a rank-2 array and the items of an
    object array.  The elements of a non-empty rank-1 array of numbers are
    scalars, whose indexing raises [IndexError]. *)
Definition items_of (a : ndarray) : outcome (list (list Qc)) :=
  match a with
  | Arr2 m | ArrObj m => Ok m
  | Arr1 [] => Ok []
  | Arr1 (_ :: _) => Raise IndexError
  | Scal _ => Raise TypeError
  end.

Module np.

(** Binary operations on rank-1 arrays follow numpy's broadcasting: equal
    lengths combine pointwise, a length-1 operand is repeated, anything
    else raises [ValueError]. *)
Definition broadcast (op : Qc → Qc → Qc) (a b : list Qc) : outcome (list Qc) :=
  if decide (length a = length b) then Ok (zip_with op a b)
  else match a, b with
       | [x], _ => Ok (op x <$> b)
       | _, [y] => Ok ((λ x, op x y) <$> a)
       | _, _ => Raise ValueError
       end.

Definition add := broadcast Qcplus.
Definition subtract := broadcast Qcminus.

(** Sum along axis 0 of rows of width [d]. *)
Definition sum_axis0 (d : nat) (rows : list (list Qc)) : list Qc :=
  foldr (zip_with Qcplus) (replicate d 0) rows.

(** The mean along axis 0 of [n] rows of one width. *)
Definition mean_rows (rows : list (list Qc)) : list Qc :=
  match rows with
  | [] => []
  | r :: _ =>
      (λ x, x / Qc_of_Z (Z.of_nat (length rows))) <$> sum_axis0 (length r) rows
  end.

(** [np.mean(tmp, 0)] for a Python list [tmp] of rank-1 arrays: the [nan]
    scalar for the empty list (with a warning, no exception), the vector
    of column means for rows of one width, [ValueError] for ragged rows. *)
Definition mean (rows : list (list Qc)) : outcome ndarray :=
  match rows with
  | [] => Ok (Scal NaN)
  | r :: _ =>
      if decide (Forall (λ r', length r' = length r) rows)
      then Ok (Arr1 (mean_rows rows))
      else Raise ValueError
  end.

(** [a[:-1]]: a scalar cannot be sliced. *)
Definition without_last (a : ndarray) : outcome ndarray :=
  match a with
  | Scal _ => Raise IndexError
  | Arr1 v => Ok (Arr1 (removelast v))
  | Arr2 m => Ok (Arr2 (removelast m))
  | ArrObj m => Ok (ArrObj (removelast m))
  end.

(** [a - b] for the values [fit] subtracts. *)
Definition subtract_arrays (a b : ndarray) : outcome (list Qc) :=
  match a, b with
  | Arr1 x, Arr1 y => subtract x y
  | _, _ => Raise TypeError
  end.

(** [np.array(rows)] for a Python list of rank-1 arrays: the empty list
    gives the rank-1 array of shape (0,); rows of one width give a rank-2
    array; rows of different widths give a rank-1 array of objects. *)
Definition array (rows : list (list Qc)) : ndarray :=
  match rows with
  | [] => Arr1 []
  | r :: _ =>
      if decide (Forall (λ r', length r' = length r) rows)
      then Arr2 rows
      else ArrObj rows
  end.

(** [np.delete(a, obj, 1)] for an integer [obj]: axis 1 does not exist
    below rank 2; with [N] columns, [obj < -N or obj >= N] is refused and a
    negative [obj] stands for [obj + N]. *)
Definition delete_column (a : ndarray) (obj : Z) : outcome ndarray :=
  match a with
  | Scal _ | Arr1 _ | ArrObj _ => Raise AxisError
  | Arr2 m =>
      if decide (Forall (λ r, - Z.of_nat (length r) ≤ obj < Z.of_nat (length r))%Z m)
      then Ok (Arr2 ((λ r, delete (Z.to_nat (if decide (obj < 0)%Z
                                             then obj + Z.of_nat (length r)
                                             else obj)%Z) r) <$> m))
      else Raise IndexError
  end.

End np.

(** ** The store and the monad of Python statements *)

Definition loc := positive.

Inductive printed : Type :=
| Line (s : string)
| LineD (fmt : string) (n : nat)
| LineF (fmt : string) (x : scalar).

(** An instance of the class: [val0], [sensitive_feature] (a Python
    integer, which may be negative) and [u], the latter [None] or a
    reference to a rank-1 array. *)
Record UncorrelationMethod : Type := mkUncorrelationMethod {
  val0 : Qc;
  sensitive_feature : Z;
  u : option loc;
}.

Record world : Type := mkWorld {
  self : UncorrelationMethod;
  heap : gmap loc ndarray;
  stdout : list printed;
}.

Definition M (A : Type) : Type := world → outcome A * world.

Definition ret {A} (a : A) : M A := λ w, (Ok a, w).

Definition bind {A B} (m : M A) (k : A → M B) : M B :=
  λ w, match m w with
       | (Ok a, w') => k a w'
       | (Raise e, w') => (Raise e, w')
       end.

Notation "x ← m ; k" := (bind m (λ x, k))
  (at level 20, m at level 100, k at level 200, right associativity,
   format "x  ←  m ;  '/' k").
Notation "m ;; k" := (bind m (λ _, k))
  (at level 100, k at level 200, right associativity).

Definition lift {A} (o : outcome A) : M A := λ w, (o, w).

Definition get_self : M UncorrelationMethod := λ w, (Ok (self w), w).

(** [self.u = l] *)
Definition set_u (l : loc) : M unit :=
  λ w, (Ok (),
        mkWorld (mkUncorrelationMethod (val0 (self w)) (sensitive_feature (self w)) (Some l))
                (heap w) (stdout w)).

(** [print(p)] *)
Definition print (p : printed) : M unit :=
  λ w, (Ok (), mkWorld (self w) (heap w) (stdout w ++ [p])).

(** A new array object. *)
Definition alloc (a : ndarray) : M loc :=
  λ w, let l := fresh (dom (heap w)) in
       (Ok l, mkWorld (self w) (<[l:=a]> (heap w)) (stdout w)).

Definition load (l : loc) : M ndarray :=
  λ w, match heap w !! l with
       | Some a => (Ok a, w)
       | None => (Raise BadReference, w)
       end.

Definition load_vector (l : loc) : M (list Qc) :=
  λ w, match heap w !! l with
       | Some (Arr1 v) => (Ok v, w)
       | _ => (Raise BadReference, w)
       end.

(** [a[i] = x] on the rank-1 array referenced by [l], in place. *)
Definition store_item (l : loc) (i : Z) (x : Qc) : M unit :=
  λ w, match heap w !! l with
       | Some (Arr1 v) =>
           match normalize_index (length v) i with
           | Some j =>
               (Ok (), mkWorld (self w) (<[l:=Arr1 (<[j:=x]> v)]> (heap w)) (stdout w))
           | None => (Raise IndexError, w)
           end
       | _ => (Raise BadReference, w)
       end.

(** ** class UncorrelationMethod *)

(** [__init__(self, sensitive_feature, groupA_value=0.0)] *)
Definition init (sensitive_feature : Z) (groupA_value : Qc) : UncorrelationMethod :=
  mkUncorrelationMethod groupA_value sensitive_feature None.

(** The condition [dataset[idx, -1] == 1 and ex[s] == val0] of the first
    comprehension of [fit]; [and] does not evaluate [ex[s]] on a row whose
    label is not 1. *)
Definition cond_A_1 (o : UncorrelationMethod) (ex : list Qc) : outcome bool :=
  y ←! item_last ex;
  if bool_decide (y = 1) then
    v ←! item_at ex (sensitive_feature o); Ok (bool_decide (v = val0 o))
  else Ok false.

(** [dataset[idx, -1] == 1 and ex[s] != val0] *)
Definition cond_not_A_1 (o : UncorrelationMethod) (ex : list Qc) : outcome bool :=
  y ←! item_last ex;
  if bool_decide (y = 1) then
    v ←! item_at ex (sensitive_feature o); Ok (bool_decide (v ≠ val0 o))
  else Ok false.

(** [dataset[idx, -1] == 1] *)
Definition cond_1 (ex : list Qc) : outcome bool :=
  y ←! item_last ex; Ok (bool_decide (y = 1)).

Definition fit (dataset : loc) : M unit :=
  o ← get_self;
  a ← load dataset;
  rows ← lift (rows_of a);
  tmp ← lift (filter_raising (cond_A_1 o) rows);
  average_A_1 ← lift (np.mean tmp);
  let n_A_1 := length tmp in
  tmp' ← lift (filter_raising (cond_not_A_1 o) rows);
  average_not_A_1 ← lift (np.mean tmp');
  let n_not_A_1 := length tmp' in
  tmp'' ← lift (filter_raising cond_1 rows);
  let N_1 := length tmp'' in
  x ← lift (np.without_last average_A_1);
  y ← lift (np.without_last average_not_A_1);
  d ← lift (np.subtract_arrays x y);
  lu ← alloc (Arr1 d);
  set_u lu;;
  store_item lu (sensitive_feature o) (-1).

(** The body of the comprehension of [new_representation]:
    [ex if ex[s] == val0 else ex + self.u]. *)
Definition shift_row (o : UncorrelationMethod) (uv : list Qc) (ex : list Qc)
  : outcome (list Qc) :=
  v ←! item_at ex (sensitive_feature o);
  if bool_decide (v = val0 o) then Ok ex else np.add ex uv.

Definition new_representation (examples : loc) : M loc :=
  o ← get_self;
  match u o with
  | None =>
      print (Line "You have to fit the model first...");;
      ret examples
  | Some lu =>
      a ← load examples;
      rows ← lift (items_of a);
      uv ← load_vector lu;
      new ← lift (map_raising (shift_row o uv) rows);
      let new_examples := np.array new in
      l1 ← alloc new_examples;
      deleted ← lift (np.delete_column new_examples (sensitive_feature o));
      alloc deleted
  end.

(** ** deo_from_list *)

(** [a[idxs]] for a Python list [idxs] of non-negative positions. *)
Definition take_items {A} (a : list A) (idxs : list nat) : outcome (list A) :=
  map_raising (λ i, match a !! i with
                    | Some x => Ok x
                    | None => Raise IndexError
                    end) idxs.

(** [np.where(col == 1, 1, 0)] *)
Definition where_eq_1 (col : list Qc) : list Qc :=
  (λ v, if bool_decide (v = 1) then 1 else 0) <$> col.

Module sklearn.

(** The labels of a confusion matrix: the distinct values of both
    vectors, in increasing order. *)
Fixpoint insert_label (x : Qc) (l : list Qc) : list Qc :=
  match l with
  | [] => [x]
  | y :: l' =>
      if decide (x = y) then l
      else if decide (x < y) then x :: l
      else y :: insert_label x l'
  end.

Definition unique_labels (ys : list Qc) : list Qc :=
  foldr insert_label [] ys.

(** The number of samples with true label [a] and predicted label [b]. *)
Definition cell (pairs : list (Qc * Qc)) (a b : Qc) : nat :=
  length (filter (λ p, p.1 = a ∧ p.2 = b) pairs).

(** [type_of_target] calls a vector of floats "continuous" when one of
    its values is not an integer. *)
Definition continuous (y : list Qc) : Prop :=
  Exists (λ q : Qc, Qden q ≠ 1%positive) y.

(** [confusion_matrix(y_true, y_pred)]: one row per true label, one
    column per predicted label.  Vectors of different lengths and
    continuous targets are refused. *)
Definition confusion_matrix (y_true y_pred : list Qc) : outcome (list (list nat)) :=
  if decide (length y_true = length y_pred) then
    if decide (continuous y_true ∨ continuous y_pred) then Raise ValueError
    else
      let labels := unique_labels (y_true ++ y_pred) in
      Ok ((λ a, (λ b, cell (zip y_true y_pred) a b) <$> labels) <$> labels)
  else Raise ValueError.

End sklearn.

(** [tn, fp, fn, tp = cm.ravel()]: the unpacking needs exactly four entries. *)
Definition unpack4 (l : list nat) : outcome (nat * nat * nat * nat) :=
  match l with
  | [tn; fp; fn; tp] => Ok (tn, fp, fn, tp)
  | _ => Raise ValueError
  end.

(** [confusion_matrix(np.where(dataset[idxs][:, -1] == 1, 1, 0),
    predictions[idxs]).ravel()], unpacked. *)
Definition group_confusion (dataset : list (list Qc)) (predictions : list Qc)
    (idxs : list nat) : outcome (nat * nat * nat * nat) :=
  rows ←! take_items dataset idxs;
  col ←! map_raising item_last rows;
  preds ←! take_items predictions idxs;
  cm ←! sklearn.confusion_matrix (where_eq_1 col) preds;
  unpack4 (concat cm).

(** [float(a) / b] for the counts of a confusion matrix.  The denominator
    is a numpy integer, so a zero denominator gives a warning and a
    non-finite value, not an exception; in every quotient of
    [deo_from_list] the numerator is at most the denominator, so that
    value is the [nan] of [0/0]. *)
Definition ratio (a b : nat) : scalar :=
  if decide (b = 0%nat) then NaN
  else Num (Qc_of_Z (Z.of_nat a) / Qc_of_Z (Z.of_nat b)).

Definition scalar_sub (x y : scalar) : scalar :=
  match x, y with
  | Num a, Num b => Num (a - b)
  | _, _ => NaN
  end.

Definition scalar_abs (x : scalar) : scalar :=
  match x with
  | Num a => Num (Qcabs.Qcabs a)
  | NaN => NaN
  end.

(** [dataset] and [predictions] are only read: they are passed by value. *)
Definition deo_from_list (dataset : list (list Qc)) (predictions : list Qc)
    (groupA_idxs groupB_idxs : list nat) : M scalar :=
  cA ← lift (group_confusion dataset predictions groupA_idxs);
  let '(tnA, fpA, fnA, tpA) := cA in
  cB ← lift (group_confusion dataset predictions groupB_idxs);
  let '(tnB, fpB, fnB, tpB) := cB in
  print (LineD "Examples in group A: %d" (length groupA_idxs));;
  print (LineD "Examples in group B: %d" (length groupB_idxs));;
  print (LineF "TPR group A: %f" (ratio tpA (tpA + fnA)));;
  print (LineF "TPR group B: %f" (ratio tpB (tpB + fnB)));;
  print (LineF "TPR all dataset: %f" (ratio (tpA + tpB) (tpA + fnA + tpB + fnB)));;
  print (LineF "Accuracy all dataset: %f"
           (ratio (tpA + tnA + tpB + tnB)
                  (tpA + fpA + fnA + tnA + tpB + fpB + fnB + tnB)));;
  ret (scalar_abs (scalar_sub (ratio tpA (tpA + fnA)) (ratio tpB (tpB + fnB)))).

(** ** The three-way split of the batch-transform notebook *)

Module split.

(** The binary64 values of the literals [0.8] and [0.9]. *)
Definition float_0_8 : Qc := Q2Qc (3602879701896397 # 4503599627370496).
Definition float_0_9 : Qc := Q2Qc (8106479329266893 # 9007199254740992).

(** A row of [data]: the [id], the [diagnosis] and the thirty features. *)
Record row : Type := mkRow {
  id : Z;
  diagnosis : Z;
  features : list Qc;
}.

(** A data frame: rows with their index labels. *)
Definition frame (A : Type) : Type := list (nat * A).

(** The three comparisons, which numpy applies to every entry. *)
Definition is_train (r : Qc) : bool := bool_decide (r < float_0_8).
Definition is_val (r : Qc) : bool :=
  bool_decide (float_0_8 ≤ r) && bool_decide (r < float_0_9).
Definition is_batch (r : Qc) : bool := bool_decide (float_0_9 ≤ r).

(** [rand_split < 0.8] *)
Definition train_list (rand_split : list Qc) : list bool :=
  is_train <$> rand_split.

(** [(rand_split >= 0.8) & (rand_split < 0.9)] *)
Definition val_list (rand_split : list Qc) : list bool :=
  is_val <$> rand_split.

(** [rand_split >= 0.9] *)
Definition batch_list (rand_split : list Qc) : list bool :=
  is_batch <$> rand_split.







End split.

(** ** Vocabulary of the specification *)

(** The feature row of an example: the row without its label column. *)
Definition features_of (ex : list Qc) : list Qc := removelast ex.

(** The entry of a vector that a Python index addresses, the vector
    without that entry, and the vector after [v[i] = x]. *)
Definition at_index (v : list Qc) (i : Z) : option Qc :=
  normalize_index (length v) i ≫= λ j, v !! j.

Definition without_index (v : list Qc) (i : Z) : list Qc :=
  match normalize_index (length v) i with
  | Some j => delete j v
  | None => v
  end.

Definition assigned (v : list Qc) (i : Z) (x : Qc) : list Qc :=
  match normalize_index (length v) i with
  | Some j => <[j:=x]> v
  | None => v
  end.

(** A positively labelled example of group A: the label (last column) is 1
    and the sensitive feature equals the group-A marker. *)
Definition is_A_1 (o : UncorrelationMethod) (ex : list Qc) : bool :=
  bool_decide (last ex = Some 1)
  && bool_decide (at_index ex (sensitive_feature o) = Some (val0 o)).

(** A positively labelled example of group B: the sensitive feature differs
    from the marker. *)
Definition is_B_1 (o : UncorrelationMethod) (ex : list Qc) : bool :=
  bool_decide (last ex = Some 1)
  && match at_index ex (sensitive_feature o) with
     | Some v => bool_decide (v ≠ val0 o)
     | None => false
     end.

Definition pos_A (o : UncorrelationMethod) (D : list (list Qc)) : list (list Qc) :=
  filter (λ ex, is_A_1 o ex) D.

Definition pos_B (o : UncorrelationMethod) (D : list (list Qc)) : list (list Qc) :=
  filter (λ ex, is_B_1 o ex) D.

(** The difference of the two group means over the features, as the
    specification words it: the label column is excluded first. *)
Definition mean_difference (o : UncorrelationMethod) (D : list (list Qc)) : list Qc :=
  zip_with Qcminus (np.mean_rows (features_of <$> pos_A o D))
                   (np.mean_rows (features_of <$> pos_B o D)).

(** The rows of [X] at the positions where the example of [D] satisfies [p]. *)
Definition rows_where (p : list Qc → bool) (D X : list (list Qc)) : list (list Qc) :=
  (filter (λ q, p q.1) (zip D X)).*2.

(** What [new_representation] does to one row, in the words of the
    specification. *)
Definition transformed_row (o : UncorrelationMethod) (uv ex : list Qc) : list Qc :=
  without_index
    (if bool_decide (at_index ex (sensitive_feature o) = Some (val0 o)) then ex
     else zip_with Qcplus ex uv)
    (sensitive_feature o).

(** The cells of a group's confusion matrix, counted directly: [actual]
    says whether the label of the selected row is 1, [predicted] is the
    predicted label. *)
Definition actual_positive (dataset : list (list Qc)) (i : nat) : bool :=
  bool_decide (dataset !! i ≫= last = Some 1).

Definition count_cell (dataset : list (list Qc)) (predictions : list Qc)
    (idxs : list nat) (actual : bool) (predicted : Qc) : nat :=
  length (filter (λ i, actual_positive dataset i = actual
                       ∧ predictions !! i = Some predicted) idxs).

Definition true_positive_rate (dataset : list (list Qc)) (predictions : list Qc)
    (idxs : list nat) : Qc :=
  let tp := count_cell dataset predictions idxs true 1 in
  let fn := count_cell dataset predictions idxs true 0 in
  Qc_of_Z (Z.of_nat tp) / Qc_of_Z (Z.of_nat (tp + fn)).

(** The index list selects rows that exist, with a label and a binary
    prediction each. *)
Definition selects_binary (dataset : list (list Qc)) (predictions : list Qc)
    (idxs : list nat) : Prop :=
  Forall (λ i, is_Some (dataset !! i ≫= last)
               ∧ (predictions !! i = Some 0 ∨ predictions !! i = Some 1)) idxs.

(** The selected rows realise all four cells of the confusion matrix. *)
Definition realizes_all_cells (dataset : list (list Qc)) (predictions : list Qc)
    (idxs : list nat) : Prop :=
  (0 < count_cell dataset predictions idxs false 0)%nat
  ∧ (0 < count_cell dataset predictions idxs false 1)%nat
  ∧ (0 < count_cell dataset predictions idxs true 0)%nat
  ∧ (0 < count_cell dataset predictions idxs true 1)%nat.

(** ** Auxiliary definitions of the proofs *)

(** The number [n] as a rational. *)
Definition count (n : nat) : Qc := Qc_of_Z (Z.of_nat n).

(** The vector [fit] computes before it overwrites the sensitive entry:
    [average_A_1[:-1] - average_not_A_1[:-1]]. *)
Definition fit_difference (o : UncorrelationMethod) (D : list (list Qc)) : list Qc :=
  zip_with Qcminus (features_of (np.mean_rows (pos_A o D)))
                   (features_of (np.mean_rows (pos_B o D))).

(** The world [fit] leaves behind when it returns. *)
Definition fitted_world (w : world) (D : list (list Qc)) : world :=
  let o := self w in
  let lu := fresh (dom (heap w)) in
  mkWorld (mkUncorrelationMethod (val0 o) (sensitive_feature o) (Some lu))
          (<[lu := Arr1 (assigned (fit_difference o D) (sensitive_feature o) (-1))]> (heap w))
          (stdout w).

(** The rows of the comprehension, before the column is deleted. *)
Definition shifted_row (o : UncorrelationMethod) (uv ex : list Qc) : list Qc :=
  if bool_decide (at_index ex (sensitive_feature o) = Some (val0 o)) then ex
  else zip_with Qcplus ex uv.

(** The world a fitted [new_representation] leaves behind when it returns:
    the two arrays of [np.array] and [np.delete] are new objects. *)
Definition transformed_world (w : world) (uv : list Qc) (X : list (list Qc)) : world :=
  let o := self w in
  let l1 := fresh (dom (heap w)) in
  let h1 := <[l1 := Arr2 (shifted_row o uv <$> X)]> (heap w) in
  mkWorld o (<[fresh (dom h1) := Arr2 (transformed_row o uv <$> X)]> h1) (stdout w).

Definition transformed_loc (w : world) (uv : list Qc) (X : list (list Qc)) : loc :=
  fresh (dom (<[fresh (dom (heap w)) := Arr2 (shifted_row (self w) uv <$> X)]> (heap w))).

(** [w'] extends [w]: the instance has the same three attributes and every
    array of [w] is still there with the same contents; new arrays may have
    been created and lines printed. *)
Definition extends (w w' : world) : Prop :=
  self w' = self w ∧ heap w ⊆ heap w'.

Definition read_only {A} (m : M A) : Prop :=
  ∀ w, extends w (m w).2.

(** The true label after [np.where] and the predicted label at a position. *)
Definition truth (dataset : list (list Qc)) (i : nat) : Qc :=
  if actual_positive dataset i then 1 else 0.

Definition prediction (predictions : list Qc) (i : nat) : Qc :=
  default 0 (predictions !! i).

(** A feature row without its column [j]. *)
Definition project (j : nat) (ex : list Qc) : list Qc :=
  delete j (features_of ex).

(** ** Example worlds *)

Module example.

(** Five examples with two features and a label; the sensitive feature is
    column 1 and group A is marked by 0. *)
Definition D : list (list Qc) :=
  [ [Qc_of_Z 1; 0; 1]; [Qc_of_Z 3; 0; 1];
    [Qc_of_Z 5; 1; 1]; [Qc_of_Z 9; 1; 1]; [Qc_of_Z 7; 1; 0] ].

Definition dataset : loc := 1%positive.
Definition feature_rows : loc := 2%positive.

(** A new instance, the data set and its feature rows. *)
Definition unfitted : world :=
  mkWorld (init 1 0)
          {[ dataset := Arr2 D; feature_rows := Arr2 (features_of <$> D) ]} [].

(** The same after [fit(dataset)]. *)
Definition fitted : world := (fit dataset unfitted).2.

(** The vector [u] refers to in [fitted]. *)
Definition fitted_u : list Qc :=
  assigned (fit_difference (self unfitted) D) 1 (-1).

(** The instance that addresses the same column from the end, as -2, and
    one that addresses column 0 as -3 with the marker 1. *)
Definition from_end : world :=
  mkWorld (init (-2) 0)
          {[ dataset := Arr2 D; feature_rows := Arr2 (features_of <$> D) ]} [].
Definition first_from_end : world :=
  mkWorld (init (-3) (Qc_of_Z 1))
          {[ dataset := Arr2 D; feature_rows := Arr2 (features_of <$> D) ]} [].

(** A fitted instance and an empty batch of feature rows. *)
Definition empty_batch : loc := 1%positive.
Definition fitted_with_empty_batch : world :=
  mkWorld (mkUncorrelationMethod 0 1 (Some 2%positive))
          {[ empty_batch := Arr2 []; 2%positive := Arr1 [Qc_of_Z (-5); -1] ]} [].

(** Nine labelled examples, their predictions and two groups of
    positions; both groups realise the four cells of a confusion matrix. *)
Definition labelled : list (list Qc) :=
  [ [Qc_of_Z 5; 1]; [Qc_of_Z 6; 1]; [Qc_of_Z 7; 0]; [Qc_of_Z 8; 0];
    [Qc_of_Z 1; 1]; [Qc_of_Z 2; 1]; [Qc_of_Z 3; 1]; [Qc_of_Z 4; 0]; [Qc_of_Z 5; 0] ].
Definition predictions : list Qc := [1; 0; 1; 0; 1; 1; 0; 1; 0].
Definition groupA_idxs : list nat := [0; 1; 2; 3]%nat.
Definition groupB_idxs : list nat := [4; 5; 6; 7; 8]%nat.

Definition rand_split : list Qc :=
  [Q2Qc (1 # 2); Q2Qc (17 # 20); Q2Qc (19 # 20); Q2Qc (4 # 5)].

End example.

(** ** Further vocabulary for [deo_from_list] *)

(** The true-positive rate of a group as [deo_from_list] computes it from
    the counts: [nan] when the group has no actual positive. *)
Definition group_tpr (dataset : list (list Qc)) (predictions : list Qc)
    (idxs : list nat) : scalar :=
  ratio (count_cell dataset predictions idxs true 1)
        (count_cell dataset predictions idxs true 1
         + count_cell dataset predictions idxs true 0).

(** Both labels 0 and 1 occur among the true labels and the predictions of
    the selected rows. *)
Definition both_labels (dataset : list (list Qc)) (predictions : list Qc)
    (idxs : list nat) : Prop :=
  0 ∈ (truth dataset <$> idxs) ++ (prediction predictions <$> idxs)
  ∧ 1 ∈ (truth dataset <$> idxs) ++ (prediction predictions <$> idxs).

(** A non-empty group in which every selected example has the true label
    [c] (after [np.where]) and the prediction [c]. *)
Definition uniform_group (dataset : list (list Qc)) (predictions : list Qc)
    (idxs : list nat) (c : Qc) : Prop :=
  idxs ≠ []
  ∧ Forall (λ i, is_Some (dataset !! i ≫= last)
                 ∧ truth dataset i = c ∧ predictions !! i = Some c) idxs.

(** Two data sets carry the same label (last column) at the given rows. *)
Definition same_labels (dataset1 dataset2 : list (list Qc)) (idxs : list nat) : Prop :=
  Forall (λ i, dataset1 !! i ≫= last = dataset2 !! i ≫= last) idxs.

(** The label of row [i], as [dataset[idxs][:, -1]] reads it. *)
Definition label_at (dataset : list (list Qc)) (i : nat) : outcome Qc :=
  match dataset !! i ≫= last with
  | Some y => Ok y
  | None => Raise IndexError
  end.

(** ** Further vocabulary for [UncorrelationMethod] *)

(** [w'] keeps the constructor arguments of the instance and every array
    of [w]; [u] may have been assigned. *)
Definition keeps_arrays (w w' : world) : Prop :=
  val0 (self w') = val0 (self w)
  ∧ sensitive_feature (self w') = sensitive_feature (self w)
  ∧ heap w ⊆ heap w'.

(** ** deo_from_model *)

(** A rank-2 array with its number of columns, which an array without rows
    still has. *)
Record matrix : Type := mkMatrix {
  ncols : nat;
  mrows : list (list Qc);
}.

Definition well_shaped (m : matrix) : Prop := rectangular (ncols m) (mrows m).

(** [a[:, j]] *)
Definition column (m : matrix) (j : nat) : outcome (list Qc) :=
  if decide (j < ncols m)%nat then map_raising (λ r, item r j) (mrows m)
  else Raise IndexError.

Definition Qc_max (x y : Qc) : Qc := if decide (x ≤ y) then y else x.

(** [np.max(v)] for a rank-1 array: an empty array has no maximum. *)
Definition np_max (v : list Qc) : outcome Qc :=
  match v with
  | [] => Raise ValueError
  | x :: v' => Ok (foldr Qc_max x v')
  end.

(** [[idx for idx, val in enumerate(rows) if c(val)]], counting from [start]. *)
Fixpoint positions_from (start : nat) (c : list Qc → outcome bool)
    (rows : list (list Qc)) : outcome (list nat) :=
  match rows with
  | [] => Ok []
  | val :: rows' =>
      b ←! c val; rest ←! positions_from (S start) c rows';
      Ok (if b : bool then start :: rest else rest)
  end.

(** [[idx for idx, val in enumerate(dataset) if val[s] == groupA_value]] *)
Definition groupA_positions (s : nat) (groupA_value : Qc) (rows : list (list Qc))
  : outcome (list nat) :=
  positions_from 0 (λ val, v ←! item val s; Ok (bool_decide (v = groupA_value))) rows.

(** [[idx for idx, val in enumerate(dataset) if val[s] != groupA_value]] *)
Definition groupB_positions (s : nat) (groupA_value : Qc) (rows : list (list Qc))
  : outcome (list nat) :=
  positions_from 0 (λ val, v ←! item val s; Ok (bool_decide (v ≠ groupA_value))) rows.

(** Consecutive pieces of the given sizes. *)
Fixpoint pieces {A} (sizes : list nat) (l : list A) : list (list A) :=
  match sizes with
  | [] => []
  | k :: sizes' => take k l :: pieces sizes' (drop k l)
  end.

(** [np.array_split(a, sections)] along axis 0: [len(a) % sections] pieces
    of [len(a) // sections + 1] rows, then pieces of [len(a) // sections]
    rows. *)
Definition np_array_split {A} (l : list A) (sections : nat) : outcome (list (list A)) :=
  if decide (sections = 0)%nat then Raise ValueError
  else
    let each := (length l / sections)%nat in
    let extras := (length l mod sections)%nat in
    Ok (pieces (replicate extras (S each) ++ replicate (sections - extras) each) l).

(** [model] stands for [model.predict] followed by the comprehension that
    extracts the predicted labels of a batch, or for the exception either
    of them raises. *)
Definition deo_from_model (model : list (list Qc) → outcome (list Qc))
    (dataset : matrix) (sensitive_feature : nat) (groupA_value : option Qc)
  : M scalar :=
  groupA_value ← lift (match groupA_value with
                       | None => col ←! column dataset sensitive_feature; np_max col
                       | Some v => Ok v
                       end);
  groupA_idxs ← lift (groupA_positions sensitive_feature groupA_value (mrows dataset));
  groupB_idxs ← lift (groupB_positions sensitive_feature groupA_value (mrows dataset));
  batches ← lift (np_array_split (features_of <$> mrows dataset) 100);
  results ← lift (map_raising model batches);
  deo_from_list (mrows dataset) (concat results) groupA_idxs groupB_idxs.

(** The sensitive value of row [i] is (is not) the marker. *)
Definition marked (s : nat) (v : Qc) (rows : list (list Qc)) (i : nat) : Prop :=
  rows !! i ≫= (.!! s) = Some v.

Definition unmarked (s : nat) (v : Qc) (rows : list (list Qc)) (i : nat) : Prop :=
  ∃ x, rows !! i ≫= (.!! s) = Some x ∧ x ≠ v.

(** ** The cell that applies the correction *)

(** [uncorr_data = UncorrelationMethod(...)]: the instance of the notebook. *)
Definition set_self (o : UncorrelationMethod) : M unit :=
  λ w, (Ok (), mkWorld o (heap w) (stdout w)).

(** [a[:, -1:-2:-1]] on one row: the last column, kept as a column. *)
Definition last_column (ex : list Qc) : list Qc :=
  match last ex with
  | Some y => [y]
  | None => []
  end.

(** A column slice [a[:, ...]] of the array at [l], which must have rank 2.
    The slice is a view; nothing is written through it, and it is modelled
    as an array object of its own. *)
Definition slice_columns (f : list Qc → list Qc) (l : loc) : M loc :=
  a ← load l;
  match a with
  | Arr2 m => alloc (Arr2 (f <$> m))
  | Arr1 _ | ArrObj _ | Scal _ => lift (Raise IndexError)
  end.

(** The rows of the rank-2 array at [l]; both operands of [np.hstack] in
    the cell are rank-2 arrays. *)
Definition load_matrix (l : loc) : M (list (list Qc)) :=
  λ w, match heap w !! l with
       | Some (Arr2 m) => (Ok m, w)
       | _ => (Raise BadReference, w)
       end.

(** [np.hstack([a, b])] for two rank-2 arrays: they must have the same
    number of rows. *)
Definition hstack_rows (a b : list (list Qc)) : outcome (list (list Qc)) :=
  if decide (length a = length b) then Ok (zip_with app a b)
  else Raise ValueError.

(** [np.hstack([uncorr_data.new_representation(m[:, :-1]), m[:, -1:-2:-1]])] *)
Definition with_new_representation (m : loc) : M loc :=
  x ← slice_columns features_of m;
  t ← new_representation x;
  y ← slice_columns last_column m;
  a ← load_matrix t;
  b ← load_matrix y;
  h ← lift (hstack_rows a b);
  alloc (Arr2 h).

(** The cell: create the instance with marker 0.0, fit it on the training
    matrix, and build the new training and test matrices.  The index is
    the notebook's [sensitive_feature_gender = 9], a position counted from
    the front. *)
Definition impose_fairness (sensitive_feature_gender : nat)
    (training_data_matrix test_data_matrix : loc) : M (loc * loc) :=
  set_self (init (Z.of_nat sensitive_feature_gender) 0);;
  fit training_data_matrix;;
  new_training_data_matrix ← with_new_representation training_data_matrix;
  new_test_data_matrix ← with_new_representation test_data_matrix;
  ret (new_training_data_matrix, new_test_data_matrix).

(** A row of a new matrix: the corrected feature row, then the label. *)
Definition corrected_example (o : UncorrelationMethod) (uv ex : list Qc) : list Qc :=
  transformed_row o uv (features_of ex) ++ last_column ex.

(** ** Further examples *)

Module more_examples.

(** The labels of [example.labelled] without the features. *)
Definition labels_only : list (list Qc) := drop 1 <$> example.labelled.

(** The value [deo_from_list] returns on the example. *)
Definition deo_gap : Qc :=
  match (deo_from_list example.labelled example.predictions
           example.groupA_idxs example.groupB_idxs example.unfitted).1 with
  | Ok (Num v) => v
  | _ => 0
  end.

(** A group without an actual positive, and one where every example is
    positive and predicted so. *)
Definition negatives_idxs : list nat := [2; 3; 7]%nat.
Definition perfect_idxs : list nat := [0; 4; 5]%nat.

(** The data set of [example.D] as a matrix of three columns, and a matrix
    without rows. *)
Definition dataset : matrix := mkMatrix 3 example.D.
Definition no_rows : matrix := mkMatrix 3 [].

(** A model that labels a row by its first feature being at least 5, and
    one that in addition refuses an empty batch. *)
Definition label_of (r : list Qc) : Qc :=
  if bool_decide (Qc_of_Z 5 ≤ default 0 (head r)) then 1 else 0.
Definition rowwise_model (batch : list (list Qc)) : outcome (list Qc) :=
  Ok (label_of <$> batch).
Definition strict_model (batch : list (list Qc)) : outcome (list Qc) :=
  match batch with
  | [] => Raise ValueError
  | _ => Ok (label_of <$> batch)
  end.

(** A data set without a positive example in group B. *)
Definition one_sided : world :=
  mkWorld (mkUncorrelationMethod 0 1 None)
          {[ 1%positive := Arr2 [ [Qc_of_Z 1; 0; 1]; [Qc_of_Z 2; 1; 0] ] ]} [].

(** An instance whose sensitive index is the label column. *)
Definition label_as_sensitive : world :=
  mkWorld (init 2 0) {[ 1%positive := Arr2 example.D ]} [].

(** A fitted instance with a batch of group-A rows, and one whose sensitive
    index lies beyond the rows. *)
Definition group_A_batch : list (list Qc) := [ [Qc_of_Z 1; 0]; [Qc_of_Z 3; 0] ].
Definition fitted_with_group_A_batch : world :=
  mkWorld (mkUncorrelationMethod 0 1 (Some 2%positive))
          {[ 1%positive := Arr2 group_A_batch;
             2%positive := Arr1 [Qc_of_Z (-5); -1; 0] ]} [].
Definition fitted_with_far_index : world :=
  mkWorld (mkUncorrelationMethod 0 5 (Some 2%positive))
          {[ 1%positive := Arr2 group_A_batch;
             2%positive := Arr1 [Qc_of_Z (-5); -1] ]} [].

(** The positions of the two groups in [example.D] (sensitive column 1,
    marker 0). *)
Definition D_groupA_idxs : list nat := [0; 1]%nat.
Definition D_groupB_idxs : list nat := [2; 3; 4]%nat.

(** A training and a test matrix. *)
Definition test_rows : list (list Qc) := [ [Qc_of_Z 2; 1; 0]; [Qc_of_Z 4; 0; 1] ].
Definition train_and_test : world :=
  mkWorld (init 0 0)
          {[ 1%positive := Arr2 example.D; 2%positive := Arr2 test_rows ]} [].

End more_examples.

(** ** Data encoding *)

(** A column of a [DataFrame]: of dtype [object], holding strings and
    missing values, or numeric, holding floats and [nan]. *)
Inductive Series : Type :=
| Objects (cells : list (option string))
| Numbers (cells : list scalar).

(** The columns in their order, each under its label; labels may be
    repeated. *)
Definition DataFrame : Type := list (string * Series).

(** [column.fillna(value)] on an object column. *)
Definition fillna (value : string) (cells : list (option string)) : list string :=
  default value <$> cells.

Module LabelEncoder.

(** [np.unique] on strings: the distinct values in increasing order
    (Python compares strings by code point, which on UTF-8 is the
    byte-wise order [String.le]). *)
Fixpoint insert_class (y : string) (classes_ : list string) : list string :=
  match classes_ with
  | [] => [y]
  | c :: rest =>
      if decide (y = c) then classes_
      else if decide (String.le y c) then y :: classes_
      else c :: insert_class y rest
  end.

Definition unique (y : list string) : list string := foldr insert_class [] y.

(** The position of [y] in [classes_] (their number when it is absent). *)
Fixpoint position (classes_ : list string) (y : string) : nat :=
  match classes_ with
  | [] => 0
  | c :: rest => if decide (y = c) then 0 else S (position rest y)
  end.

(** [fit_transform(y)]: [classes_, y = np.unique(y, return_inverse=True)] *)
Definition fit_transform (y : list string) : list string * list nat :=
  let classes_ := unique y in (classes_, position classes_ <$> y).

End LabelEncoder.

(** The integer column that replaces an object column. *)
Definition int_column (codes : list nat) : Series := Numbers (Num ∘ count <$> codes).

(** Several columns carry the label [column].  [result.dtypes[column]] is
    then a Series, and the truth value of its comparison with [np.object]
    is refused. *)
Definition repeated (column : string) (labels : list string) : Prop :=
  (1 < length (filter (λ c, c = column) labels))%nat.

#[global] Instance repeated_dec column labels : Decision (repeated column labels) :=
  decide (1 < length (filter (λ c, c = column) labels))%nat.

(** The loop of [number_encode_features] over [result.columns], the labels
    of the frame being [labels]: [result] collects the columns already
    visited, replaced or not. *)
Fixpoint encode_columns (labels : list string) (columns result : DataFrame)
    (encoders : gmap string (list string))
  : outcome (DataFrame * gmap string (list string)) :=
  match columns with
  | [] => Ok (result, encoders)
  | (column, s) :: columns' =>
      if decide (repeated column labels) then Raise ValueError
      else match s with
           | Objects cells =>
               let '(classes_, codes) :=
                 LabelEncoder.fit_transform (fillna "None" cells) in
               encode_columns labels columns' (result ++ [(column, int_column codes)])
                 (<[column := classes_]> encoders)
           | Numbers cells =>
               encode_columns labels columns' (result ++ [(column, Numbers cells)])
                 encoders
           end
  end.

Definition number_encode_features (df : DataFrame)
    : outcome (DataFrame * gmap string (list string)) :=
  encode_columns df.*1 df [] ∅.

(** The values of an object column after [fillna("None")], and the code
    [number_encode_features] gives to the value [y] in such a column: its
    position among the distinct values. *)
Definition filled (cells : list (option string)) : list string := fillna "None" cells.

Definition code_in (cells : list (option string)) (y : string) : nat :=
  LabelEncoder.position (LabelEncoder.unique (filled cells)) y.

(** The distinct values of a column that are strictly below [y]. *)
Definition classes_below (cells : list (option string)) (y : string) : list string :=
  filter (λ c, strict String.le c y) (remove_dups (filled cells)).

Definition object_columns (df : DataFrame) : list string :=
  omap (λ '(column, s), match s with Objects _ => Some column | Numbers _ => None end) df.

(** What the loop makes of one column. *)
Definition encoded (s : Series) : Series :=
  match s with
  | Objects cells => int_column (code_in cells <$> filled cells)
  | Numbers _ => s
  end.

(** The encoders the loop has collected after the given columns. *)
Fixpoint encoders_after (columns : DataFrame) (encoders : gmap string (list string))
  : gmap string (list string) :=
  match columns with
  | [] => encoders
  | (column, Objects cells) :: columns' =>
      encoders_after columns' (<[column := LabelEncoder.unique (filled cells)]> encoders)
  | (_, Numbers _) :: columns' => encoders_after columns' encoders
  end.

(** [result.iloc[i, column]] for the frame [number_encode_features]
    returns; there is none when the call raises. *)
Definition encoded_cell (df : DataFrame) (column i : nat) : option scalar :=
  match number_encode_features df with
  | Ok (result, _) =>
      '(_, s) ← result !! column;
      match s with
      | Objects _ => None
      | Numbers cells => cells !! i
      end
  | Raise _ => None
  end.

(** ** Scaling *)

Module MinMaxScaler.

(** The attributes a fitted [MinMaxScaler(feature_range=(0.0, 1.0))] holds. *)
Record fitted : Type := mkFitted {
  data_min_ : list Qc;
  data_max_ : list Qc;
  scale_ : list Qc;
  min_ : list Qc;
}.

Definition Qc_min (x y : Qc) : Qc := if decide (x ≤ y) then x else y.

(** [np.min(X, axis=0)] and [np.max(X, axis=0)] for a matrix with the
    first row [r]. *)
Definition min_axis0 (r : list Qc) (rows : list (list Qc)) : list Qc :=
  foldl (zip_with Qc_min) r rows.
Definition max_axis0 (r : list Qc) (rows : list (list Qc)) : list Qc :=
  foldl (zip_with Qc_max) r rows.

(** [_handle_zeros_in_scale]: a constant column is divided by 1. *)
Definition handle_zeros_in_scale (data_range : Qc) : Qc :=
  if decide (data_range = 0) then 1 else data_range.

(** [fit(X)]: [check_array] refuses a matrix without rows or without
    columns. *)
Definition fit (X : list (list Qc)) : outcome fitted :=
  match X with
  | [] => Raise ValueError
  | [] :: _ => Raise ValueError
  | r :: rows =>
      let data_min := min_axis0 r rows in
      let data_max := max_axis0 r rows in
      let data_range := zip_with Qcminus data_max data_min in
      let scale := (λ x, (1 - 0) / handle_zeros_in_scale x) <$> data_range in
      Ok (mkFitted data_min data_max scale
            (zip_with (λ m s, 0 - m * s) data_min scale))
  end.

(** [transform(X)]: [X *= self.scale_; X += self.min_] on a copy. *)
Definition transform (self : fitted) (X : list (list Qc)) : outcome (list (list Qc)) :=
  match X with
  | [] => Raise ValueError
  | r :: _ =>
      if decide (length r = length (scale_ self)) then
        Ok ((λ row, zip_with Qcplus (zip_with Qcmult row (scale_ self)) (min_ self)) <$> X)
      else Raise ValueError
  end.

Definition fit_transform (X : list (list Qc)) : outcome (fitted * list (list Qc)) :=
  self ←! fit X; X' ←! transform self X; Ok (self, X').

End MinMaxScaler.

(** The scaling of the two matrices: the scaler is fitted on the training
    matrix only. *)
Definition scale_matrices (training_data_matrix test_data_matrix : list (list Qc))
    : outcome (list (list Qc) * list (list Qc)) :=
  fitted ←! MinMaxScaler.fit_transform training_data_matrix;
  let '(scaler, training_data_matrix') := fitted in
  test_data_matrix' ←! MinMaxScaler.transform scaler test_data_matrix;
  Ok (training_data_matrix', test_data_matrix').

(** [lo] is the least and [hi] the greatest entry of column [j]. *)
Definition is_least (lo : Qc) (j : nat) (X : list (list Qc)) : Prop :=
  (∃ row, row ∈ X ∧ row !! j = Some lo)
  ∧ Forall (λ row, ∀ x, row !! j = Some x → lo ≤ x) X.

Definition is_greatest (hi : Qc) (j : nat) (X : list (list Qc)) : Prop :=
  (∃ row, row ∈ X ∧ row !! j = Some hi)
  ∧ Forall (λ row, ∀ x, row !! j = Some x → x ≤ hi) X.

(** An entry [x] rescaled by the range [lo .. hi] of its column. *)
Definition rescaled (lo hi x : Qc) : Qc :=
  if decide (hi = lo) then x - lo else (x - lo) / (hi - lo).

(** [X[i, j]] *)
Definition entry (X : list (list Qc)) (i j : nat) : option Qc :=
  X !! i ≫= λ row, row !! j.

(** ** Example frames *)

Module census.

(** A few rows of the training data and of the test data: a numeric
    column and three object columns, one with a missing value. *)
Definition workclass : list (option string) :=
  [Some "State-gov"; None; Some "Private"; Some "Private"].
Definition sex : list (option string) :=
  [Some "Male"; Some "Male"; Some "Female"; Some "Male"].
Definition target : list (option string) :=
  [Some "<=50K"; Some ">50K"; Some "<=50K"; Some ">50K"].

Definition original_data : DataFrame :=
  [ ("Age", Numbers [Num (count 39); Num (count 50); Num (count 38); Num (count 53)]);
    ("Workclass", Objects workclass);
    ("Sex", Objects sex);
    ("Target", Objects target) ].

(** The test rows have no missing work class. *)
Definition test_workclass : list (option string) :=
  [Some "Private"; Some "State-gov"].

Definition original_test : DataFrame :=
  [ ("Age", Numbers [Num (count 25); Num (count 28)]);
    ("Workclass", Objects test_workclass);
    ("Sex", Objects [Some "Female"; Some "Male"]);
    ("Target", Objects [Some "<=50K."; Some ">50K."]) ].

(** Encoded rows: a numeric column, a constant column and a 0/1 column. *)
Definition training_data_matrix : list (list Qc) :=
  [ [count 39; count 7; 0]; [count 50; count 7; 1]; [count 38; count 7; 1] ].

Definition test_data_matrix : list (list Qc) :=
  [ [count 25; count 9; 1]; [count 60; count 7; 0] ].

End census.

(** * Properties *)

(** ** Counting in the rationals *)

Lemma count_S n : count (S n) = count n + 1.
Proof.
  unfold count. by rewrite Nat2Z.inj_succ, <-Z.add_1_r, Z2Qc_inj_add, Z2Qc_inj_1.
Qed.

Lemma count_nonzero n : n ≠ 0%nat → count n ≠ 0.
Proof.
  unfold count. rewrite <-Z2Qc_inj_0, Z2Qc_inj_iff. lia.
Qed.

(** ** Sums and means of rows *)

Section vectors.
Implicit Types (r a b δ : list Qc) (R : list (list Qc)).

Lemma removelast_take r : removelast r = take (length r - 1) r.
Proof. by rewrite removelast_firstn_len, Nat.sub_1_r. Qed.

Lemma length_features_of r : length (features_of r) = (length r - 1)%nat.
Proof. unfold features_of. rewrite removelast_take, length_take. lia. Qed.

Lemma lookup_features_of r i :
  (i < length r - 1)%nat → features_of r !! i = r !! i.
Proof. intros. unfold features_of. by rewrite removelast_take, lookup_take_lt. Qed.

Lemma rectangular_fmap (f : list Qc → list Qc) d d' R :
  (∀ r, length r = d → length (f r) = d') →
  rectangular d R → rectangular d' (f <$> R).
Proof.
  intros Hf HR. apply Forall_fmap. eapply Forall_impl; [exact HR|]. exact Hf.
Qed.

Lemma rectangular_filter (P : list Qc → Prop) `{!∀ x, Decision (P x)} d R :
  rectangular d R → rectangular d (filter P R).
Proof.
  unfold rectangular. rewrite !Forall_forall. intros HR x Hx.
  apply list_elem_of_filter in Hx as [_ Hx]. by apply HR.
Qed.

Lemma length_sum_axis0 d R : rectangular d R → length (np.sum_axis0 d R) = d.
Proof.
  induction 1 as [|r R Hr _ IH]; simpl.
  - apply length_replicate.
  - rewrite length_zip_with. lia.
Qed.

Lemma take_sum_axis0 k d R :
  take k (np.sum_axis0 d R) = np.sum_axis0 (k `min` d) (take k <$> R).
Proof.
  induction R as [|r R IH]; csimpl.
  - apply take_replicate.
  - by rewrite <-IH, zip_with_take.
Qed.

Lemma delete_zip_with (f : Qc → Qc → Qc) s a b :
  delete s (zip_with f a b) = zip_with f (delete s a) (delete s b).
Proof.
  revert a b. induction s as [|s IH]; intros [|x a] [|y b]; simpl; try done.
  - by destruct a.
  - by rewrite IH.
Qed.

Lemma delete_replicate_zero s d :
  (s < d)%nat → delete s (replicate d (0 : Qc)) = replicate (d - 1) 0.
Proof.
  revert d. induction s as [|s IH]; intros [|d] ?; simpl; try lia.
  - by rewrite Nat.sub_0_r.
  - rewrite IH by lia. destruct d; [lia|]. simpl. by rewrite Nat.sub_0_r.
Qed.

Lemma delete_sum_axis0 s d R :
  (s < d)%nat →
  delete s (np.sum_axis0 d R) = np.sum_axis0 (d - 1) (delete s <$> R).
Proof.
  intros. induction R as [|r R IH]; csimpl.
  - by apply delete_replicate_zero.
  - by rewrite delete_zip_with, IH.
Qed.

Lemma mean_rows_eq d R :
  R ≠ [] → rectangular d R →
  np.mean_rows R = (λ x, x / count (length R)) <$> np.sum_axis0 d R.
Proof.
  intros HR Hrect. destruct R as [|r R]; [done|].
  assert (length r = d) as <- by (by inversion Hrect). done.
Qed.

Lemma fmap_nonempty {A B} (f : A → B) (l : list A) : l ≠ [] → f <$> l ≠ [].
Proof. by destruct l. Qed.

Lemma features_of_mean_rows d R :
  rectangular d R →
  features_of (np.mean_rows R) = np.mean_rows (features_of <$> R).
Proof.
  intros HR. destruct (decide (R = [])) as [->|Hne]; [done|].
  rewrite (mean_rows_eq d) by done.
  rewrite (mean_rows_eq (d - 1)); cycle 1.
  { by apply fmap_nonempty. }
  { eapply rectangular_fmap; [|exact HR].
    intros r <-. apply length_features_of. }
  unfold features_of at 1.
  rewrite removelast_take, !length_fmap, length_sum_axis0 by done.
  rewrite <-fmap_take, take_sum_axis0.
  replace ((d - 1) `min` d)%nat with (d - 1)%nat by lia.
  do 2 f_equal. apply Forall_fmap_ext.
  eapply Forall_impl; [exact HR|]. intros x Hx. simpl.
  unfold features_of. by rewrite removelast_take, Hx.
Qed.

Lemma delete_mean_rows s d R :
  rectangular d R → (s < d)%nat →
  delete s (np.mean_rows R) = np.mean_rows (delete s <$> R).
Proof.
  intros HR Hs. destruct (decide (R = [])) as [->|Hne]; [done|].
  rewrite (mean_rows_eq d) by done.
  rewrite (mean_rows_eq (d - 1)); cycle 1.
  { by apply fmap_nonempty. }
  { eapply rectangular_fmap; [|exact HR].
    intros r <-. apply length_delete, lookup_lt_is_Some. lia. }
  by rewrite <-list_fmap_delete, delete_sum_axis0, length_fmap.
Qed.

Lemma zip_with_shift (n : Qc) δ r a :
  length r = length δ → length a = length δ →
  zip_with Qcplus (zip_with Qcplus r δ) (zip_with Qcplus a ((λ x, n * x) <$> δ))
  = zip_with Qcplus (zip_with Qcplus r a) ((λ x, (n + 1) * x) <$> δ).
Proof.
  revert r a. induction δ as [|x δ IH]; intros [|y r] [|z a]; simpl; try done.
  intros [=] [=]. f_equal; [ring | by apply IH].
Qed.

Lemma sum_axis0_shift δ R :
  rectangular (length δ) R →
  np.sum_axis0 (length δ) ((λ r, zip_with Qcplus r δ) <$> R)
  = zip_with Qcplus (np.sum_axis0 (length δ) R) ((λ x, count (length R) * x) <$> δ).
Proof.
  induction 1 as [|r R Hr HR IH]; csimpl.
  - clear. induction δ as [|x δ IH]; simpl; [done|].
    f_equal. exact IH.
  - rewrite IH, count_S.
    apply zip_with_shift; [done|]. by apply length_sum_axis0.
Qed.

Lemma mean_rows_shift δ R :
  R ≠ [] → rectangular (length δ) R →
  np.mean_rows ((λ r, zip_with Qcplus r δ) <$> R)
  = zip_with Qcplus (np.mean_rows R) δ.
Proof.
  intros HR Hrect.
  rewrite (mean_rows_eq (length δ) R) by done.
  rewrite (mean_rows_eq (length δ)); cycle 1.
  { by apply fmap_nonempty. }
  { eapply rectangular_fmap; [|exact Hrect].
    intros r Hr. rewrite length_zip_with. lia. }
  rewrite sum_axis0_shift, length_fmap by done.
  pose proof (length_sum_axis0 _ _ Hrect) as Hlen.
  assert (count (length R) ≠ 0) as Hn.
  { apply count_nonzero. by destruct R. }
  revert Hlen Hn. generalize (np.sum_axis0 (length δ) R) (count (length R)).
  clear. intros s n. revert s.
  induction δ as [|x δ IH]; intros [|y s]; simpl; try done.
  intros [=] Hn. f_equal; [|by apply IH]. by field.
Qed.

(** The mean of a column that holds one value throughout is that value. *)
Lemma sum_axis0_constant_column d R j c :
  rectangular d R → (j < d)%nat → Forall (λ r, r !! j = Some c) R →
  np.sum_axis0 d R !! j = Some (count (length R) * c).
Proof.
  intros HR Hj. induction 1 as [|r R Hr Hc IH]; simpl.
  - rewrite lookup_replicate_2 by done. f_equal.
    change (count 0) with (Qc_of_Z 0). rewrite Z2Qc_inj_0. ring.
  - inversion HR; subst.
    rewrite lookup_zip_with, Hr, IH by done. simpl.
    f_equal. rewrite count_S. ring.
Qed.

Lemma mean_rows_constant_column d R j c :
  R ≠ [] → rectangular d R → (j < d)%nat → Forall (λ r, r !! j = Some c) R →
  np.mean_rows R !! j = Some c.
Proof.
  intros HR Hrect Hj Hc.
  rewrite (mean_rows_eq d) by done.
  rewrite list_lookup_fmap. erewrite sum_axis0_constant_column by done.
  simpl. f_equal. field. apply count_nonzero. by destruct R.
Qed.

Lemma length_mean_rows d R :
  R ≠ [] → rectangular d R → length (np.mean_rows R) = d.
Proof.
  intros HR Hrect. rewrite (mean_rows_eq d) by done.
  by rewrite length_fmap, length_sum_axis0.
Qed.

End vectors.

(** ** Comprehensions *)

Lemma filter_raising_total {A} (c : A → outcome bool) (p : A → bool) (l : list A) :
  Forall (λ x, c x = Ok (p x)) l →
  filter_raising c l = Ok (filter (λ x, p x) l).
Proof.
  induction 1 as [|x l Hx _ IH]; simpl; [done|].
  rewrite Hx, IH. simpl. rewrite filter_cons.
  destruct (p x); by rewrite decide_bool_decide.
Qed.

Lemma filter_raising_inv {A} (c : A → outcome bool) (p : A → bool) (l xs : list A) :
  (∀ x, c x = Ok true ↔ p x = true) →
  filter_raising c l = Ok xs → xs = filter (λ x, p x) l.
Proof.
  intros Hp. revert xs. induction l as [|x l IH]; intros xs; simpl.
  - by intros [= <-].
  - destruct (c x) as [b|] eqn:Hc; simpl; [|done].
    destruct (filter_raising c l) as [ys|]; simpl; [|done].
    intros [= <-]. rewrite filter_cons, (IH ys eq_refl).
    destruct b.
    + apply Hp in Hc. rewrite decide_True; [done|]. by rewrite Hc.
    + rewrite decide_False; [done|]. intros Hpx.
      apply Is_true_true, Hp in Hpx. congruence.
Qed.

Lemma map_raising_total {A B} (f : A → outcome B) (g : A → B) (l : list A) :
  Forall (λ x, f x = Ok (g x)) l → map_raising f l = Ok (g <$> l).
Proof.
  induction 1 as [|x l Hx _ IH]; simpl; [done|]. by rewrite Hx, IH.
Qed.

(** ** Python indices *)

Lemma normalize_index_lt n i j : normalize_index n i = Some j → (j < n)%nat.
Proof. unfold normalize_index. repeat case_decide; intros [=]; lia. Qed.

Lemma normalize_index_is_Some n i :
  is_Some (normalize_index n i) ↔ (- Z.of_nat n ≤ i < Z.of_nat n)%Z.
Proof.
  unfold normalize_index. repeat case_decide; split;
    try (by intros [? [=]]); try lia; by eauto.
Qed.

Lemma normalize_index_nonneg n i j :
  (0 ≤ i)%Z → normalize_index n i = Some j → j = Z.to_nat i.
Proof. unfold normalize_index. repeat case_decide; intros ? [=]; lia. Qed.

Lemma normalize_index_of_nat n (j : nat) :
  (j < n)%nat → normalize_index n (Z.of_nat j) = Some j.
Proof.
  intros. unfold normalize_index. rewrite decide_True by lia.
  by rewrite Nat2Z.id.
Qed.

Lemma normalize_index_to_nat n i j :
  normalize_index n i = Some j →
  j = Z.to_nat (if decide (i < 0)%Z then i + Z.of_nat n else i)%Z.
Proof.
  unfold normalize_index. repeat case_decide; intros [=]; subst; lia.
Qed.

(** A column of a row that is not its last one is a column of the row
    without its last entry, unless it is addressed as the first from the
    end. *)
Lemma normalize_index_features n i j :
  normalize_index n i = Some j → (j < n - 1)%nat → i ≠ (- Z.of_nat n)%Z →
  ∃ j', normalize_index (n - 1) i = Some j'
        ∧ ((0 ≤ i)%Z → j' = j) ∧ ((i < 0)%Z → S j' = j).
Proof.
  unfold normalize_index. intros Hj Hlt Hne.
  repeat case_decide; simplify_eq; try lia; eexists; (split; [done|]); lia.
Qed.

Lemma normalize_index_first_from_end n :
  normalize_index (n - 1) (- Z.of_nat n) = None.
Proof. unfold normalize_index. repeat case_decide; try done; lia. Qed.

Lemma at_index_lookup (v : list Qc) i j :
  normalize_index (length v) i = Some j → at_index v i = v !! j.
Proof. intros H. unfold at_index. by rewrite H. Qed.

Lemma at_index_Some (v : list Qc) i x :
  at_index v i = Some x →
  ∃ j, normalize_index (length v) i = Some j ∧ v !! j = Some x.
Proof.
  unfold at_index. destruct (normalize_index (length v) i) as [j|]; [|done].
  simpl. eauto.
Qed.

Lemma item_at_at_index (v : list Qc) i :
  item_at v i = match at_index v i with
                | Some x => Ok x
                | None => Raise IndexError
                end.
Proof.
  unfold item_at, at_index, item.
  destruct (normalize_index (length v) i) as [j|] eqn:Hj; [|done]. simpl.
  by destruct (v !! j).
Qed.

Lemma at_index_is_Some (v : list Qc) i :
  is_Some (normalize_index (length v) i) → is_Some (at_index v i).
Proof.
  intros [j Hj]. rewrite (at_index_lookup _ _ _ Hj).
  apply lookup_lt_is_Some. by eapply normalize_index_lt.
Qed.

Lemma without_index_delete (v : list Qc) i j :
  normalize_index (length v) i = Some j → without_index v i = delete j v.
Proof. intros H. unfold without_index. by rewrite H. Qed.

Lemma assigned_insert (v : list Qc) i j x :
  normalize_index (length v) i = Some j → assigned v i x = <[j:=x]> v.
Proof. intros H. unfold assigned. by rewrite H. Qed.

Lemma length_assigned (v : list Qc) i x : length (assigned v i x) = length v.
Proof.
  unfold assigned. destruct (normalize_index _ _); [|done]. apply length_insert.
Qed.

Lemma length_without_index (v : list Qc) i :
  is_Some (normalize_index (length v) i) →
  length (without_index v i) = (length v - 1)%nat.
Proof.
  intros [j Hj]. rewrite (without_index_delete _ _ _ Hj).
  apply length_delete, lookup_lt_is_Some. by eapply normalize_index_lt.
Qed.

(** ** The conditions of [fit] select the two groups *)

Section conditions.
Variable o : UncorrelationMethod.

Lemma cond_A_1_true ex : cond_A_1 o ex = Ok true ↔ is_A_1 o ex = true.
Proof.
  unfold cond_A_1, is_A_1, item_last. rewrite item_at_at_index.
  destruct (last ex) as [y|]; simpl; [|by split].
  destruct (decide (y = 1)) as [->|Hy].
  - rewrite !bool_decide_eq_true_2 by done. simpl.
    destruct (at_index ex (sensitive_feature o)) as [v|]; simpl.
    + rewrite bool_decide_eq_true. split.
      * intros [= ->%bool_decide_eq_true]. done.
      * intros [= ->]. by rewrite bool_decide_eq_true_2.
    + by split.
  - rewrite bool_decide_eq_false_2 by done.
    rewrite (bool_decide_eq_false_2 (Some y = Some 1)) by congruence.
    by split.
Qed.

Lemma cond_not_A_1_true ex : cond_not_A_1 o ex = Ok true ↔ is_B_1 o ex = true.
Proof.
  unfold cond_not_A_1, is_B_1, item_last. rewrite item_at_at_index.
  destruct (last ex) as [y|]; simpl; [|by split].
  destruct (decide (y = 1)) as [->|Hy].
  - rewrite !bool_decide_eq_true_2 by done. simpl.
    destruct (at_index ex (sensitive_feature o)) as [v|]; simpl; [|by split].
    split; [by intros [= ->]|by intros ->].
  - rewrite bool_decide_eq_false_2 by done.
    rewrite (bool_decide_eq_false_2 (Some y = Some 1)) by congruence.
    by split.
Qed.

(** On rows that hold the sensitive column nothing is raised. *)
Lemma cond_A_1_total ex :
  is_Some (normalize_index (length ex) (sensitive_feature o)) →
  cond_A_1 o ex = Ok (is_A_1 o ex).
Proof.
  intros Hs. unfold cond_A_1, is_A_1, item_last. rewrite item_at_at_index.
  destruct (at_index_is_Some ex _ Hs) as [v Hv]. rewrite Hv.
  destruct (last ex) as [y|] eqn:Hl; simpl.
  - destruct (decide (y = 1)) as [->|Hy].
    + rewrite !bool_decide_eq_true_2 by done. simpl. f_equal.
      apply bool_decide_ext. split; congruence.
    + rewrite bool_decide_eq_false_2 by done.
      by rewrite (bool_decide_eq_false_2 (Some y = Some 1)) by congruence.
  - apply last_None in Hl as ->. destruct Hs as [j Hj%normalize_index_lt].
    simpl in Hj. lia.
Qed.

Lemma cond_not_A_1_total ex :
  is_Some (normalize_index (length ex) (sensitive_feature o)) →
  cond_not_A_1 o ex = Ok (is_B_1 o ex).
Proof.
  intros Hs. unfold cond_not_A_1, is_B_1, item_last. rewrite item_at_at_index.
  destruct (at_index_is_Some ex _ Hs) as [v Hv]. rewrite Hv.
  destruct (last ex) as [y|] eqn:Hl; simpl.
  - destruct (decide (y = 1)) as [->|Hy].
    + by rewrite !bool_decide_eq_true_2 by done.
    + rewrite bool_decide_eq_false_2 by done.
      by rewrite (bool_decide_eq_false_2 (Some y = Some 1)) by congruence.
  - apply last_None in Hl as ->. destruct Hs as [j Hj%normalize_index_lt].
    simpl in Hj. lia.
Qed.

Lemma cond_1_total ex :
  ex ≠ [] → ∃ b, cond_1 ex = Ok b.
Proof.
  intros Hex. unfold cond_1, item_last.
  destruct (last ex) eqn:Hl; simpl; [eauto|]. by apply last_None in Hl.
Qed.

(** A positively labelled example of either group has its sensitive
    column among the features: the label column itself cannot be both
    equal to and different from the marker on rows labelled 1. *)
Lemma sensitive_feature_is_feature d D :
  rectangular d D → pos_A o D ≠ [] → pos_B o D ≠ [] →
  ∃ j, normalize_index d (sensitive_feature o) = Some j ∧ (j < d - 1)%nat.
Proof.
  intros HD HA HB.
  destruct (pos_A o D) as [|a ?] eqn:EA; [done|].
  destruct (pos_B o D) as [|b ?] eqn:EB; [done|].
  assert (a ∈ pos_A o D) as Ha by (rewrite EA; left).
  assert (b ∈ pos_B o D) as Hb by (rewrite EB; left).
  apply list_elem_of_filter in Ha as [Ha Ha'].
  apply list_elem_of_filter in Hb as [Hb Hb'].
  unfold rectangular in HD. rewrite Forall_forall in HD.
  pose proof (HD _ Ha') as Hla. pose proof (HD _ Hb') as Hlb.
  unfold is_A_1 in Ha. unfold is_B_1 in Hb.
  apply Is_true_true, andb_true_iff in Ha as [Ha1 Ha2].
  apply Is_true_true, andb_true_iff in Hb as [Hb1 Hb2].
  apply bool_decide_eq_true in Ha1, Ha2, Hb1.
  destruct (at_index b (sensitive_feature o)) as [v|] eqn:Hv; [|done].
  apply bool_decide_eq_true in Hb2.
  apply at_index_Some in Ha2 as (j & Hj & Haj).
  apply at_index_Some in Hv as (j' & Hj' & Hbj).
  rewrite Hla in Hj. rewrite Hlb in Hj'.
  assert (j' = j) as -> by congruence.
  exists j. split; [done|].
  pose proof (normalize_index_lt _ _ _ Hj) as Hlt.
  destruct (decide (j = d - 1)%nat) as [Heq|]; [|lia].
  exfalso. rewrite last_lookup in Ha1, Hb1.
  rewrite Hla, <-Nat.sub_1_r, <-Heq in Ha1.
  rewrite Hlb, <-Nat.sub_1_r, <-Heq in Hb1.
  congruence.
Qed.

End conditions.
(** ** Stepping through the monad *)

Section steps.
Context {A B : Type}.
Implicit Types (k : A → M B) (w : world).

Lemma bind_lift_Ok (a : A) k w : bind (lift (Ok a)) k w = k a w.
Proof. done. Qed.

Lemma bind_lift_Raise e k w : bind (lift (Raise e)) k w = (Raise e, w).
Proof. done. Qed.

Lemma bind_ret (a : A) k w : bind (ret a) k w = k a w.
Proof. done. Qed.

End steps.

Lemma bind_get_self {B} (k : UncorrelationMethod → M B) w :
  bind get_self k w = k (self w) w.
Proof. done. Qed.

Lemma bind_load {B} l a (k : ndarray → M B) w :
  heap w !! l = Some a → bind (load l) k w = k a w.
Proof. intros H. unfold bind, load. by rewrite H. Qed.

Lemma bind_load_vector {B} l v (k : list Qc → M B) w :
  heap w !! l = Some (Arr1 v) → bind (load_vector l) k w = k v w.
Proof. intros H. unfold bind, load_vector. by rewrite H. Qed.

Lemma bind_alloc {B} a (k : loc → M B) w :
  bind (alloc a) k w
  = k (fresh (dom (heap w)))
      (mkWorld (self w) (<[fresh (dom (heap w)) := a]> (heap w)) (stdout w)).
Proof. done. Qed.

Lemma bind_print {B} p (k : unit → M B) w :
  bind (print p) k w = k () (mkWorld (self w) (heap w) (stdout w ++ [p])).
Proof. done. Qed.

Lemma fresh_loc_unused w : heap w !! fresh (dom (heap w)) = None.
Proof. apply not_elem_of_dom, is_fresh. Qed.

(** ** Running [fit] *)

Lemma np_mean_rectangular d (R : list (list Qc)) :
  R ≠ [] → rectangular d R → np.mean R = Ok (Arr1 (np.mean_rows R)).
Proof.
  intros HR Hrect. destruct R as [|r R]; [done|]. unfold np.mean.
  rewrite decide_True; [done|].
  assert (length r = d) as -> by (by inversion Hrect). exact Hrect.
Qed.

Lemma np_mean_empty_cannot_be_sliced (R : list (list Qc)) a :
  R = [] → np.mean R = Ok a → ∃ e, np.without_last a = Raise e.
Proof. intros -> [= <-]. simpl. eauto. Qed.

Lemma length_fit_difference o d D :
  rectangular d D → pos_A o D ≠ [] → pos_B o D ≠ [] →
  length (fit_difference o D) = (d - 1)%nat.
Proof.
  intros HD HA HB. unfold fit_difference.
  rewrite length_zip_with, !length_features_of.
  rewrite !(length_mean_rows d) by (done || by apply rectangular_filter).
  lia.
Qed.

(** With a positive example in each group, [fit] reaches its last
    statement with the difference of the two truncated means. *)
Lemma fit_reaches_assignment w ld D d :
  heap w !! ld = Some (Arr2 D) → rectangular d D →
  pos_A (self w) D ≠ [] → pos_B (self w) D ≠ [] →
  fit ld w
  = (lu ← alloc (Arr1 (fit_difference (self w) D));
     set_u lu;;
     store_item lu (sensitive_feature (self w)) (-1)) w.
Proof.
  intros Hld HD HA HB.
  destruct (sensitive_feature_is_feature _ _ _ HD HA HB) as (j & Hj & Hs).
  assert (Forall (λ ex, is_Some (normalize_index (length ex)
                                   (sensitive_feature (self w)))) D) as Hwide.
  { eapply Forall_impl; [exact HD|]. intros ex ->. by eexists. }
  unfold fit. rewrite bind_get_self, (bind_load _ _ _ _ Hld).
  simpl rows_of. rewrite bind_lift_Ok.
  rewrite (filter_raising_total _ (is_A_1 (self w))), bind_lift_Ok; cycle 1.
  { eapply Forall_impl; [exact Hwide|]. intros ex. apply cond_A_1_total. }
  fold (pos_A (self w) D).
  rewrite (np_mean_rectangular d), bind_lift_Ok
    by (done || by apply rectangular_filter).
  rewrite (filter_raising_total _ (is_B_1 (self w))), bind_lift_Ok; cycle 1.
  { eapply Forall_impl; [exact Hwide|]. intros ex. apply cond_not_A_1_total. }
  fold (pos_B (self w) D).
  rewrite (np_mean_rectangular d), bind_lift_Ok
    by (done || by apply rectangular_filter).
  rewrite (filter_raising_total _ (λ ex, bool_decide (last ex = Some 1))),
    bind_lift_Ok; cycle 1.
  { eapply Forall_impl; [exact HD|]. intros ex Hex. unfold cond_1, item_last.
    destruct (last ex) as [y|] eqn:Hl; simpl.
    - f_equal. apply bool_decide_ext. split; congruence.
    - apply last_None in Hl as ->. simpl in Hex. lia. }
  simpl np.without_last. rewrite !bind_lift_Ok.
  unfold np.subtract_arrays, np.subtract, np.broadcast.
  fold (features_of (np.mean_rows (pos_A (self w) D))).
  fold (features_of (np.mean_rows (pos_B (self w) D))).
  rewrite decide_True; cycle 1.
  { rewrite !length_features_of.
    by rewrite !(length_mean_rows d) by (done || by apply rectangular_filter). }
  fold (fit_difference (self w) D).
  by rewrite bind_lift_Ok.
Qed.

Lemma fit_returns w ld D d :
  heap w !! ld = Some (Arr2 D) → rectangular d D →
  pos_A (self w) D ≠ [] → pos_B (self w) D ≠ [] →
  sensitive_feature (self w) ≠ (- Z.of_nat d)%Z →
  fit ld w = (Ok (), fitted_world w D).
Proof.
  intros Hld HD HA HB Hne.
  destruct (sensitive_feature_is_feature _ _ _ HD HA HB) as (j & Hj & Hs).
  destruct (normalize_index_features _ _ _ Hj Hs Hne) as (j' & Hj' & _).
  pose proof (length_fit_difference _ _ _ HD HA HB) as Hlen.
  rewrite (fit_reaches_assignment w ld D d) by done.
  rewrite bind_alloc.
  unfold bind, set_u, store_item. cbn [heap self stdout val0 sensitive_feature].
  rewrite lookup_insert_eq, Hlen, Hj'.
  unfold fitted_world, assigned. by rewrite insert_insert_eq, Hlen, Hj'.
Qed.

(** Addressed as the first column from the end, the sensitive column has
    no entry in [u], which is one entry shorter than the rows: the last
    statement raises, after [u] has been assigned. *)
Lemma fit_raises_at_assignment w ld D d :
  heap w !! ld = Some (Arr2 D) → rectangular d D →
  pos_A (self w) D ≠ [] → pos_B (self w) D ≠ [] →
  sensitive_feature (self w) = (- Z.of_nat d)%Z →
  fit ld w
  = (Raise IndexError,
     mkWorld (mkUncorrelationMethod (val0 (self w)) (sensitive_feature (self w))
                (Some (fresh (dom (heap w)))))
             (<[fresh (dom (heap w)) := Arr1 (fit_difference (self w) D)]> (heap w))
             (stdout w)).
Proof.
  intros Hld HD HA HB Heq.
  pose proof (length_fit_difference _ _ _ HD HA HB) as Hlen.
  rewrite (fit_reaches_assignment w ld D d) by done.
  rewrite bind_alloc.
  unfold bind, set_u, store_item. cbn [heap self stdout val0 sensitive_feature].
  by rewrite lookup_insert_eq, Hlen, Heq, normalize_index_first_from_end.
Qed.

(** Without a positively labelled example in one of the groups, one of the
    two means is the [nan] scalar and slicing it raises. *)
Lemma fit_raises w ld D :
  heap w !! ld = Some (Arr2 D) →
  pos_A (self w) D = [] ∨ pos_B (self w) D = [] →
  ∃ e, fit ld w = (Raise e, w).
Proof.
  intros Hld Hempty.
  unfold fit. rewrite bind_get_self, (bind_load _ _ _ _ Hld).
  simpl rows_of. rewrite bind_lift_Ok.
  destruct (filter_raising (cond_A_1 (self w)) D) as [tmp|] eqn:HtA;
    [rewrite bind_lift_Ok|by eauto].
  apply (filter_raising_inv _ (is_A_1 (self w))) in HtA; [|apply cond_A_1_true].
  destruct (np.mean tmp) as [mA|] eqn:HmA; [rewrite bind_lift_Ok|by eauto].
  destruct (filter_raising (cond_not_A_1 (self w)) D) as [tmp'|] eqn:HtB;
    [rewrite bind_lift_Ok|by eauto].
  apply (filter_raising_inv _ (is_B_1 (self w))) in HtB; [|apply cond_not_A_1_true].
  destruct (np.mean tmp') as [mB|] eqn:HmB; [rewrite bind_lift_Ok|by eauto].
  destruct (filter_raising cond_1 D) as [N_1|]; [rewrite bind_lift_Ok|by eauto].
  destruct (np.without_last mA) as [x|] eqn:Hx; [rewrite bind_lift_Ok|by eauto].
  destruct (np.without_last mB) as [y|] eqn:Hy; [rewrite bind_lift_Ok|by eauto].
  exfalso. destruct Hempty as [HA|HB].
  - destruct (np_mean_empty_cannot_be_sliced tmp mA) as [e He]; [|done|congruence].
    by rewrite HtA.
  - destruct (np_mean_empty_cannot_be_sliced tmp' mB) as [e He]; [|done|congruence].
    by rewrite HtB.
Qed.

(** ** Running [new_representation] *)

Lemma shift_row_total o uv ex :
  length ex = length uv →
  is_Some (normalize_index (length uv) (sensitive_feature o)) →
  shift_row o uv ex = Ok (shifted_row o uv ex).
Proof.
  intros Hlen Hs. unfold shift_row, shifted_row. rewrite item_at_at_index.
  rewrite <-Hlen in Hs.
  destruct (at_index_is_Some ex _ Hs) as [v Hv]. rewrite Hv. simpl.
  rewrite (bool_decide_ext (Some v = Some (val0 o)) (v = val0 o))
    by (split; congruence).
  destruct (bool_decide (v = val0 o)); [done|].
  unfold np.add, np.broadcast. by rewrite decide_True.
Qed.

Lemma length_shifted_row o uv ex :
  length ex = length uv → length (shifted_row o uv ex) = length uv.
Proof.
  intros Hlen. unfold shifted_row.
  destruct (bool_decide _); [done|]. rewrite length_zip_with. lia.
Qed.

(** The column [np.delete] removes from a row is the one the index
    addresses. *)
Lemma delete_column_row (r : list Qc) (obj : Z) :
  is_Some (normalize_index (length r) obj) →
  delete (Z.to_nat (if decide (obj < 0)%Z then obj + Z.of_nat (length r) else obj)%Z) r
  = without_index r obj.
Proof.
  intros [j Hj]. rewrite (without_index_delete _ _ _ Hj).
  by rewrite (normalize_index_to_nat _ _ _ Hj).
Qed.

Lemma delete_column_returns (m : list (list Qc)) (obj : Z) :
  Forall (λ r, is_Some (normalize_index (length r) obj)) m →
  np.delete_column (Arr2 m) obj = Ok (Arr2 ((λ r, without_index r obj) <$> m)).
Proof.
  intros Hm. unfold np.delete_column. rewrite decide_True; cycle 1.
  { eapply Forall_impl; [exact Hm|]. intros r.
    by rewrite normalize_index_is_Some. }
  do 2 f_equal. apply Forall_fmap_ext.
  eapply Forall_impl; [exact Hm|]. intros r. apply delete_column_row.
Qed.

Lemma new_representation_returns w l lu uv X :
  u (self w) = Some lu → heap w !! lu = Some (Arr1 uv) →
  heap w !! l = Some (Arr2 X) →
  X ≠ [] → rectangular (length uv) X →
  is_Some (normalize_index (length uv) (sensitive_feature (self w))) →
  new_representation l w = (Ok (transformed_loc w uv X), transformed_world w uv X).
Proof.
  intros Hu Hlu Hl Hne HX Hs.
  unfold new_representation. rewrite bind_get_self, Hu.
  rewrite (bind_load _ _ _ _ Hl). simpl items_of. rewrite bind_lift_Ok.
  rewrite (bind_load_vector _ _ _ _ Hlu).
  rewrite (map_raising_total _ (shifted_row (self w) uv)), bind_lift_Ok; cycle 1.
  { eapply Forall_impl; [exact HX|]. intros ex Hex. by apply shift_row_total. }
  assert (rectangular (length uv) (shifted_row (self w) uv <$> X)) as Hrect.
  { eapply rectangular_fmap; [|exact HX]. intros r. apply length_shifted_row. }
  assert (np.array (shifted_row (self w) uv <$> X)
          = Arr2 (shifted_row (self w) uv <$> X)) as ->.
  { destruct X as [|r X]; [done|]. unfold np.array. rewrite fmap_cons.
    rewrite decide_True; [done|]. rewrite <-fmap_cons.
    inversion Hrect as [|?? Hr ?]; subst. rewrite Hr. exact Hrect. }
  cbv zeta. rewrite bind_alloc.
  rewrite delete_column_returns; cycle 1.
  { eapply Forall_impl; [exact Hrect|]. intros r ->. exact Hs. }
  rewrite bind_lift_Ok. unfold alloc. cbn [heap self stdout].
  unfold transformed_loc, transformed_world. do 4 f_equal.
  rewrite <-list_fmap_compose. done.
Qed.

(** ** Statements that leave the instance and the existing arrays alone *)

Lemma extends_refl w : extends w w.
Proof. by split. Qed.

Lemma extends_trans w1 w2 w3 : extends w1 w2 → extends w2 w3 → extends w1 w3.
Proof. intros [? ?] [? ?]. split; [congruence | by etrans]. Qed.

Lemma read_only_bind {A B} (m : M A) (k : A → M B) :
  read_only m → (∀ a, read_only (k a)) → read_only (bind m k).
Proof.
  intros Hm Hk w. unfold bind. specialize (Hm w).
  destruct (m w) as [[a|e] w1]; simpl in *; [|done].
  eapply extends_trans; [exact Hm | apply Hk].
Qed.

Lemma read_only_ret {A} (a : A) : read_only (ret a).
Proof. intros w. apply extends_refl. Qed.

Lemma read_only_lift {A} (o : outcome A) : read_only (lift o).
Proof. intros w. apply extends_refl. Qed.

Lemma read_only_get_self : read_only get_self.
Proof. intros w. apply extends_refl. Qed.

Lemma read_only_load l : read_only (load l).
Proof. intros w. unfold load. destruct (heap w !! l); apply extends_refl. Qed.

Lemma read_only_load_vector l : read_only (load_vector l).
Proof.
  intros w. unfold load_vector.
  destruct (heap w !! l) as [[]|]; apply extends_refl.
Qed.

Lemma read_only_print p : read_only (print p).
Proof. intros w. by split. Qed.

Lemma read_only_alloc a : read_only (alloc a).
Proof.
  intros w. split; [done|]. simpl.
  apply insert_subseteq, fresh_loc_unused.
Qed.

Create HintDb frame.
#[local] Hint Resolve read_only_ret read_only_lift read_only_get_self
  read_only_load read_only_load_vector read_only_print read_only_alloc : frame.

Ltac frame_step :=
  repeat (apply read_only_bind; [auto with frame | intros ?]); auto with frame.

(** ** The claims about [UncorrelationMethod] *)

Lemma fit_Ok_inv w w' ld D d :
  heap w !! ld = Some (Arr2 D) → rectangular d D →
  fit ld w = (Ok (), w') →
  pos_A (self w) D ≠ [] ∧ pos_B (self w) D ≠ []
  ∧ sensitive_feature (self w) ≠ (- Z.of_nat d)%Z
  ∧ w' = fitted_world w D.
Proof.
  intros Hld HD Hfit.
  destruct (decide (pos_A (self w) D = [])) as [HA|HA].
  { destruct (fit_raises w ld D Hld (or_introl HA)) as [e He]. congruence. }
  destruct (decide (pos_B (self w) D = [])) as [HB|HB].
  { destruct (fit_raises w ld D Hld (or_intror HB)) as [e He]. congruence. }
  destruct (decide (sensitive_feature (self w) = (- Z.of_nat d)%Z)) as [Heq|Hne].
  { rewrite (fit_raises_at_assignment w ld D d) in Hfit by done. discriminate. }
  rewrite (fit_returns w ld D d) in Hfit by done. by injection Hfit as <-.
Qed.

Lemma fit_difference_mean_difference o d D :
  rectangular d D → fit_difference o D = mean_difference o D.
Proof.
  intros HD. unfold fit_difference, mean_difference.
  by rewrite !(features_of_mean_rows d) by (by apply rectangular_filter).
Qed.

(** The entry an assignment writes is read back. *)
Lemma at_index_assigned (v : list Qc) i x :
  is_Some (normalize_index (length v) i) → at_index (assigned v i x) i = Some x.
Proof.
  intros [j Hj]. unfold at_index. rewrite length_assigned, Hj. simpl.
  rewrite (assigned_insert _ _ _ _ Hj). apply list_lookup_insert_eq.
  by eapply normalize_index_lt.
Qed.

(** C2, as amended.  On a data set of [d] columns whose last column is the
    label and whose two groups both contain a positively labelled example,
    with a sensitive index other than [-d], [fit] returns with [u]
    referring to the vector "mean features of the positive group-A examples
    minus mean features of the positive group-B examples" after the
    assignment [u[sensitive_feature] = -1], which has -1 at that index;
    [val0] and [sensitive_feature] keep their values. *)
Theorem fit_sets_u w ld D d :
  heap w !! ld = Some (Arr2 D) → rectangular d D →
  pos_A (self w) D ≠ [] → pos_B (self w) D ≠ [] →
  sensitive_feature (self w) ≠ (- Z.of_nat d)%Z →
  ∃ w' lu,
    fit ld w = (Ok (), w')
    ∧ u (self w') = Some lu
    ∧ heap w' !! lu
      = Some (Arr1 (assigned (mean_difference (self w) D)
                      (sensitive_feature (self w)) (-1)))
    ∧ at_index (assigned (mean_difference (self w) D)
                  (sensitive_feature (self w)) (-1))
        (sensitive_feature (self w)) = Some (-1)
    ∧ val0 (self w') = val0 (self w)
    ∧ sensitive_feature (self w') = sensitive_feature (self w).
Proof.
  intros Hld HD HA HB Hne. exists (fitted_world w D), (fresh (dom (heap w))).
  split; [by eapply fit_returns|]. split; [done|].
  rewrite <-(fit_difference_mean_difference _ d) by done.
  split; [|split; [|done]].
  - unfold fitted_world. cbn [heap]. by rewrite lookup_insert_eq.
  - apply at_index_assigned.
    rewrite (length_fit_difference _ d) by done.
    destruct (sensitive_feature_is_feature _ _ _ HD HA HB) as (j & Hj & Hs).
    destruct (normalize_index_features _ _ _ Hj Hs Hne) as (j' & Hj' & _).
    by eexists.
Qed.

Lemma fit_sets_u_witness :
  ∃ w' lu,
    fit example.dataset example.unfitted = (Ok (), w')
    ∧ u (self w') = Some lu
    ∧ heap w' !! lu
      = Some (Arr1 (assigned (mean_difference (self example.unfitted) example.D)
                      (sensitive_feature (self example.unfitted)) (-1)))
    ∧ at_index (assigned (mean_difference (self example.unfitted) example.D)
                  (sensitive_feature (self example.unfitted)) (-1))
        (sensitive_feature (self example.unfitted)) = Some (-1)
    ∧ val0 (self w') = val0 (self example.unfitted)
    ∧ sensitive_feature (self w') = sensitive_feature (self example.unfitted).
Proof.
  apply (fit_sets_u example.unfitted example.dataset example.D 3).
  - reflexivity.
  - repeat constructor.
  - vm_compute. discriminate.
  - vm_compute. discriminate.
  - vm_compute. discriminate.
Defined.

(** C2 as stated fails when the sensitive column is addressed as the first
    column from the end: on three columns and index -3 both groups have a
    positive example (the marker is 1), but [u] has two entries only and
    [u[-3] = -1.0] raises. *)
Lemma fit_first_column_from_end_raises :
  heap example.first_from_end !! example.dataset = Some (Arr2 example.D)
  ∧ rectangular 3 example.D
  ∧ pos_A (self example.first_from_end) example.D ≠ []
  ∧ pos_B (self example.first_from_end) example.D ≠ []
  ∧ (fit example.dataset example.first_from_end).1 = Raise IndexError.
Proof.
  split; [reflexivity|]. split; [repeat constructor|].
  split; [vm_compute; discriminate|]. split; [vm_compute; discriminate|].
  vm_compute. reflexivity.
Qed.

(** C5, as amended.  [fit] raises exactly when the positively labelled
    examples of group A or those of group B are none, or the sensitive
    index is [-d] on [d] columns; when both groups have a positive example
    and the index is not [-d], it returns and [u] refers to a vector. *)
Theorem fit_fails_iff_a_group_is_empty w ld D d :
  heap w !! ld = Some (Arr2 D) → rectangular d D →
  ((∃ e w', fit ld w = (Raise e, w'))
   ↔ pos_A (self w) D = [] ∨ pos_B (self w) D = []
     ∨ sensitive_feature (self w) = (- Z.of_nat d)%Z)
  ∧ (pos_A (self w) D ≠ [] ∧ pos_B (self w) D ≠ []
     ∧ sensitive_feature (self w) ≠ (- Z.of_nat d)%Z →
     ∃ w' lu uv, fit ld w = (Ok (), w')
                 ∧ u (self w') = Some lu ∧ heap w' !! lu = Some (Arr1 uv)).
Proof.
  intros Hld HD. split; [split|].
  - intros (e & w' & Hfit).
    destruct (decide (pos_A (self w) D = [])) as [|HA]; [by left|].
    destruct (decide (pos_B (self w) D = [])) as [|HB]; [by right; left|].
    destruct (decide (sensitive_feature (self w) = (- Z.of_nat d)%Z)) as [|Hne];
      [by right; right|].
    rewrite (fit_returns w ld D d) in Hfit by done. discriminate.
  - intros Hcases.
    destruct (decide (pos_A (self w) D = [])) as [HA|HA].
    { destruct (fit_raises w ld D Hld (or_introl HA)) as [e He]. eauto. }
    destruct (decide (pos_B (self w) D = [])) as [HB|HB].
    { destruct (fit_raises w ld D Hld (or_intror HB)) as [e He]. eauto. }
    destruct Hcases as [?|[?|Heq]]; [done..|].
    eexists _, _. by apply (fit_raises_at_assignment w ld D d).
  - intros (HA & HB & Hne). eexists _, _, _. split; [by eapply fit_returns|].
    split; [done|]. unfold fitted_world. cbn [heap]. apply lookup_insert_eq.
Qed.

Lemma fit_fails_iff_a_group_is_empty_witness :
  ((∃ e w', fit example.dataset example.unfitted = (Raise e, w'))
   ↔ pos_A (self example.unfitted) example.D = []
     ∨ pos_B (self example.unfitted) example.D = []
     ∨ sensitive_feature (self example.unfitted) = (- Z.of_nat 3)%Z)
  ∧ (pos_A (self example.unfitted) example.D ≠ []
     ∧ pos_B (self example.unfitted) example.D ≠ []
     ∧ sensitive_feature (self example.unfitted) ≠ (- Z.of_nat 3)%Z →
     ∃ w' lu uv, fit example.dataset example.unfitted = (Ok (), w')
                 ∧ u (self w') = Some lu ∧ heap w' !! lu = Some (Arr1 uv)).
Proof.
  apply (fit_fails_iff_a_group_is_empty example.unfitted example.dataset example.D 3).
  - reflexivity.
  - repeat constructor.
Defined.

(** C5 as stated fails at the same place: with a positive example in each
    group, [fit] on index -3 and three columns raises, and it does so after
    it has assigned [u]. *)
Lemma fit_fails_with_both_groups :
  pos_A (self example.first_from_end) example.D ≠ []
  ∧ pos_B (self example.first_from_end) example.D ≠ []
  ∧ ∃ w' lu,
      fit example.dataset example.first_from_end = (Raise IndexError, w')
      ∧ u (self example.first_from_end) = None ∧ u (self w') = Some lu.
Proof.
  split; [vm_compute; discriminate|]. split; [vm_compute; discriminate|].
  eexists _, _. split.
  - apply (fit_raises_at_assignment _ _ example.D 3);
      [reflexivity|repeat constructor|vm_compute; discriminate..|reflexivity].
  - split; reflexivity.
Qed.

(** C7.  When [fit] returns on a data set of [d] columns, [u] refers to a
    vector of [d - 1] entries, one per feature: the two group means have
    [d] entries each and lose the last one before they are subtracted, so
    [u] is as long as every feature row of the data set. *)
Theorem fit_u_has_one_entry_per_feature w w' ld D d :
  heap w !! ld = Some (Arr2 D) → rectangular d D →
  fit ld w = (Ok (), w') →
  ∃ lu uv,
    u (self w') = Some lu ∧ heap w' !! lu = Some (Arr1 uv)
    ∧ length uv = (d - 1)%nat
    ∧ length (np.mean_rows (pos_A (self w) D)) = d
    ∧ length (np.mean_rows (pos_B (self w) D)) = d
    ∧ Forall (λ ex, length (features_of ex) = length uv) D.
Proof.
  intros Hld HD Hfit.
  destruct (fit_Ok_inv _ _ _ _ _ Hld HD Hfit) as (HA & HB & _ & ->).
  eexists _, _. split; [done|]. split.
  { unfold fitted_world. cbn [heap]. apply lookup_insert_eq. }
  rewrite length_assigned, (length_fit_difference _ d) by done.
  rewrite !(length_mean_rows d) by (done || by apply rectangular_filter).
  repeat split. eapply Forall_impl; [exact HD|].
  intros ex <-. apply length_features_of.
Qed.

Lemma fit_u_has_one_entry_per_feature_witness :
  ∃ lu uv,
    u (self example.fitted) = Some lu
    ∧ heap example.fitted !! lu = Some (Arr1 uv)
    ∧ length uv = (3 - 1)%nat
    ∧ length (np.mean_rows (pos_A (self example.unfitted) example.D)) = 3%nat
    ∧ length (np.mean_rows (pos_B (self example.unfitted) example.D)) = 3%nat
    ∧ Forall (λ ex, length (features_of ex) = length uv) example.D.
Proof.
  apply (fit_u_has_one_entry_per_feature
           example.unfitted example.fitted example.dataset example.D 3).
  - reflexivity.
  - repeat constructor.
  - vm_compute. reflexivity.
Defined.

(** C4.  On an instance whose [u] is [None], [new_representation] prints
    the warning and returns its argument itself: the same array object, no
    array created or changed, the instance as it was, no exception. *)
Theorem new_representation_unfitted w examples :
  u (self w) = None →
  new_representation examples w
  = (Ok examples,
     mkWorld (self w) (heap w)
             (stdout w ++ [Line "You have to fit the model first..."])).
Proof.
  intros Hu. unfold new_representation. by rewrite bind_get_self, Hu.
Qed.

Lemma new_representation_unfitted_witness :
  new_representation example.feature_rows example.unfitted
  = (Ok example.feature_rows,
     mkWorld (self example.unfitted) (heap example.unfitted)
             (stdout example.unfitted ++ [Line "You have to fit the model first..."])).
Proof.
  apply (new_representation_unfitted example.unfitted example.feature_rows).
  reflexivity.
Defined.

(** C10.  Whatever the world and the argument, and whether the call
    returns or raises, [new_representation] leaves [val0],
    [sensitive_feature] and [u] as they were and changes no existing array,
    its argument and the array of [u] included: it only creates arrays and
    prints. *)
Theorem new_representation_read_only w examples :
  self (new_representation examples w).2 = self w
  ∧ heap w ⊆ heap (new_representation examples w).2.
Proof.
  revert w. change (read_only (new_representation examples)).
  unfold new_representation. apply read_only_bind; [auto with frame|].
  intros o. destruct (u o); frame_step.
Qed.

(** [fit] is the method that assigns [u]. *)
Lemma fit_assigns_u w ld D d :
  heap w !! ld = Some (Arr2 D) → rectangular d D →
  pos_A (self w) D ≠ [] → pos_B (self w) D ≠ [] →
  u (self (fit ld w).2) = Some (fresh (dom (heap w))).
Proof.
  intros Hld HD HA HB.
  destruct (decide (sensitive_feature (self w) = (- Z.of_nat d)%Z)) as [Heq|Hne].
  - by erewrite fit_raises_at_assignment.
  - by erewrite fit_returns.
Qed.

(** C3, as amended.  On a fitted instance and a non-empty batch of rows as
    wide as [u], with the sensitive index inside the row (counted from the
    front or from the end), [new_representation] returns a new array whose
    rows are, in order, the input row when its sensitive value equals the
    marker and the input row plus [u] otherwise, the sensitive column
    deleted in both cases; every output row is one column narrower than
    its input row and a group-A row is its input row without that
    column. *)
Theorem new_representation_fitted w examples lu uv X :
  u (self w) = Some lu → heap w !! lu = Some (Arr1 uv) →
  heap w !! examples = Some (Arr2 X) →
  X ≠ [] → rectangular (length uv) X →
  is_Some (normalize_index (length uv) (sensitive_feature (self w))) →
  ∃ lr w',
    new_representation examples w = (Ok lr, w')
    ∧ heap w' !! lr = Some (Arr2 (transformed_row (self w) uv <$> X))
    ∧ Forall2 (λ ex y,
         length y = (length ex - 1)%nat
         ∧ (at_index ex (sensitive_feature (self w)) = Some (val0 (self w)) →
            y = without_index ex (sensitive_feature (self w))))
        X (transformed_row (self w) uv <$> X).
Proof.
  intros Hu Hlu Hl Hne HX Hs. eexists _, _.
  split; [by eapply new_representation_returns|]. split.
  { unfold transformed_world, transformed_loc. cbn [heap]. apply lookup_insert_eq. }
  apply Forall2_fmap_r, Forall_Forall2_diag.
  eapply Forall_impl; [exact HX|]. intros ex Hex. split.
  - change (transformed_row (self w) uv ex)
      with (without_index (shifted_row (self w) uv ex) (sensitive_feature (self w))).
    rewrite length_without_index.
    + by rewrite (length_shifted_row (self w) uv ex Hex), Hex.
    + by rewrite (length_shifted_row (self w) uv ex Hex).
  - intros HA. unfold transformed_row. by rewrite bool_decide_eq_true_2.
Qed.

Lemma new_representation_fitted_witness :
  ∃ lr w',
    new_representation example.feature_rows example.fitted = (Ok lr, w')
    ∧ heap w' !! lr
      = Some (Arr2 (transformed_row (self example.fitted)
                      example.fitted_u <$> (features_of <$> example.D)))
    ∧ Forall2 (λ ex y,
         length y = (length ex - 1)%nat
         ∧ (at_index ex (sensitive_feature (self example.fitted))
            = Some (val0 (self example.fitted)) →
            y = without_index ex (sensitive_feature (self example.fitted))))
        (features_of <$> example.D)
        (transformed_row (self example.fitted)
           example.fitted_u <$> (features_of <$> example.D)).
Proof.
  apply (new_representation_fitted example.fitted example.feature_rows
           3%positive example.fitted_u (features_of <$> example.D)).
  - reflexivity.
  - vm_compute. reflexivity.
  - reflexivity.
  - discriminate.
  - repeat constructor.
  - vm_compute. by eexists.
Defined.

(** C3 as stated fails on the empty batch: the comprehension yields no
    row, [np.array] of the empty list has rank 1, and [np.delete] along
    axis 1 raises. *)
Lemma new_representation_empty_batch_raises :
  u (self example.fitted_with_empty_batch) = Some 2%positive
  ∧ heap example.fitted_with_empty_batch !! 2%positive
    = Some (Arr1 [Qc_of_Z (-5); -1])
  ∧ heap example.fitted_with_empty_batch !! example.empty_batch = Some (Arr2 [])
  ∧ (new_representation example.empty_batch example.fitted_with_empty_batch).1
    = Raise AxisError.
Proof. repeat split. Qed.

(** C8, as amended.  For a non-negative sensitive index and under the 0/1
    coding (the sensitive feature is 0 on every positive example of group A
    and 1 on every positive example of group B), when [fit] returns the
    difference of the two means already has -1 at the sensitive index (the
    means there are 0 and 1), so the vector [u] refers to is that
    difference itself: the final assignment changed nothing. *)
Theorem fit_assignment_redundant w w' ld D d :
  heap w !! ld = Some (Arr2 D) → rectangular d D →
  (0 ≤ sensitive_feature (self w))%Z →
  Forall (λ ex, at_index ex (sensitive_feature (self w)) = Some 0) (pos_A (self w) D) →
  Forall (λ ex, at_index ex (sensitive_feature (self w)) = Some 1) (pos_B (self w) D) →
  fit ld w = (Ok (), w') →
  ∃ lu,
    at_index (np.mean_rows (pos_A (self w) D)) (sensitive_feature (self w)) = Some 0
    ∧ at_index (np.mean_rows (pos_B (self w) D)) (sensitive_feature (self w)) = Some 1
    ∧ at_index (fit_difference (self w) D) (sensitive_feature (self w)) = Some (-1)
    ∧ u (self w') = Some lu
    ∧ heap w' !! lu = Some (Arr1 (fit_difference (self w) D)).
Proof.
  intros Hld HD Hs0 H0 H1 Hfit.
  destruct (fit_Ok_inv _ _ _ _ _ Hld HD Hfit) as (HA & HB & Hne & ->).
  destruct (sensitive_feature_is_feature _ _ _ HD HA HB) as (j & Hj & Hs).
  destruct (normalize_index_features _ _ _ Hj Hs Hne) as (j' & Hj' & Hjj & _).
  specialize (Hjj Hs0). subst j'.
  assert (rectangular d (pos_A (self w) D)) as HRA by (by apply rectangular_filter).
  assert (rectangular d (pos_B (self w) D)) as HRB by (by apply rectangular_filter).
  assert (∀ c R, rectangular d R →
            Forall (λ ex, at_index ex (sensitive_feature (self w)) = Some c) R →
            Forall (λ ex, ex !! j = Some c) R) as Hcol.
  { intros c R HR. rewrite !Forall_forall. intros Hc ex Hin.
    rewrite <-(Hc ex Hin). symmetry. apply at_index_lookup.
    unfold rectangular in HR. rewrite Forall_forall in HR. by rewrite (HR ex Hin). }
  assert (np.mean_rows (pos_A (self w) D) !! j = Some 0) as HmA.
  { apply (mean_rows_constant_column d); [done|done|lia|by apply Hcol]. }
  assert (np.mean_rows (pos_B (self w) D) !! j = Some 1) as HmB.
  { apply (mean_rows_constant_column d); [done|done|lia|by apply Hcol]. }
  assert (fit_difference (self w) D !! j = Some (-1)) as Hdiff.
  { unfold fit_difference. rewrite lookup_zip_with.
    rewrite !lookup_features_of, HmA, HmB; [done| |].
    all: rewrite (length_mean_rows d); [lia|done|done]. }
  pose proof (length_fit_difference _ _ _ HD HA HB) as Hlen.
  eexists. split; [|split; [|split; [|split; [done|]]]].
  - rewrite <-HmA. apply at_index_lookup. by rewrite (length_mean_rows d).
  - rewrite <-HmB. apply at_index_lookup. by rewrite (length_mean_rows d).
  - rewrite <-Hdiff. apply at_index_lookup. by rewrite Hlen.
  - unfold fitted_world. cbn [heap]. rewrite lookup_insert_eq.
    rewrite (assigned_insert _ _ j) by (by rewrite Hlen).
    by rewrite list_insert_id.
Qed.

Lemma fit_assignment_redundant_witness :
  ∃ lu,
    at_index (np.mean_rows (pos_A (self example.unfitted) example.D))
      (sensitive_feature (self example.unfitted)) = Some 0
    ∧ at_index (np.mean_rows (pos_B (self example.unfitted) example.D))
        (sensitive_feature (self example.unfitted)) = Some 1
    ∧ at_index (fit_difference (self example.unfitted) example.D)
        (sensitive_feature (self example.unfitted)) = Some (-1)
    ∧ u (self example.fitted) = Some lu
    ∧ heap example.fitted !! lu
      = Some (Arr1 (fit_difference (self example.unfitted) example.D)).
Proof.
  apply (fit_assignment_redundant
           example.unfitted example.fitted example.dataset example.D 3).
  - reflexivity.
  - repeat constructor.
  - vm_compute. discriminate.
  - vm_compute. repeat constructor.
  - vm_compute. repeat constructor.
  - vm_compute. reflexivity.
Defined.

(** C8 as stated fails for a negative index: with index -2 on three
    columns the 0/1 coding holds in the column the rows are grouped by
    (column 1), and the difference of the means is -1 there, but in [u],
    one entry shorter, -2 addresses column 0: the assignment replaces the
    entry -5 and [u] is not the difference. *)
Lemma fit_assignment_not_redundant_from_end :
  Forall (λ ex, at_index ex (-2) = Some 0) (pos_A (self example.from_end) example.D)
  ∧ Forall (λ ex, at_index ex (-2) = Some 1) (pos_B (self example.from_end) example.D)
  ∧ at_index (np.mean_rows (pos_A (self example.from_end) example.D)) (-2)
    = Some 0
  ∧ at_index (np.mean_rows (pos_B (self example.from_end) example.D)) (-2)
    = Some 1
  ∧ fit_difference (self example.from_end) example.D = [Qc_of_Z (-5); Qc_of_Z (-1)]
  ∧ ∃ w' lu uv,
      fit example.dataset example.from_end = (Ok (), w')
      ∧ u (self w') = Some lu
      ∧ heap w' !! lu = Some (Arr1 uv)
      ∧ uv = [Qc_of_Z (-1); Qc_of_Z (-1)]
      ∧ uv ≠ fit_difference (self example.from_end) example.D.
Proof.
  split; [apply (bool_decide_unpack _); by vm_compute|].
  split; [apply (bool_decide_unpack _); by vm_compute|].
  split; [apply (bool_decide_unpack _); by vm_compute|].
  split; [apply (bool_decide_unpack _); by vm_compute|].
  split; [apply (bool_decide_unpack _); by vm_compute|].
  eexists _, _, _. split; [|split; [|split; [|split]]].
  - apply (fit_returns _ _ example.D 3);
      [reflexivity|repeat constructor|vm_compute; discriminate..].
  - reflexivity.
  - unfold fitted_world. cbn [heap]. apply lookup_insert_eq.
  - apply (bool_decide_unpack _). by vm_compute.
  - apply (bool_decide_unpack _). by vm_compute.
Qed.

(** ** The invariant of the correction *)

Lemma rows_where_fmap (p : list Qc → bool) (g : list Qc → list Qc) D :
  rows_where p D (g <$> D) = g <$> filter (λ ex, p ex) D.
Proof.
  unfold rows_where. induction D as [|ex D IH]; csimpl; [done|].
  rewrite !filter_cons. simpl.
  destruct (decide (p ex)); csimpl; by rewrite IH.
Qed.

Lemma delete_insert_same (s : nat) (x : Qc) (l : list Qc) :
  delete s (<[s:=x]> l) = delete s l.
Proof.
  revert s. induction l as [|y l IH]; intros [|s]; simpl; try done.
  by rewrite IH.
Qed.

Lemma shift_cancels (a b : list Qc) :
  length a = length b →
  zip_with Qcminus a (zip_with Qcplus b (zip_with Qcminus a b))
  = replicate (length a) 0.
Proof.
  revert b. induction a as [|x a IH]; intros [|y b]; simpl; try done.
  intros [=]. f_equal; [ring | by apply IH].
Qed.

Section correction.
Variables (o : UncorrelationMethod) (d : nat) (D : list (list Qc)).
Hypothesis HD : rectangular d D.
Hypothesis HA : pos_A o D ≠ [].
Hypothesis HB : pos_B o D ≠ [].
Hypothesis Hs0 : (0 ≤ sensitive_feature o)%Z.

(** The instance after [fit]: the same marker and index. *)
Variable o' : UncorrelationMethod.
Hypothesis Hval0 : val0 o' = val0 o.
Hypothesis Hsens : sensitive_feature o' = sensitive_feature o.

(** The column a non-negative index addresses, in the rows and in the
    feature rows alike. *)
Lemma sensitive_within_features :
  normalize_index d (sensitive_feature o) = Some (Z.to_nat (sensitive_feature o))
  ∧ normalize_index (d - 1) (sensitive_feature o)
    = Some (Z.to_nat (sensitive_feature o))
  ∧ (Z.to_nat (sensitive_feature o) < d - 1)%nat.
Proof.
  destruct (sensitive_feature_is_feature _ _ _ HD HA HB) as (j & Hj & Hs).
  pose proof (normalize_index_nonneg _ _ _ Hs0 Hj) as ->.
  split; [done|]. split; [|done].
  unfold normalize_index. rewrite decide_True by lia. done.
Qed.

Lemma sensitive_value_of_features ex :
  length ex = d →
  at_index (features_of ex) (sensitive_feature o) = at_index ex (sensitive_feature o).
Proof.
  intros Hlen. destruct sensitive_within_features as (Hj & Hj' & Hs).
  rewrite (at_index_lookup (features_of ex) _ (Z.to_nat (sensitive_feature o)))
    by (by rewrite length_features_of, Hlen).
  rewrite (at_index_lookup ex _ (Z.to_nat (sensitive_feature o)))
    by (by rewrite Hlen).
  apply lookup_features_of. lia.
Qed.

Lemma transformed_row_A ex :
  length ex = d → is_A_1 o ex →
  transformed_row o' (<[Z.to_nat (sensitive_feature o) := -1]> (fit_difference o D))
    (features_of ex)
  = project (Z.to_nat (sensitive_feature o)) ex.
Proof.
  intros Hlen Hex. unfold transformed_row. rewrite Hval0, Hsens.
  destruct sensitive_within_features as (Hj & Hj' & Hs).
  apply andb_prop_elim in Hex as [_ Hex%bool_decide_unpack].
  rewrite sensitive_value_of_features by done.
  rewrite bool_decide_eq_true_2 by done.
  apply without_index_delete. by rewrite length_features_of, Hlen.
Qed.

Lemma transformed_row_B ex :
  length ex = d → is_B_1 o ex →
  transformed_row o' (<[Z.to_nat (sensitive_feature o) := -1]> (fit_difference o D))
    (features_of ex)
  = zip_with Qcplus (project (Z.to_nat (sensitive_feature o)) ex)
      (delete (Z.to_nat (sensitive_feature o)) (fit_difference o D)).
Proof.
  intros Hlen Hex. unfold transformed_row. rewrite Hval0, Hsens.
  destruct sensitive_within_features as (Hj & Hj' & Hs).
  apply andb_prop_elim in Hex as [_ Hex].
  rewrite sensitive_value_of_features by done.
  destruct (at_index ex (sensitive_feature o)) as [v|]; [|done].
  apply bool_decide_unpack in Hex.
  rewrite bool_decide_eq_false_2 by congruence.
  rewrite (without_index_delete _ _ (Z.to_nat (sensitive_feature o))); cycle 1.
  { rewrite length_zip_with, length_insert, length_features_of, Hlen.
    rewrite (length_fit_difference _ d) by done.
    by rewrite Nat.min_id. }
  by rewrite delete_zip_with, delete_insert_same.
Qed.

Lemma rectangular_project R :
  rectangular d R →
  rectangular (d - 2) (project (Z.to_nat (sensitive_feature o)) <$> R).
Proof.
  destruct sensitive_within_features as (Hj & Hj' & Hs).
  apply rectangular_fmap. intros r Hr. unfold project.
  rewrite length_delete, length_features_of; [lia|].
  apply lookup_lt_is_Some. rewrite length_features_of. lia.
Qed.

Lemma mean_rows_project R :
  rectangular d R →
  np.mean_rows (project (Z.to_nat (sensitive_feature o)) <$> R)
  = project (Z.to_nat (sensitive_feature o)) (np.mean_rows R).
Proof.
  intros HR. destruct sensitive_within_features as (Hj & Hj' & Hs).
  unfold project. rewrite (features_of_mean_rows d) by done.
  rewrite (delete_mean_rows _ (d - 1)), <-list_fmap_compose; [done| |done].
  eapply rectangular_fmap; [|exact HR]. intros r <-. apply length_features_of.
Qed.

Lemma length_project_mean R :
  R ≠ [] → rectangular d R →
  length (project (Z.to_nat (sensitive_feature o)) (np.mean_rows R)) = (d - 2)%nat.
Proof.
  intros Hne HR.
  rewrite <-mean_rows_project by done.
  apply length_mean_rows; [by apply fmap_nonempty | by apply rectangular_project].
Qed.

(** After the correction the two group means coincide. *)
Lemma corrected_means_coincide :
  let X := transformed_row o'
             (<[Z.to_nat (sensitive_feature o) := -1]> (fit_difference o D))
           <$> (features_of <$> D) in
  zip_with Qcminus (np.mean_rows (rows_where (is_A_1 o) D X))
                   (np.mean_rows (rows_where (is_B_1 o) D X))
  = replicate (d - 2) 0.
Proof.
  intros X. subst X. destruct sensitive_within_features as (Hj & Hj' & Hs).
  set (j := Z.to_nat (sensitive_feature o)) in *.
  rewrite <-list_fmap_compose, !rows_where_fmap.
  fold (pos_A o D). fold (pos_B o D).
  assert (rectangular d (pos_A o D)) as HRA by (by apply rectangular_filter).
  assert (rectangular d (pos_B o D)) as HRB by (by apply rectangular_filter).
  assert ((transformed_row o' (<[j := -1]> (fit_difference o D)) ∘ features_of)
            <$> pos_A o D
          = project j <$> pos_A o D) as ->.
  { apply Forall_fmap_ext, Forall_forall. intros ex Hex.
    apply list_elem_of_filter in Hex as [Hex Hin]. simpl.
    apply transformed_row_A; [|done].
    unfold rectangular in HD. rewrite Forall_forall in HD. by apply HD. }
  assert ((transformed_row o' (<[j := -1]> (fit_difference o D)) ∘ features_of)
            <$> pos_B o D
          = (λ r, zip_with Qcplus r (delete j (fit_difference o D)))
              <$> (project j <$> pos_B o D)) as ->.
  { rewrite <-list_fmap_compose.
    apply Forall_fmap_ext, Forall_forall. intros ex Hex.
    apply list_elem_of_filter in Hex as [Hex Hin]. simpl.
    apply transformed_row_B; [|done].
    unfold rectangular in HD. rewrite Forall_forall in HD. by apply HD. }
  assert (delete j (fit_difference o D)
          = zip_with Qcminus (project j (np.mean_rows (pos_A o D)))
                             (project j (np.mean_rows (pos_B o D)))) as Hδ.
  { unfold fit_difference, project. by rewrite delete_zip_with. }
  assert (length (delete j (fit_difference o D)) = (d - 2)%nat) as Hlen.
  { rewrite Hδ, length_zip_with. unfold j. rewrite !length_project_mean by done. lia. }
  rewrite mean_rows_shift; cycle 1.
  { by apply fmap_nonempty. }
  { rewrite Hlen. by apply rectangular_project. }
  unfold j in *. rewrite !mean_rows_project, Hδ by done.
  rewrite shift_cancels by (by rewrite !length_project_mean).
  by rewrite length_project_mean.
Qed.

End correction.

(** C1, as amended.  Take an instance with a non-negative sensitive index
    and a data set on which [fit] is called, with a positively labelled
    example in each group, and apply [new_representation] to its feature
    rows.  Both calls return, the result has one row per example and
    [d - 2] columns (the label and the sensitive column are gone), and the
    mean of the result rows of the positive group-A examples minus the
    mean of the result rows of the positive group-B examples is zero on
    every one of these columns, exactly. *)
Theorem correction_equalizes_positive_means w ld lf D d :
  heap w !! ld = Some (Arr2 D) →
  heap w !! lf = Some (Arr2 (features_of <$> D)) →
  rectangular d D →
  pos_A (self w) D ≠ [] → pos_B (self w) D ≠ [] →
  (0 ≤ sensitive_feature (self w))%Z →
  ∃ w1 w2 lr X,
    fit ld w = (Ok (), w1)
    ∧ new_representation lf w1 = (Ok lr, w2)
    ∧ heap w2 !! lr = Some (Arr2 X)
    ∧ length X = length D
    ∧ rectangular (d - 2) X
    ∧ zip_with Qcminus (np.mean_rows (rows_where (is_A_1 (self w)) D X))
                       (np.mean_rows (rows_where (is_B_1 (self w)) D X))
      = replicate (d - 2) 0.
Proof.
  intros Hld Hlf HD HA HB Hs0.
  destruct (sensitive_within_features _ _ _ HD HA HB Hs0) as (Hj & Hj' & Hs).
  pose proof (length_fit_difference _ _ _ HD HA HB) as Hlen.
  set (j := Z.to_nat (sensitive_feature (self w))) in *.
  set (uv := <[j := -1]> (fit_difference (self w) D)).
  assert (assigned (fit_difference (self w) D) (sensitive_feature (self w)) (-1) = uv)
    as Huv'.
  { apply assigned_insert. by rewrite Hlen. }
  assert (length uv = (d - 1)%nat) as Huv by (unfold uv; by rewrite length_insert).
  set (w1 := fitted_world w D).
  assert (heap w1 !! lf = Some (Arr2 (features_of <$> D))) as Hlf1.
  { unfold w1, fitted_world. cbn [heap]. rewrite lookup_insert_ne; [done|].
    intros Heq. pose proof (fresh_loc_unused w) as Hfresh.
    rewrite Heq in Hfresh. congruence. }
  assert (heap w1 !! fresh (dom (heap w)) = Some (Arr1 uv)) as Hlu1.
  { unfold w1, fitted_world. cbn [heap]. by rewrite lookup_insert_eq, Huv'. }
  assert (rectangular (length uv) (features_of <$> D)) as HX.
  { rewrite Huv. eapply rectangular_fmap; [|exact HD].
    intros r <-. apply length_features_of. }
  assert (features_of <$> D ≠ []) as HXne.
  { apply fmap_nonempty. intros ->. by apply HA. }
  exists w1, (transformed_world w1 uv (features_of <$> D)),
    (transformed_loc w1 uv (features_of <$> D)),
    (transformed_row (self w1) uv <$> (features_of <$> D)).
  split.
  { eapply fit_returns; [done..|]. lia. }
  split.
  { eapply new_representation_returns; [done|exact Hlu1|exact Hlf1|done|done|].
    unfold w1, fitted_world. cbn [self sensitive_feature]. rewrite Huv. by eexists. }
  split.
  { unfold transformed_world, transformed_loc. cbn [heap]. apply lookup_insert_eq. }
  split; [by rewrite !length_fmap|].
  split.
  { rewrite <-list_fmap_compose. eapply rectangular_fmap; [|exact HD].
    intros r Hr. unfold compose.
    change (transformed_row (self w1) uv (features_of r))
      with (without_index (shifted_row (self w1) uv (features_of r))
              (sensitive_feature (self w))).
    assert (length (shifted_row (self w1) uv (features_of r)) = (d - 1)%nat) as Hl.
    { rewrite length_shifted_row; [done|].
      rewrite length_features_of, Hr. lia. }
    rewrite length_without_index, Hl; [lia|]. rewrite Hl. by eexists. }
  by apply (corrected_means_coincide (self w) d D HD HA HB Hs0 (self w1)).
Qed.

Lemma correction_equalizes_positive_means_witness :
  ∃ w1 w2 lr X,
    fit example.dataset example.unfitted = (Ok (), w1)
    ∧ new_representation example.feature_rows w1 = (Ok lr, w2)
    ∧ heap w2 !! lr = Some (Arr2 X)
    ∧ length X = length example.D
    ∧ rectangular (3 - 2) X
    ∧ zip_with Qcminus
        (np.mean_rows (rows_where (is_A_1 (self example.unfitted)) example.D X))
        (np.mean_rows (rows_where (is_B_1 (self example.unfitted)) example.D X))
      = replicate (3 - 2) 0.
Proof.
  apply (correction_equalizes_positive_means
           example.unfitted example.dataset example.feature_rows example.D 3).
  - reflexivity.
  - reflexivity.
  - repeat constructor.
  - vm_compute. discriminate.
  - vm_compute. discriminate.
  - vm_compute. discriminate.
Defined.

(** C1 as stated fails for a negative index: with index -2 on three
    columns [fit] groups the rows by column 1 and [new_representation],
    whose rows are one entry shorter, tests and deletes column 0; both
    calls return, and the means of the positive examples of the two groups
    then differ by -1 on the remaining column. *)
Lemma correction_fails_from_end :
  pos_A (self example.from_end) example.D ≠ []
  ∧ pos_B (self example.from_end) example.D ≠ []
  ∧ ∃ w1 w2 lr X,
      fit example.dataset example.from_end = (Ok (), w1)
      ∧ new_representation example.feature_rows w1 = (Ok lr, w2)
      ∧ heap w2 !! lr = Some (Arr2 X)
      ∧ zip_with Qcminus
          (np.mean_rows (rows_where (is_A_1 (self example.from_end)) example.D X))
          (np.mean_rows (rows_where (is_B_1 (self example.from_end)) example.D X))
        = [Qc_of_Z (-1)].
Proof.
  split; [vm_compute; discriminate|]. split; [vm_compute; discriminate|].
  eexists _, _, _, _. split; [|split; [|split]].
  - apply (fit_returns _ _ example.D 3);
      [reflexivity|repeat constructor|vm_compute; discriminate..].
  - apply (new_representation_returns _ _ 3%positive
             (assigned (fit_difference (self example.from_end) example.D) (-2) (-1))).
    + reflexivity.
    + unfold fitted_world. cbn [heap]. apply lookup_insert_eq.
    + reflexivity.
    + discriminate.
    + repeat constructor.
    + vm_compute. by eexists.
  - unfold transformed_world, transformed_loc. cbn [heap]. apply lookup_insert_eq.
  - apply (bool_decide_unpack _). by vm_compute.
Qed.

(** ** The confusion matrix of a group *)

Section confusion.
Variables (dataset : list (list Qc)) (predictions : list Qc).

Lemma zero_is_not_one : (0 : Qc) ≠ 1.
Proof. intros H. by apply (f_equal this) in H. Qed.

Lemma selected_columns idxs :
  selects_binary dataset predictions idxs →
  ∃ rows col,
    take_items dataset idxs = Ok rows
    ∧ map_raising item_last rows = Ok col
    ∧ where_eq_1 col = truth dataset <$> idxs
    ∧ take_items predictions idxs = Ok (prediction predictions <$> idxs).
Proof.
  unfold take_items.
  induction 1 as [|i idxs [[y Hy] Hp] _ (rows & col & IH1 & IH2 & IH3 & IH4)].
  { by exists [], []. }
  destruct (dataset !! i) as [row|] eqn:Hrow; [|done]. simpl in Hy.
  exists (row :: rows), (y :: col). simpl.
  rewrite Hrow, IH1. simpl. unfold item_last at 1. rewrite Hy. simpl.
  rewrite IH2. simpl. split; [done|]. split; [done|]. split.
  - unfold where_eq_1 in *. csimpl. rewrite IH3. f_equal.
    unfold truth, actual_positive. rewrite Hrow. simpl. rewrite Hy.
    destruct (decide (y = 1)) as [->|Hne].
    + by rewrite !bool_decide_eq_true_2.
    + rewrite bool_decide_eq_false_2 by done.
      by rewrite bool_decide_eq_false_2 by congruence.
  - unfold prediction at 1. destruct Hp as [Hp|Hp]; rewrite Hp, IH4; done.
Qed.

Lemma zip_fmap_diag {A} (f g : A → Qc) (l : list A) :
  zip (f <$> l) (g <$> l) = (λ i, (f i, g i)) <$> l.
Proof. induction l as [|x l IH]; csimpl; [done|]. by rewrite IH. Qed.

Lemma cell_counts idxs (a : bool) (b : Qc) :
  selects_binary dataset predictions idxs →
  sklearn.cell ((λ i, (truth dataset i, prediction predictions i)) <$> idxs) (if a then 1 else 0) b
  = count_cell dataset predictions idxs a b.
Proof.
  unfold sklearn.cell, count_cell.
  induction 1 as [|i idxs [_ Hp] _ IH]; [done|].
  csimpl. rewrite !filter_cons.
  assert (predictions !! i = Some (prediction predictions i)) as Hpi.
  { unfold prediction. by destruct Hp as [-> | ->]. }
  assert ((truth dataset i = (if a then 1 else 0) ∧ prediction predictions i = b)
          ↔ (actual_positive dataset i = a ∧ predictions !! i = Some b)) as Hiff.
  { split; intros [H1 H2]; split; try congruence.
    - unfold truth in H1. pose proof zero_is_not_one.
      destruct (actual_positive dataset i), a; congruence.
    - unfold truth. by rewrite H1. }
  repeat case_decide; simpl in *; rewrite ?IH; tauto.
Qed.

Lemma count_cell_elem idxs (a : bool) (b : Qc) :
  (0 < count_cell dataset predictions idxs a b)%nat →
  ∃ i, i ∈ idxs ∧ truth dataset i = (if a then 1 else 0) ∧ prediction predictions i = b.
Proof.
  unfold count_cell. intros Hpos.
  destruct (filter _ idxs) as [|i l] eqn:Hf; [simpl in Hpos; lia|].
  assert (i ∈ filter (λ i, actual_positive dataset i = a
                           ∧ predictions !! i = Some b) idxs) as Hi.
  { rewrite Hf. left. }
  apply list_elem_of_filter in Hi as [[Ha Hb] Hi].
  exists i. split; [done|]. unfold truth, prediction. by rewrite Ha, Hb.
Qed.

End confusion.

Lemma insert_label_binary :
  sklearn.insert_label 0 [] = [0] ∧ sklearn.insert_label 0 [0] = [0]
  ∧ sklearn.insert_label 0 [1] = [0; 1] ∧ sklearn.insert_label 0 [0; 1] = [0; 1]
  ∧ sklearn.insert_label 1 [] = [1] ∧ sklearn.insert_label 1 [0] = [0; 1]
  ∧ sklearn.insert_label 1 [1] = [1] ∧ sklearn.insert_label 1 [0; 1] = [0; 1].
Proof. vm_compute. repeat split. Qed.

Lemma unique_labels_binary (ys : list Qc) :
  Forall (λ y, y = 0 ∨ y = 1) ys → 0 ∈ ys → 1 ∈ ys →
  sklearn.unique_labels ys = [0; 1].
Proof.
  intros Hbin H0 H1.
  assert (sklearn.unique_labels ys
          = (if decide (0 ∈ ys) then [0] else [])
            ++ (if decide (1 ∈ ys) then [1] else [])) as ->.
  { clear H0 H1. induction Hbin as [|y ys Hy _ IH]; [done|].
    unfold sklearn.unique_labels in *. cbn [foldr]. rewrite IH.
    destruct insert_label_binary as (E1 & E2 & E3 & E4 & E5 & E6 & E7 & E8).
    pose proof (zero_is_not_one) as Hne.
    destruct Hy as [-> | ->].
    - rewrite (decide_True (P := 0 ∈ 0 :: ys)) by left.
      destruct (decide (0 ∈ ys)), (decide (1 ∈ ys)).
      + by rewrite (decide_True (P := 1 ∈ 0 :: ys)) by (by right).
      + rewrite (decide_False (P := 1 ∈ 0 :: ys)); [done|].
        intros [?|?]%elem_of_cons; done.
      + by rewrite (decide_True (P := 1 ∈ 0 :: ys)) by (by right).
      + rewrite (decide_False (P := 1 ∈ 0 :: ys)); [done|].
        intros [?|?]%elem_of_cons; done.
    - rewrite (decide_True (P := 1 ∈ 1 :: ys)) by left.
      destruct (decide (0 ∈ ys)), (decide (1 ∈ ys)).
      + by rewrite (decide_True (P := 0 ∈ 1 :: ys)) by (by right).
      + by rewrite (decide_True (P := 0 ∈ 1 :: ys)) by (by right).
      + rewrite (decide_False (P := 0 ∈ 1 :: ys)); [done|].
        intros [?|?]%elem_of_cons; done.
      + rewrite (decide_False (P := 0 ∈ 1 :: ys)); [done|].
        intros [?|?]%elem_of_cons; done. }
  by rewrite !decide_True.
Qed.

Lemma not_continuous_binary (ys : list Qc) :
  Forall (λ y, y = 0 ∨ y = 1) ys → ¬ sklearn.continuous ys.
Proof.
  intros Hbin Hc. apply Exists_exists in Hc as (q & Hin & Hq).
  destruct (proj1 (Forall_forall _ _) Hbin q Hin) as [-> | ->];
    apply Hq; reflexivity.
Qed.

Lemma confusion_matrix_binary (y_true y_pred : list Qc) :
  length y_true = length y_pred →
  Forall (λ y, y = 0 ∨ y = 1) (y_true ++ y_pred) →
  sklearn.confusion_matrix y_true y_pred
  = Ok ((λ a, (λ b, sklearn.cell (zip y_true y_pred) a b)
                <$> sklearn.unique_labels (y_true ++ y_pred))
          <$> sklearn.unique_labels (y_true ++ y_pred)).
Proof.
  intros Hlen [Ht Hp]%Forall_app. unfold sklearn.confusion_matrix.
  rewrite decide_True by done. rewrite decide_False; [done|].
  intros [Hc|Hc];
    [exact (not_continuous_binary _ Ht Hc)|exact (not_continuous_binary _ Hp Hc)].
Qed.

Lemma group_confusion_counts dataset predictions idxs :
  selects_binary dataset predictions idxs →
  realizes_all_cells dataset predictions idxs →
  group_confusion dataset predictions idxs
  = Ok (count_cell dataset predictions idxs false 0,
        count_cell dataset predictions idxs false 1,
        count_cell dataset predictions idxs true 0,
        count_cell dataset predictions idxs true 1).
Proof.
  intros Hsel (Htn & Hfp & Hfn & Htp).
  destruct (selected_columns _ _ _ Hsel) as (rows & col & Hrows & Hcol & Hwhere & Hpred).
  unfold group_confusion. rewrite Hrows. simpl. rewrite Hcol. simpl.
  rewrite Hpred. simpl. rewrite Hwhere.
  assert (Forall (λ y, y = 0 ∨ y = 1)
            ((truth dataset <$> idxs) ++ (prediction predictions <$> idxs))) as Hbin.
  { apply Forall_app. split; apply Forall_fmap, Forall_forall; intros i Hi; simpl.
    + unfold truth. destruct (actual_positive dataset i); auto.
    + unfold selects_binary in Hsel. rewrite Forall_forall in Hsel.
      destruct (Hsel i Hi) as [_ [Hp|Hp]]; unfold prediction; rewrite Hp; auto. }
  rewrite confusion_matrix_binary by (done || by rewrite !length_fmap).
  rewrite unique_labels_binary; [|done| |].
  - simpl. rewrite zip_fmap_diag.
    rewrite <-!(cell_counts dataset predictions idxs) by done. done.
  - destruct (count_cell_elem _ _ _ _ _ Htn) as (i & Hi & Ht & _).
    apply elem_of_app. left. rewrite <-Ht. by apply list_elem_of_fmap_2.
  - destruct (count_cell_elem _ _ _ _ _ Htp) as (i & Hi & Ht & _).
    apply elem_of_app. left. rewrite <-Ht. by apply list_elem_of_fmap_2.
Qed.

Lemma ratio_of_counts tp fn :
  (0 < fn)%nat →
  ratio tp (tp + fn) = Num (Qc_of_Z (Z.of_nat tp) / Qc_of_Z (Z.of_nat (tp + fn))).
Proof. intros. unfold ratio. rewrite decide_False by lia. done. Qed.

(** C6.  When the two index lists select existing rows with binary
    predictions and each group realises all four cells of its confusion
    matrix (so each has an actual positive), [deo_from_list] returns the
    absolute value of the difference of the two true-positive rates
    tp / (tp + fn). *)
Theorem deo_from_list_is_tpr_gap w dataset predictions groupA_idxs groupB_idxs :
  selects_binary dataset predictions groupA_idxs →
  realizes_all_cells dataset predictions groupA_idxs →
  selects_binary dataset predictions groupB_idxs →
  realizes_all_cells dataset predictions groupB_idxs →
  (deo_from_list dataset predictions groupA_idxs groupB_idxs w).1
  = Ok (Num (Qcabs.Qcabs
               (true_positive_rate dataset predictions groupA_idxs
                - true_positive_rate dataset predictions groupB_idxs))).
Proof.
  intros HsA HcA HsB HcB. unfold deo_from_list.
  rewrite (group_confusion_counts _ _ _ HsA HcA), bind_lift_Ok.
  rewrite (group_confusion_counts _ _ _ HsB HcB), bind_lift_Ok.
  rewrite !bind_print. unfold ret. cbn [fst].
  destruct HcA as (_ & _ & HfnA & _). destruct HcB as (_ & _ & HfnB & _).
  by rewrite !ratio_of_counts by done.
Qed.

Lemma deo_from_list_is_tpr_gap_witness :
  (deo_from_list example.labelled example.predictions
     example.groupA_idxs example.groupB_idxs example.unfitted).1
  = Ok (Num (Qcabs.Qcabs
               (true_positive_rate example.labelled example.predictions
                  example.groupA_idxs
                - true_positive_rate example.labelled example.predictions
                    example.groupB_idxs))).
Proof.
  apply (deo_from_list_is_tpr_gap example.unfitted example.labelled
           example.predictions example.groupA_idxs example.groupB_idxs).
  - unfold selects_binary. apply (bool_decide_unpack _). by vm_compute.
  - unfold realizes_all_cells. vm_compute. repeat split; lia.
  - unfold selects_binary. apply (bool_decide_unpack _). by vm_compute.
  - unfold realizes_all_cells. vm_compute. repeat split; lia.
Defined.

(** On that example the gap is |1/2 - 2/3| = 1/6. *)
Example deo_from_list_example :
  (deo_from_list example.labelled example.predictions
     example.groupA_idxs example.groupB_idxs example.unfitted).1
  = Ok (Num (Q2Qc (1 # 6))).
Proof. vm_compute. do 2 f_equal. by apply Qc_is_canon. Qed.

(** ** The three-way split *)

Module split_facts.
Import split.









(** The draw 4/5 lies below the binary64 value of [0.8]: that row trains. *)
Example split_example :
  train_list example.rand_split = [true; false; false; true]
  ∧ val_list example.rand_split = [false; true; false; false]
  ∧ batch_list example.rand_split = [false; false; true; false].
Proof. vm_compute. repeat split. Qed.

End split_facts.


(** * Further properties of the notebook code *)

Lemma take_items_raises {A} (a : list A) idxs e :
  take_items a idxs = Raise e → e = IndexError.
Proof.
  unfold take_items. induction idxs as [|i idxs IH]; simpl; [done|].
  destruct (a !! i); simpl; [|congruence].
  destruct (map_raising _ idxs); simpl; [done|]. intros [= <-]. by apply IH.
Qed.

Lemma selected_labels dataset idxs :
  (rows ←! take_items dataset idxs; map_raising item_last rows)
  = map_raising (label_at dataset) idxs.
Proof.
  induction idxs as [|i idxs IH]; [done|].
  pose proof (take_items_raises dataset idxs) as Hraise.
  unfold take_items, label_at in *.
  simpl. destruct (dataset !! i) as [row|] eqn:Hrow; simpl; [|done].
  destruct (map_raising _ idxs) as [rows|e] eqn:Hrows; simpl in *.
  - unfold item_last at 1. destruct (last row); simpl; [|done]. by rewrite <-IH.
  - rewrite <-IH. rewrite (Hraise e eq_refl). by destruct (last row).
Qed.
Lemma obind_assoc {A B C} (m : outcome A) (f : A → outcome B) (k : B → outcome C) :
  obind (obind m f) k = obind m (λ x, obind (f x) k).
Proof. by destruct m. Qed.

Lemma group_confusion_reads_labels dataset predictions idxs :
  group_confusion dataset predictions idxs
  = (col ←! map_raising (label_at dataset) idxs;
     preds ←! take_items predictions idxs;
     cm ←! sklearn.confusion_matrix (where_eq_1 col) preds;
     unpack4 (concat cm)).
Proof.
  unfold group_confusion. by rewrite <-selected_labels, obind_assoc.
Qed.

Lemma map_raising_ext {A B} (f g : A → outcome B) (l : list A) :
  Forall (λ x, f x = g x) l → map_raising f l = map_raising g l.
Proof. induction 1 as [|x l Hx _ IH]; simpl; [done|]. by rewrite Hx, IH. Qed.

Lemma group_confusion_same_labels dataset1 dataset2 predictions idxs :
  same_labels dataset1 dataset2 idxs →
  group_confusion dataset1 predictions idxs
  = group_confusion dataset2 predictions idxs.
Proof.
  intros Hsame. rewrite !group_confusion_reads_labels.
  rewrite (map_raising_ext (label_at dataset1) (label_at dataset2)); [done|].
  eapply Forall_impl; [exact Hsame|]. intros i Hi. unfold label_at. by rewrite Hi.
Qed.

(** X1.  [deo_from_list] reads its data set only through the label column
    of the selected rows: two data sets with the same labels at the
    positions of both groups give the same result, the same printed lines
    and the same exception. *)
Theorem deo_from_list_reads_only_labels w dataset1 dataset2 predictions
    groupA_idxs groupB_idxs :
  same_labels dataset1 dataset2 groupA_idxs →
  same_labels dataset1 dataset2 groupB_idxs →
  deo_from_list dataset1 predictions groupA_idxs groupB_idxs w
  = deo_from_list dataset2 predictions groupA_idxs groupB_idxs w.
Proof.
  intros HA HB. unfold deo_from_list.
  by rewrite (group_confusion_same_labels _ _ _ _ HA),
    (group_confusion_same_labels _ _ _ _ HB).
Qed.

(** The shape of every run of [deo_from_list]. *)
Lemma deo_from_list_cases w dataset predictions groupA_idxs groupB_idxs :
  (∃ e, (group_confusion dataset predictions groupA_idxs = Raise e
         ∨ (∃ c, group_confusion dataset predictions groupA_idxs = Ok c)
           ∧ group_confusion dataset predictions groupB_idxs = Raise e)
        ∧ deo_from_list dataset predictions groupA_idxs groupB_idxs w = (Raise e, w))
  ∨ (∃ tnA fpA fnA tpA tnB fpB fnB tpB,
       group_confusion dataset predictions groupA_idxs = Ok (tnA, fpA, fnA, tpA)
       ∧ group_confusion dataset predictions groupB_idxs = Ok (tnB, fpB, fnB, tpB)
       ∧ deo_from_list dataset predictions groupA_idxs groupB_idxs w
         = (Ok (scalar_abs (scalar_sub (ratio tpA (tpA + fnA)) (ratio tpB (tpB + fnB)))),
            mkWorld (self w) (heap w)
              (stdout w ++
               [ LineD "Examples in group A: %d" (length groupA_idxs);
                 LineD "Examples in group B: %d" (length groupB_idxs);
                 LineF "TPR group A: %f" (ratio tpA (tpA + fnA));
                 LineF "TPR group B: %f" (ratio tpB (tpB + fnB));
                 LineF "TPR all dataset: %f"
                   (ratio (tpA + tpB) (tpA + fnA + tpB + fnB));
                 LineF "Accuracy all dataset: %f"
                   (ratio (tpA + tnA + tpB + tnB)
                      (tpA + fpA + fnA + tnA + tpB + fpB + fnB + tnB)) ]))).
Proof.
  unfold deo_from_list.
  destruct (group_confusion dataset predictions groupA_idxs)
    as [[[[tnA fpA] fnA] tpA]|e]; [|left; eauto].
  rewrite bind_lift_Ok.
  destruct (group_confusion dataset predictions groupB_idxs)
    as [[[[tnB fpB] fnB] tpB]|e]; [|left; exists e; split; [right|]; eauto].
  right. exists tnA, fpA, fnA, tpA, tnB, fpB, fnB, tpB.
  split; [done|]. split; [done|].
  rewrite bind_lift_Ok, !bind_print. unfold ret. cbn [self heap stdout].
  by rewrite <-!app_assoc.
Qed.

(** X2.  A call of [deo_from_list] either returns after printing exactly
    six lines, the first two being the sizes of the two index lists, or
    raises having printed nothing; it never touches the instance or an
    array. *)
Theorem deo_from_list_prints_all_or_nothing w dataset predictions
    groupA_idxs groupB_idxs :
  match deo_from_list dataset predictions groupA_idxs groupB_idxs w with
  | (Ok _, w') =>
      self w' = self w ∧ heap w' = heap w
      ∧ ∃ l3 l4 l5 l6,
          stdout w' = stdout w ++
            [ LineD "Examples in group A: %d" (length groupA_idxs);
              LineD "Examples in group B: %d" (length groupB_idxs);
              l3; l4; l5; l6 ]
  | (Raise _, w') => w' = w
  end.
Proof.
  destruct (deo_from_list_cases w dataset predictions groupA_idxs groupB_idxs)
    as [(e & _ & ->)|(tnA & fpA & fnA & tpA & tnB & fpB & fnB & tpB & _ & _ & ->)];
    [done|].
  cbn [self heap stdout]. repeat split. eauto.
Qed.
Lemma count_nonneg n : 0 ≤ count n.
Proof. unfold count. rewrite <-Z2Qc_inj_0, <-Z2Qc_inj_le. lia. Qed.

Lemma count_le n m : (n ≤ m)%nat → count n ≤ count m.
Proof. intros. unfold count. rewrite <-Z2Qc_inj_le. lia. Qed.

Lemma count_pos n : (0 < n)%nat → 0 < count n.
Proof. intros. unfold count. rewrite <-Z2Qc_inj_0, <-Z2Qc_inj_lt. lia. Qed.

Lemma ratio_between_0_and_1 a b q :
  ratio a (a + b) = Num q → 0 ≤ q ∧ q ≤ 1.
Proof.
  unfold ratio. destruct (decide (a + b = 0)%nat) as [|Hne]; [done|].
  intros [= <-]. fold (count a). fold (count (a + b)).
  assert (0 < count (a + b)) as Hpos by (apply count_pos; lia).
  assert (count (a + b) ≠ 0) as Hnz by (apply count_nonzero; lia).
  split.
  - apply (Qcmult_le_mono_pos_r _ _ (count (a + b))); [done|].
    rewrite Qcmult_0_l, (Qcmult_comm _ (count (a + b))), Qcmult_div_r by done.
    apply count_nonneg.
  - apply (Qcmult_le_mono_pos_r _ _ (count (a + b))); [done|].
    rewrite Qcmult_1_l, (Qcmult_comm _ (count (a + b))), Qcmult_div_r by done.
    apply count_le. lia.
Qed.

Lemma abs_difference_at_most_1 (a b : Qc) :
  0 ≤ a → a ≤ 1 → 0 ≤ b → b ≤ 1 →
  0 ≤ Qcabs.Qcabs (a - b) ∧ Qcabs.Qcabs (a - b) ≤ 1.
Proof.
  intros Ha0 Ha1 Hb0 Hb1. split; [apply Qcabs.Qcabs_nonneg|].
  apply Qcabs.Qcabs_Qcle_condition. unfold Qcminus. split.
  - replace (-(1) : Qc) with (0 + -(1)) by ring.
    apply Qcplus_le_compat; [done|]. by apply Qcopp_le_compat.
  - replace (1 : Qc) with (1 + -0) by ring.
    apply Qcplus_le_compat; [done|]. by apply Qcopp_le_compat.
Qed.

(** X3.  Whenever [deo_from_list] returns a number, it lies between 0 and 1. *)
Theorem deo_from_list_between_0_and_1 w dataset predictions groupA_idxs groupB_idxs v :
  (deo_from_list dataset predictions groupA_idxs groupB_idxs w).1 = Ok (Num v) →
  0 ≤ v ∧ v ≤ 1.
Proof.
  destruct (deo_from_list_cases w dataset predictions groupA_idxs groupB_idxs)
    as [(e & _ & ->)|(tnA & fpA & fnA & tpA & tnB & fpB & fnB & tpB & _ & _ & ->)];
    [done|].
  cbn [fst].
  destruct (ratio tpA (tpA + fnA)) as [a|] eqn:Ha; [|done].
  destruct (ratio tpB (tpB + fnB)) as [b|] eqn:Hb; [|done].
  intros [= <-].
  apply ratio_between_0_and_1 in Ha as [??], Hb as [??].
  by apply abs_difference_at_most_1.
Qed.

(** X4.  The value does not depend on which group is passed first: when
    [deo_from_list] returns for the groups in one order, it returns the
    same value for the other order. *)
Theorem deo_from_list_symmetric w dataset predictions groupA_idxs groupB_idxs v :
  (deo_from_list dataset predictions groupA_idxs groupB_idxs w).1 = Ok v →
  (deo_from_list dataset predictions groupB_idxs groupA_idxs w).1 = Ok v.
Proof.
  destruct (deo_from_list_cases w dataset predictions groupA_idxs groupB_idxs)
    as [(e & _ & ->)|(tnA & fpA & fnA & tpA & tnB & fpB & fnB & tpB & HA & HB & ->)];
    [done|].
  destruct (deo_from_list_cases w dataset predictions groupB_idxs groupA_idxs)
    as [(e & [He|[_ He]] & _)|(? & ? & ? & ? & ? & ? & ? & ? & HB' & HA' & ->)];
    [congruence..|].
  rewrite HA in HA'. rewrite HB in HB'. injection HA' as <- <- <- <-.
  injection HB' as <- <- <- <-. cbn [fst]. intros [= <-]. f_equal.
  destruct (ratio tpA (tpA + fnA)), (ratio tpB (tpB + fnB)); simpl; try done.
  f_equal. apply Qcabs.Qcabs_Qcminus.
Qed.

Lemma group_confusion_binary dataset predictions idxs :
  selects_binary dataset predictions idxs →
  both_labels dataset predictions idxs →
  group_confusion dataset predictions idxs
  = Ok (count_cell dataset predictions idxs false 0,
        count_cell dataset predictions idxs false 1,
        count_cell dataset predictions idxs true 0,
        count_cell dataset predictions idxs true 1).
Proof.
  intros Hsel [H0 H1].
  destruct (selected_columns _ _ _ Hsel) as (rows & col & Hrows & Hcol & Hwhere & Hpred).
  unfold group_confusion. rewrite Hrows. simpl. rewrite Hcol. simpl.
  rewrite Hpred. simpl. rewrite Hwhere.
  assert (Forall (λ y, y = 0 ∨ y = 1)
            ((truth dataset <$> idxs) ++ (prediction predictions <$> idxs))) as Hbin.
  { apply Forall_app. split; apply Forall_fmap, Forall_forall; intros i Hi; simpl.
    + unfold truth. destruct (actual_positive dataset i); auto.
    + unfold selects_binary in Hsel. rewrite Forall_forall in Hsel.
      destruct (Hsel i Hi) as [_ [Hp|Hp]]; unfold prediction; rewrite Hp; auto. }
  rewrite confusion_matrix_binary by (done || by rewrite !length_fmap).
  rewrite unique_labels_binary by done.
  simpl. rewrite zip_fmap_diag.
  rewrite <-!(cell_counts dataset predictions idxs) by done. done.
Qed.

(** X5.  It is enough that both labels 0 and 1 occur among the true labels
    and the (binary) predictions of each group: [deo_from_list] then
    returns the absolute difference of the two rates tp / (tp + fn), where
    the rate of a group without an actual positive is [nan]; so with such a
    group the result is [nan] and nothing is raised. *)
Theorem deo_from_list_two_labels w dataset predictions groupA_idxs groupB_idxs :
  selects_binary dataset predictions groupA_idxs →
  both_labels dataset predictions groupA_idxs →
  selects_binary dataset predictions groupB_idxs →
  both_labels dataset predictions groupB_idxs →
  (deo_from_list dataset predictions groupA_idxs groupB_idxs w).1
  = Ok (scalar_abs (scalar_sub (group_tpr dataset predictions groupA_idxs)
                               (group_tpr dataset predictions groupB_idxs)))
  ∧ ((count_cell dataset predictions groupA_idxs true 1
      + count_cell dataset predictions groupA_idxs true 0 = 0)%nat
     ∨ (count_cell dataset predictions groupB_idxs true 1
        + count_cell dataset predictions groupB_idxs true 0 = 0)%nat →
     (deo_from_list dataset predictions groupA_idxs groupB_idxs w).1 = Ok NaN).
Proof.
  intros HsA HlA HsB HlB.
  assert ((deo_from_list dataset predictions groupA_idxs groupB_idxs w).1
          = Ok (scalar_abs (scalar_sub (group_tpr dataset predictions groupA_idxs)
                                       (group_tpr dataset predictions groupB_idxs))))
    as Hres.
  { unfold deo_from_list.
    rewrite (group_confusion_binary _ _ _ HsA HlA), bind_lift_Ok.
    rewrite (group_confusion_binary _ _ _ HsB HlB), bind_lift_Ok.
    by rewrite !bind_print. }
  split; [done|]. rewrite Hres. unfold group_tpr, ratio.
  intros [H0|H0]; rewrite H0; simpl; [done|].
  by destruct (decide _).
Qed.

Lemma unique_labels_constant (c : Qc) (ys : list Qc) :
  ys ≠ [] → Forall (λ y, y = c) ys → sklearn.unique_labels ys = [c].
Proof.
  intros Hne Hall. induction Hall as [|y ys -> Hall IH]; [done|].
  unfold sklearn.unique_labels in *. cbn [foldr].
  destruct ys as [|y' ys]; [done|]. rewrite IH by done.
  simpl. by rewrite decide_True.
Qed.

(** A group in which every selected example has the true label [c] and
    the prediction [c] has a confusion matrix of one cell. *)
Lemma group_confusion_uniform dataset predictions idxs (c : Qc) :
  uniform_group dataset predictions idxs c →
  group_confusion dataset predictions idxs = Raise ValueError.
Proof.
  intros [Hne Hall].
  assert (selects_binary dataset predictions idxs) as Hsel.
  { eapply Forall_impl; [exact Hall|]. intros i (Hl & Ht & Hp). split; [done|].
    rewrite Hp, <-Ht. unfold truth. destruct (actual_positive dataset i); auto. }
  destruct (selected_columns _ _ _ Hsel) as (rows & col & Hrows & Hcol & Hwhere & Hpred).
  unfold group_confusion. rewrite Hrows. simpl. rewrite Hcol. simpl.
  rewrite Hpred. simpl. rewrite Hwhere.
  unfold sklearn.confusion_matrix. rewrite decide_True by (by rewrite !length_fmap).
  destruct (decide (_ ∨ _)); [done|].
  rewrite (unique_labels_constant c); [done| |].
  - destruct idxs; [done|]. done.
  - apply Forall_app. split; apply Forall_fmap;
      (eapply Forall_impl; [exact Hall|]); intros i (_ & Ht & Hp); simpl; [done|].
    unfold prediction. by rewrite Hp.
Qed.

(** X6.  A non-empty group in which every selected example has the same
    true label and that same label as prediction (all positive and
    predicted positive, or all negative and predicted negative) makes
    [deo_from_list] raise [ValueError]: its confusion matrix has a single
    cell, which cannot be unpacked into four counts.  This holds for group
    A whatever group B is, and for group B when the confusion matrix of
    group A has its four cells (binary predictions, both labels present).
    Nothing is printed. *)
Theorem deo_from_list_single_label_group w dataset predictions groupA_idxs
    groupB_idxs (c : Qc) :
  uniform_group dataset predictions groupA_idxs c
  ∨ (selects_binary dataset predictions groupA_idxs
     ∧ both_labels dataset predictions groupA_idxs
     ∧ uniform_group dataset predictions groupB_idxs c) →
  deo_from_list dataset predictions groupA_idxs groupB_idxs w
  = (Raise ValueError, w).
Proof.
  intros [HA|(HsA & HlA & HB)]; unfold deo_from_list.
  - by rewrite (group_confusion_uniform _ _ _ c HA).
  - rewrite (group_confusion_binary _ _ _ HsA HlA), bind_lift_Ok.
    by rewrite (group_confusion_uniform _ _ _ c HB).
Qed.

(** An empty index list for either group makes [deo_from_list] raise
    (there is no label to build a confusion matrix from) and print
    nothing. *)
Theorem deo_from_list_empty_group w dataset predictions groupA_idxs groupB_idxs :
  groupA_idxs = [] ∨ groupB_idxs = [] →
  ∃ e, deo_from_list dataset predictions groupA_idxs groupB_idxs w = (Raise e, w).
Proof.
  intros Hempty.
  destruct (deo_from_list_cases w dataset predictions groupA_idxs groupB_idxs)
    as [(e & _ & ->)|(tnA & fpA & fnA & tpA & tnB & fpB & fnB & tpB & HA & HB & _)];
    [eauto|].
  exfalso. destruct Hempty as [-> | ->]; discriminate.
Qed.

Lemma labels_out_of_range dataset idxs i :
  i ∈ idxs → (length dataset ≤ i)%nat →
  map_raising (label_at dataset) idxs = Raise IndexError.
Proof.
  intros Hi Hlen. induction idxs as [|j idxs IH]; [by apply elem_of_nil in Hi|].
  simpl. unfold label_at at 1.
  destruct (dataset !! j ≫= last) as [y|] eqn:Hj; simpl; [|done].
  apply elem_of_cons in Hi as [->|Hi].
  - rewrite lookup_ge_None_2 in Hj by done. done.
  - by rewrite IH.
Qed.

(** X7.  A position in [groupA_idxs] beyond the last row of the data set
    makes [deo_from_list] raise [IndexError], whatever the rest of the
    arguments; nothing is printed. *)
Theorem deo_from_list_index_out_of_range w dataset predictions groupA_idxs
    groupB_idxs i :
  i ∈ groupA_idxs → (length dataset ≤ i)%nat →
  deo_from_list dataset predictions groupA_idxs groupB_idxs w
  = (Raise IndexError, w).
Proof.
  intros Hi Hlen. unfold deo_from_list.
  rewrite group_confusion_reads_labels.
  by rewrite (labels_out_of_range _ _ i).
Qed.

(** ** [deo_from_model]: the groups, the marker and the batches *)

Lemma positions_partition start (cA cB : list Qc → outcome bool)
    (pA : list Qc → bool) (rows : list (list Qc)) :
  Forall (λ r, cA r = Ok (pA r) ∧ cB r = Ok (negb (pA r))) rows →
  ∃ A B,
    positions_from start cA rows = Ok A
    ∧ positions_from start cB rows = Ok B
    ∧ A ++ B ≡ₚ seq start (length rows)
    ∧ Forall (λ i, (start ≤ i)%nat
                   ∧ ∃ r, rows !! (i - start)%nat = Some r ∧ pA r = true) A
    ∧ Forall (λ i, (start ≤ i)%nat
                   ∧ ∃ r, rows !! (i - start)%nat = Some r ∧ pA r = false) B.
Proof.
  intros Hall. revert start.
  induction Hall as [|r rows [HcA HcB] _ IH]; intros start.
  { by exists [], []. }
  destruct (IH (S start)) as (A & B & HA & HB & Hperm & HfA & HfB).
  assert (∀ (b : bool) l,
            Forall (λ i, (S start ≤ i)%nat
                         ∧ ∃ r', rows !! (i - S start)%nat = Some r' ∧ pA r' = b) l →
            Forall (λ i, (start ≤ i)%nat
                         ∧ ∃ r', (r :: rows) !! (i - start)%nat = Some r' ∧ pA r' = b) l)
    as Hshift.
  { intros b l Hl. eapply Forall_impl; [exact Hl|]. intros i (Hi & r' & Hr' & Hp).
    split; [lia|]. exists r'. split; [|done].
    replace (i - start)%nat with (S (i - S start)) by lia. done. }
  simpl. rewrite HcA, HcB, HA, HB. simpl.
  destruct (pA r) eqn:Hp; simpl.
  - exists (start :: A), B. split; [done|]. split; [done|]. split.
    { cbn [length seq app]. by rewrite Hperm. }
    split; [|by apply Hshift].
    constructor; [|by apply Hshift].
    split; [done|]. exists r. by rewrite Nat.sub_diag.
  - exists A, (start :: B). split; [done|]. split; [done|]. split.
    { cbn [length seq]. by rewrite <-Permutation_middle, Hperm. }
    split; [by apply Hshift|].
    constructor; [|by apply Hshift].
    split; [done|]. exists r. by rewrite Nat.sub_diag.
Qed.

(** X8.  On a data set whose rows contain the sensitive column, the two
    comprehensions of [deo_from_model] (and of the evaluation cells) split
    the row positions: they return two lists which together hold every
    position 0 .. n-1 exactly once, the first the rows whose sensitive
    value is the marker, the second the rows where it differs. *)
Theorem group_positions_partition (s : nat) (v : Qc) (dataset : matrix) :
  well_shaped dataset → (s < ncols dataset)%nat →
  ∃ A B,
    groupA_positions s v (mrows dataset) = Ok A
    ∧ groupB_positions s v (mrows dataset) = Ok B
    ∧ A ++ B ≡ₚ seq 0 (length (mrows dataset))
    ∧ Forall (marked s v (mrows dataset)) A
    ∧ Forall (unmarked s v (mrows dataset)) B.
Proof.
  intros Hshape Hs. unfold groupA_positions, groupB_positions.
  destruct (positions_partition 0
              (λ val, x ←! item val s; Ok (bool_decide (x = v)))
              (λ val, x ←! item val s; Ok (bool_decide (x ≠ v)))
              (λ r, bool_decide (r !! s = Some v)) (mrows dataset))
    as (A & B & HA & HB & Hperm & HfA & HfB).
  { eapply Forall_impl; [exact Hshape|]. intros r Hr. simpl in Hr. unfold item.
    destruct (lookup_lt_is_Some_2 r s) as [x Hx]; [lia|]. rewrite Hx. simpl.
    destruct (decide (x = v)) as [->|Hne].
    - rewrite !bool_decide_eq_true_2 by done.
      by rewrite bool_decide_eq_false_2 by (by intros ?).
    - rewrite (bool_decide_eq_false_2 (x = v)) by done.
      rewrite (bool_decide_eq_true_2 (x ≠ v)) by done.
      by rewrite bool_decide_eq_false_2 by congruence. }
  exists A, B. repeat split; [done..| |].
  - eapply Forall_impl; [exact HfA|]. intros i (_ & r & Hr & Hp).
    rewrite Nat.sub_0_r in Hr. unfold marked. rewrite Hr. simpl.
    by apply bool_decide_eq_true in Hp.
  - eapply Forall_impl; [exact HfB|]. intros i (_ & r & Hr & Hp).
    rewrite Nat.sub_0_r in Hr. unfold unmarked. rewrite Hr. simpl.
    apply bool_decide_eq_false in Hp.
    destruct (r !! s) as [x|] eqn:Hx.
    + exists x. split; [done|]. congruence.
    + apply lookup_ge_None in Hx.
      assert (r ∈ mrows dataset) as Hin by (by eapply list_elem_of_lookup_2).
      unfold well_shaped, rectangular in Hshape. rewrite Forall_forall in Hshape.
      specialize (Hshape r Hin). lia.
Qed.
Lemma Qc_max_ub_l x y : x ≤ Qc_max x y.
Proof. unfold Qc_max. destruct (decide (x ≤ y)); [done|]. apply Qcle_refl. Qed.

Lemma Qc_max_ub_r x y : y ≤ Qc_max x y.
Proof.
  unfold Qc_max. destruct (decide (x ≤ y)) as [|Hn]; [apply Qcle_refl|].
  apply Qclt_le_weak. by apply Qcnot_le_lt.
Qed.

Lemma Qc_max_cases x y : Qc_max x y = x ∨ Qc_max x y = y.
Proof. unfold Qc_max. destruct (decide (x ≤ y)); auto. Qed.

Lemma np_max_spec (v : list Qc) :
  v ≠ [] → ∃ m, np_max v = Ok m ∧ m ∈ v ∧ Forall (λ x, x ≤ m) v.
Proof.
  destruct v as [|x v]; [done|]. intros _. exists (foldr Qc_max x v).
  split; [done|]. induction v as [|y v [IHin IHub]]; simpl.
  - split; [left|]. constructor; [apply Qcle_refl|constructor].
  - split.
    + destruct (Qc_max_cases y (foldr Qc_max x v)) as [-> | ->].
      * right. left.
      * apply elem_of_cons in IHin as [IHin|IHin]; [rewrite IHin; left|].
        right. by right.
    + inversion IHub as [|?? Hx Hv]; subst.
      constructor; [|constructor].
      * etrans; [exact Hx|]. apply Qc_max_ub_r.
      * apply Qc_max_ub_l.
      * eapply Forall_impl; [exact Hv|]. intros z Hz. simpl.
        etrans; [exact Hz|]. apply Qc_max_ub_r.
Qed.

Lemma column_well_shaped (dataset : matrix) s :
  well_shaped dataset → (s < ncols dataset)%nat →
  column dataset s = Ok ((λ r, default 0 (r !! s)) <$> mrows dataset)
  ∧ Forall (λ r, r !! s = Some (default 0 (r !! s))) (mrows dataset).
Proof.
  intros Hshape Hs.
  assert (Forall (λ r, r !! s = Some (default 0 (r !! s))) (mrows dataset)) as Hall.
  { eapply Forall_impl; [exact Hshape|]. intros r Hr. simpl in Hr.
    destruct (lookup_lt_is_Some_2 r s) as [x Hx]; [lia|]. by rewrite Hx. }
  split; [|done]. unfold column. rewrite decide_True by done.
  apply map_raising_total. eapply Forall_impl; [exact Hall|].
  intros r Hr. unfold item. by rewrite Hr.
Qed.

(** X9.  Without a marker ([groupA_value=None]) [deo_from_model] takes the
    largest sensitive value of the data set as the marker of group A: on a
    data set with rows the call behaves as the call with that maximum,
    which some row attains (group A is not empty) and no row exceeds. *)
Theorem deo_from_model_default_marker w model (dataset : matrix) s :
  well_shaped dataset → mrows dataset ≠ [] → (s < ncols dataset)%nat →
  ∃ v,
    deo_from_model model dataset s None w
    = deo_from_model model dataset s (Some v) w
    ∧ (∃ i, marked s v (mrows dataset) i)
    ∧ Forall (λ r, ∃ x, r !! s = Some x ∧ x ≤ v) (mrows dataset).
Proof.
  intros Hshape Hne Hs.
  destruct (column_well_shaped dataset s Hshape Hs) as [Hcol Hall].
  destruct (np_max_spec ((λ r, default 0 (r !! s)) <$> mrows dataset))
    as (m & Hmax & Hin & Hub).
  { by destruct (mrows dataset). }
  exists m. split; [|split].
  - unfold deo_from_model. rewrite Hcol. simpl. by rewrite Hmax.
  - apply list_elem_of_fmap in Hin as (r & -> & Hr).
    apply list_elem_of_lookup in Hr as [i Hi]. exists i.
    unfold marked. rewrite Hi. simpl.
    rewrite Forall_forall in Hall. apply Hall. by eapply list_elem_of_lookup_2.
  - rewrite Forall_forall in Hall. apply Forall_forall. intros r Hr.
    exists (default 0 (r !! s)). split; [by apply Hall|].
    rewrite Forall_forall in Hub. apply Hub.
    by apply (list_elem_of_fmap_2 (λ r, default 0 (r !! s))).
Qed.

Lemma concat_pieces {A} (sizes : list nat) (l : list A) :
  concat (pieces sizes l) = take (sum_list sizes) l.
Proof.
  revert l. induction sizes as [|k sizes IH]; intros l; simpl.
  - by rewrite take_0.
  - rewrite IH. apply take_take_drop.
Qed.

Lemma length_pieces {A} (sizes : list nat) (l : list A) :
  length (pieces sizes l) = length sizes.
Proof. revert l. induction sizes as [|k sizes IH]; intros l; simpl; [done|]. by rewrite IH. Qed.

Lemma sum_list_replicate n k : sum_list (replicate n k) = (n * k)%nat.
Proof. induction n as [|n IH]; simpl; [done|]. by rewrite IH. Qed.

Lemma np_array_split_concat {A} (l : list A) (sections : nat) :
  sections ≠ 0%nat →
  ∃ batches, np_array_split l sections = Ok batches
             ∧ concat batches = l ∧ length batches = sections.
Proof.
  intros Hne. unfold np_array_split. rewrite decide_False by done.
  eexists. split; [done|]. split.
  - rewrite concat_pieces, sum_list_with_app, !sum_list_replicate.
    apply take_ge.
    pose proof (Nat.div_mod_eq (length l) sections).
    pose proof (Nat.mod_upper_bound (length l) sections Hne). nia.
  - rewrite length_pieces, length_app, !length_replicate.
    pose proof (Nat.mod_upper_bound (length l) sections Hne). lia.
Qed.

(** X10.  Cutting the feature rows into 100 batches is invisible: for a
    model that labels every row on its own, [deo_from_model] is
    [deo_from_list] on the labels of all feature rows in their order, with
    the two groups of positions. *)
Theorem deo_from_model_rowwise w (f : list Qc → Qc) model (dataset : matrix) s v :
  (∀ batch, model batch = Ok (f <$> batch)) →
  deo_from_model model dataset s (Some v) w
  = (groupA_idxs ← lift (groupA_positions s v (mrows dataset));
     groupB_idxs ← lift (groupB_positions s v (mrows dataset));
     deo_from_list (mrows dataset) (f <$> (features_of <$> mrows dataset))
       groupA_idxs groupB_idxs) w.
Proof.
  intros Hmodel. unfold deo_from_model. rewrite bind_lift_Ok.
  destruct (groupA_positions s v (mrows dataset)) as [A|e]; [|done].
  rewrite !bind_lift_Ok.
  destruct (groupB_positions s v (mrows dataset)) as [B|e]; [|done].
  rewrite !bind_lift_Ok.
  destruct (np_array_split_concat (features_of <$> mrows dataset) 100)
    as (batches & -> & Hconcat & _); [done|].
  rewrite bind_lift_Ok.
  rewrite (map_raising_total model (fmap f)), bind_lift_Ok; cycle 1.
  { apply Forall_forall. intros batch _. apply Hmodel. }
  do 3 f_equal. rewrite <-Hconcat. clear.
  induction batches as [|b batches IH]; csimpl; [done|].
  by rewrite fmap_app, IH.
Qed.
Lemma pieces_of_nothing {A} (k n : nat) :
  pieces (replicate k n) ([] : list A) = replicate k [].
Proof.
  induction k as [|k IH]; simpl; [done|].
  by rewrite take_nil, drop_nil, IH.
Qed.

Lemma pieces_of_one {A} (l : list A) (sizes : list nat) :
  pieces (replicate (length l) 1%nat ++ sizes) l
  = ((λ x, [x]) <$> l) ++ pieces sizes [].
Proof.
  induction l as [|x l IH]; csimpl; [by destruct sizes|].
  rewrite take_0, drop_0. by rewrite IH.
Qed.

Lemma np_array_split_few_rows {A} (l : list A) (sections : nat) :
  (length l < sections)%nat →
  np_array_split l sections
  = Ok (((λ x, [x]) <$> l) ++ replicate (sections - length l) []).
Proof.
  intros Hlt. unfold np_array_split. rewrite decide_False by lia.
  rewrite Nat.div_small, Nat.mod_small by done.
  by rewrite pieces_of_one, pieces_of_nothing.
Qed.

Lemma group_positions_total (s : nat) (v : Qc) (dataset : matrix) :
  well_shaped dataset → (s < ncols dataset)%nat →
  ∃ A B, groupA_positions s v (mrows dataset) = Ok A
         ∧ groupB_positions s v (mrows dataset) = Ok B.
Proof.
  intros Hshape Hs. unfold groupA_positions, groupB_positions.
  destruct (positions_partition 0
              (λ val, x ←! item val s; Ok (bool_decide (x = v)))
              (λ val, x ←! item val s; Ok (bool_decide (x ≠ v)))
              (λ r, bool_decide (r !! s = Some v)) (mrows dataset))
    as (A & B & HA & HB & _); [|by eauto].
  eapply Forall_impl; [exact Hshape|]. intros r Hr. simpl in Hr. unfold item.
  destruct (lookup_lt_is_Some_2 r s) as [x Hx]; [lia|]. rewrite Hx. simpl.
  destruct (decide (x = v)) as [->|Hne].
  - rewrite !bool_decide_eq_true_2 by done.
    by rewrite bool_decide_eq_false_2 by (by intros ?).
  - rewrite (bool_decide_eq_false_2 (x = v)) by done.
    rewrite (bool_decide_eq_true_2 (x ≠ v)) by done.
    by rewrite bool_decide_eq_false_2 by congruence.
Qed.

(** X11.  [deo_from_model] always asks the model for 100 batches.  On a
    data set of fewer than 100 rows the batches are the rows one by one
    followed by empty batches; so with a model that labels a one-row batch
    and raises on an empty one, the call raises that exception, printing
    nothing. *)
Theorem deo_from_model_fewer_than_100_rows w model (dataset : matrix) s v e :
  well_shaped dataset → (s < ncols dataset)%nat →
  (length (mrows dataset) < 100)%nat →
  (∀ r, ∃ y, model [r] = Ok y) → model [] = Raise e →
  np_array_split (features_of <$> mrows dataset) 100
  = Ok (((λ r, [features_of r]) <$> mrows dataset)
        ++ replicate (100 - length (mrows dataset)) [])
  ∧ deo_from_model model dataset s (Some v) w = (Raise e, w).
Proof.
  intros Hshape Hs Hlt Hone Hempty.
  assert (np_array_split (features_of <$> mrows dataset) 100
          = Ok (((λ r, [features_of r]) <$> mrows dataset)
                ++ replicate (100 - length (mrows dataset)) [])) as Hsplit.
  { rewrite np_array_split_few_rows by (by rewrite length_fmap).
    by rewrite length_fmap, <-list_fmap_compose. }
  split; [done|].
  destruct (group_positions_total s v dataset Hshape Hs) as (A & B & HA & HB).
  unfold deo_from_model. rewrite bind_lift_Ok, HA, bind_lift_Ok, HB, bind_lift_Ok.
  rewrite Hsplit, bind_lift_Ok.
  assert (map_raising model
            (((λ r, [features_of r]) <$> mrows dataset)
             ++ replicate (100 - length (mrows dataset)) []) = Raise e) as ->; [|done].
  replace (100 - length (mrows dataset))%nat
    with (S (99 - length (mrows dataset))) by lia.
  change (replicate (S (99 - length (mrows dataset))) ([] : list (list Qc)))
    with (([] : list (list Qc)) :: replicate (99 - length (mrows dataset)) []).
  generalize (replicate (99 - length (mrows dataset)) ([] : list (list Qc))).
  generalize (mrows dataset).
  clear -Hone Hempty. intros rows tail. induction rows as [|r rows IH]; csimpl.
  - by rewrite Hempty.
  - destruct (Hone (features_of r)) as [y ->]. simpl. by rewrite IH.
Qed.

(** X12.  A sensitive index that is not a column of the data set makes
    [deo_from_model] raise [IndexError], printing nothing: when no marker
    is given the column cannot be selected, and otherwise the first row
    cannot be indexed. *)
Theorem deo_from_model_index_out_of_range w model (dataset : matrix) s marker :
  well_shaped dataset → (ncols dataset ≤ s)%nat →
  marker = None ∨ mrows dataset ≠ [] →
  deo_from_model model dataset s marker w = (Raise IndexError, w).
Proof.
  intros Hshape Hs Hcase. unfold deo_from_model.
  destruct marker as [v|].
  - destruct Hcase as [|Hne]; [done|]. rewrite bind_lift_Ok.
    destruct (mrows dataset) as [|r rows] eqn:Hrows; [done|].
    inversion Hshape as [|?? Hr _]; [congruence|].
    unfold groupA_positions. simpl. unfold item at 1.
    rewrite Hrows in H. injection H as -> ->.
    by rewrite lookup_ge_None_2 by lia.
  - unfold column. by rewrite decide_False by lia.
Qed.

(** On a data set without rows [deo_from_model] always raises, with
    or without a marker, whatever the model does. *)
Theorem deo_from_model_no_rows w model (dataset : matrix) s marker :
  mrows dataset = [] →
  ∃ e, deo_from_model model dataset s marker w = (Raise e, w).
Proof.
  intros Hrows. unfold deo_from_model, column. rewrite Hrows.
  destruct marker as [v|].
  - rewrite bind_lift_Ok. unfold groupA_positions, groupB_positions.
    cbn [positions_from]. rewrite !bind_lift_Ok.
    destruct (np_array_split (features_of <$> []) 100) as [batches|e];
      [rewrite bind_lift_Ok|by exists e].
    destruct (map_raising model batches) as [results|e];
      [rewrite bind_lift_Ok|by exists e].
    by exists ValueError.
  - destruct (decide (s < ncols dataset)%nat).
    + by exists ValueError.
    + by exists IndexError.
Qed.

(** ** [fit]: failure, frame and repetition *)

(** X13.  A failed [fit] has no effect, unless the sensitive index is
    [-d] on [d] columns (where the last statement fails after [u] has
    been assigned): when the call raises on a rank-2 data set, the
    instance (a [u] assigned before included), the arrays and the output
    are as they were. *)
Theorem fit_fails_without_effect w w' ld D d e :
  heap w !! ld = Some (Arr2 D) → rectangular d D →
  sensitive_feature (self w) ≠ (- Z.of_nat d)%Z →
  fit ld w = (Raise e, w') → w' = w.
Proof.
  intros Hld HD Hne Hfit.
  destruct (decide (pos_A (self w) D = [])) as [HA|HA].
  { destruct (fit_raises w ld D Hld (or_introl HA)) as [e' He]. congruence. }
  destruct (decide (pos_B (self w) D = [])) as [HB|HB].
  { destruct (fit_raises w ld D Hld (or_intror HB)) as [e' He]. congruence. }
  rewrite (fit_returns w ld D d) in Hfit by done. discriminate.
Qed.

Lemma keeps_arrays_refl w : keeps_arrays w w.
Proof. by repeat split. Qed.

Lemma keeps_arrays_trans w1 w2 w3 :
  keeps_arrays w1 w2 → keeps_arrays w2 w3 → keeps_arrays w1 w3.
Proof.
  intros (? & ? & ?) (? & ? & ?). repeat split; [congruence..|by etrans].
Qed.

Lemma extends_keeps_arrays w w' : extends w w' → keeps_arrays w w'.
Proof. intros [Hs ?]. unfold keeps_arrays. by rewrite Hs. Qed.

Lemma keeps_arrays_bind_read_only {A B} (m : M A) (k : A → M B) :
  read_only m → (∀ a w, keeps_arrays w (k a w).2) →
  ∀ w, keeps_arrays w (bind m k w).2.
Proof.
  intros Hm Hk w. unfold bind. specialize (Hm w).
  destruct (m w) as [[a|e] w1]; simpl in *.
  - eapply keeps_arrays_trans; [by apply extends_keeps_arrays | apply Hk].
  - by apply extends_keeps_arrays.
Qed.

Lemma assign_u_keeps_arrays a i x w :
  keeps_arrays w ((lu ← alloc a; set_u lu;; store_item lu i x) w).2.
Proof.
  rewrite bind_alloc. unfold bind, set_u, store_item.
  cbn [heap self stdout]. rewrite lookup_insert_eq.
  pose proof (fresh_loc_unused w) as Hfresh.
  destruct a as [?|v|?|?]; cbn [snd];
    try (repeat split; cbn [self heap val0 sensitive_feature];
         [by apply insert_subseteq]).
  destruct (normalize_index (length v) i); cbn [snd];
    repeat split; cbn [self heap val0 sensitive_feature].
  - rewrite insert_insert_eq. by apply insert_subseteq.
  - by apply insert_subseteq.
Qed.

(** X14.  Whatever the world and the argument, and whether it returns or
    raises, [fit] never changes [val0] or [sensitive_feature] and never
    changes an existing array: the data set is only read, and the entry
    -1 is written into the array that [fit] itself has just created. *)
Theorem fit_keeps_arrays w dataset :
  val0 (self (fit dataset w).2) = val0 (self w)
  ∧ sensitive_feature (self (fit dataset w).2) = sensitive_feature (self w)
  ∧ heap w ⊆ heap (fit dataset w).2.
Proof.
  change (keeps_arrays w (fit dataset w).2). revert w. unfold fit.
  do 11 (apply keeps_arrays_bind_read_only; [solve [auto with frame]|];
         intros ?; cbv zeta).
  intros w. apply assign_u_keeps_arrays.
Qed.
(** X15.  Fitting again on the same data set gives the same vector (the
    sensitive index being other than [-d] on [d] columns, so that [fit]
    returns): the second [fit] returns, [u] refers to a new array with the
    contents of the first, and the array of the first fit is still there
    unchanged. *)
Theorem fit_twice w ld D d :
  heap w !! ld = Some (Arr2 D) → rectangular d D →
  pos_A (self w) D ≠ [] → pos_B (self w) D ≠ [] →
  sensitive_feature (self w) ≠ (- Z.of_nat d)%Z →
  ∃ w1 w2 lu1 lu2 uv,
    fit ld w = (Ok (), w1) ∧ fit ld w1 = (Ok (), w2)
    ∧ u (self w1) = Some lu1 ∧ u (self w2) = Some lu2 ∧ lu1 ≠ lu2
    ∧ heap w1 !! lu1 = Some (Arr1 uv)
    ∧ heap w2 !! lu2 = Some (Arr1 uv)
    ∧ heap w2 !! lu1 = Some (Arr1 uv).
Proof.
  intros Hld HD HA HB Hne'.
  set (w1 := fitted_world w D).
  assert (heap w1 !! ld = Some (Arr2 D)) as Hld1.
  { unfold w1, fitted_world. cbn [heap]. rewrite lookup_insert_ne; [done|].
    intros Heq. pose proof (fresh_loc_unused w) as Hfresh.
    rewrite Heq in Hfresh. congruence. }
  assert (heap w1 !! fresh (dom (heap w))
          = Some (Arr1 (assigned (fit_difference (self w) D)
                          (sensitive_feature (self w)) (-1)))) as Hlu1.
  { unfold w1, fitted_world. cbn [heap]. apply lookup_insert_eq. }
  assert (fresh (dom (heap w)) ≠ fresh (dom (heap w1))) as Hne.
  { intros Heq. pose proof (fresh_loc_unused w1) as Hfresh.
    rewrite <-Heq in Hfresh. congruence. }
  exists w1, (fitted_world w1 D), (fresh (dom (heap w))), (fresh (dom (heap w1))),
    (assigned (fit_difference (self w) D) (sensitive_feature (self w)) (-1)).
  split; [by eapply fit_returns|].
  split; [by apply (fit_returns w1 ld D d)|].
  split; [done|]. split; [done|]. split; [done|]. split; [done|].
  split.
  - unfold fitted_world at 1. cbn [heap]. by rewrite lookup_insert_eq.
  - unfold fitted_world at 1. cbn [heap]. by rewrite lookup_insert_ne.
Qed.

(** X16.  [fit] cannot succeed when the sensitive index is the label column
    or lies beyond it: one of the two groups of positive examples is then
    necessarily empty (or the rows cannot be indexed), and the call
    raises, leaving everything as it was. *)
Theorem fit_needs_a_feature_column w ld D d :
  heap w !! ld = Some (Arr2 D) → rectangular d D →
  (Z.of_nat (d - 1) ≤ sensitive_feature (self w))%Z →
  ∃ e, fit ld w = (Raise e, w).
Proof.
  intros Hld HD Hs. apply (fit_raises w ld D Hld).
  destruct (decide (pos_A (self w) D = [])) as [|HA]; [by left|].
  destruct (decide (pos_B (self w) D = [])) as [|HB]; [by right|].
  destruct (sensitive_feature_is_feature _ _ _ HD HA HB) as (j & Hj & Hlt).
  apply normalize_index_nonneg in Hj; lia.
Qed.

(** ** [new_representation]: rows that do not fit *)

Lemma map_raising_raises {A B} (f : A → outcome B) (l : list A) e :
  Forall (λ x, (∃ y, f x = Ok y) ∨ f x = Raise e) l →
  Exists (λ x, f x = Raise e) l →
  map_raising f l = Raise e.
Proof.
  induction 1 as [|x l Hx _ IH]; intros Hex; [by inversion Hex|].
  simpl. destruct Hx as [[y Hy]|Hx]; [|by rewrite Hx].
  rewrite Hy. simpl. inversion Hex as [?? Hr|?? Hr]; subst; [congruence|].
  by rewrite IH.
Qed.

Lemma shift_row_marked o uv ex :
  at_index ex (sensitive_feature o) = Some (val0 o) → shift_row o uv ex = Ok ex.
Proof.
  intros Hex. unfold shift_row. rewrite item_at_at_index, Hex. simpl.
  by rewrite bool_decide_eq_true_2.
Qed.

Lemma shift_row_mismatch o uv ex v :
  at_index ex (sensitive_feature o) = Some v → v ≠ val0 o →
  length ex ≠ length uv → length ex ≠ 1%nat → length uv ≠ 1%nat →
  shift_row o uv ex = Raise ValueError.
Proof.
  intros Hex Hv Hlen H1 H2. unfold shift_row. rewrite item_at_at_index, Hex. simpl.
  rewrite bool_decide_eq_false_2 by done.
  unfold np.add, np.broadcast. rewrite decide_False by done.
  destruct ex as [|? [|? ?]], uv as [|? [|? ?]]; simpl in *; done.
Qed.

(** X17.  Rows of another width than [u] (neither width being 1, which
    numpy would broadcast) are refused as soon as one of them belongs to
    group B: [new_representation] raises [ValueError] and creates no
    array.  This is what happens when the label column is left in. *)
Theorem new_representation_width_mismatch w examples lu uv X k :
  u (self w) = Some lu → heap w !! lu = Some (Arr1 uv) →
  heap w !! examples = Some (Arr2 X) → rectangular k X →
  is_Some (normalize_index k (sensitive_feature (self w))) →
  k ≠ length uv → k ≠ 1%nat → length uv ≠ 1%nat →
  Exists (λ ex, at_index ex (sensitive_feature (self w)) ≠ Some (val0 (self w))) X →
  new_representation examples w = (Raise ValueError, w).
Proof.
  intros Hu Hlu Hl HX Hs Hk Hk1 Hu1 HB.
  unfold new_representation. rewrite bind_get_self, Hu.
  rewrite (bind_load _ _ _ _ Hl). simpl items_of. rewrite bind_lift_Ok.
  rewrite (bind_load_vector _ _ _ _ Hlu).
  rewrite (map_raising_raises _ _ ValueError); [done| |].
  - eapply Forall_impl; [exact HX|]. intros ex Hex. simpl in Hex.
    destruct (at_index_is_Some ex (sensitive_feature (self w))) as [v Hv];
      [by rewrite Hex|].
    destruct (decide (v = val0 (self w))) as [->|Hne].
    + left. exists ex. by apply shift_row_marked.
    + right. apply (shift_row_mismatch _ _ _ v); congruence.
  - apply Exists_exists in HB as (ex & Hin & Hex). apply Exists_exists.
    exists ex. split; [done|].
    unfold rectangular in HX. rewrite Forall_forall in HX.
    destruct (at_index_is_Some ex (sensitive_feature (self w))) as [v Hv].
    { by rewrite (HX ex Hin). }
    apply (shift_row_mismatch _ _ _ v); [done|congruence|..]; rewrite ?(HX ex Hin); done.
Qed.

(** X18.  A non-empty batch of group-A rows is never shifted, whatever the
    width of [u]: [new_representation] returns the rows without their
    sensitive column. *)
Theorem new_representation_group_A_only w examples lu uv X k :
  u (self w) = Some lu → heap w !! lu = Some (Arr1 uv) →
  heap w !! examples = Some (Arr2 X) → X ≠ [] → rectangular k X →
  Forall (λ ex, at_index ex (sensitive_feature (self w)) = Some (val0 (self w))) X →
  ∃ lr w',
    new_representation examples w = (Ok lr, w')
    ∧ heap w' !! lr
      = Some (Arr2 ((λ ex, without_index ex (sensitive_feature (self w))) <$> X)).
Proof.
  intros Hu Hlu Hl Hne HX HA.
  unfold new_representation. rewrite bind_get_self, Hu.
  rewrite (bind_load _ _ _ _ Hl). simpl items_of. rewrite bind_lift_Ok.
  rewrite (bind_load_vector _ _ _ _ Hlu).
  rewrite (map_raising_total _ id), list_fmap_id, bind_lift_Ok; cycle 1.
  { eapply Forall_impl; [exact HA|]. intros ex Hex. by apply shift_row_marked. }
  assert (np.array X = Arr2 X) as ->.
  { destruct X as [|r X]; [done|]. unfold np.array.
    rewrite decide_True; [done|].
    inversion HX as [|?? Hr ?]; subst. exact HX. }
  cbv zeta. rewrite bind_alloc.
  rewrite delete_column_returns; cycle 1.
  { eapply Forall_impl; [exact HA|]. intros ex Hex.
    apply at_index_Some in Hex as (j & Hj & _). by eexists. }
  rewrite bind_lift_Ok. unfold alloc. cbn [heap self stdout].
  eexists _, _. split; [done|]. cbn [heap]. apply lookup_insert_eq.
Qed.

(** X19.  On a non-empty batch whose rows are too short to contain the
    sensitive column, a fitted [new_representation] raises [IndexError]
    and creates no array. *)
Theorem new_representation_index_out_of_range w examples lu uv X k :
  u (self w) = Some lu → heap w !! lu = Some (Arr1 uv) →
  heap w !! examples = Some (Arr2 X) → X ≠ [] → rectangular k X →
  normalize_index k (sensitive_feature (self w)) = None →
  new_representation examples w = (Raise IndexError, w).
Proof.
  intros Hu Hlu Hl Hne HX Hs.
  unfold new_representation. rewrite bind_get_self, Hu.
  rewrite (bind_load _ _ _ _ Hl). simpl items_of. rewrite bind_lift_Ok.
  rewrite (bind_load_vector _ _ _ _ Hlu).
  destruct X as [|ex X]; [done|]. inversion HX as [|?? Hex _]; subst.
  simpl. unfold shift_row at 1, item_at.
  by rewrite Hs.
Qed.

(** ** The cell that applies the correction *)

Lemma extends_lookup w w' l a :
  extends w w' → heap w !! l = Some a → heap w' !! l = Some a.
Proof. intros [_ Hsub] Hl. by eapply lookup_weaken. Qed.

Lemma bind_Ok {A B} (m : M A) (k : A → M B) w a w1 :
  m w = (Ok a, w1) → bind m k w = k a w1.
Proof. intros H. unfold bind. by rewrite H. Qed.

Lemma slice_columns_returns f l X w :
  heap w !! l = Some (Arr2 X) →
  ∃ l1 w1, slice_columns f l w = (Ok l1, w1)
           ∧ heap w1 !! l1 = Some (Arr2 (f <$> X)) ∧ extends w w1.
Proof.
  intros Hl. unfold slice_columns. rewrite (bind_load _ _ _ _ Hl).
  eexists _, _. split; [done|]. split.
  - cbn [heap]. apply lookup_insert_eq.
  - apply (read_only_alloc _ w).
Qed.

Lemma transformed_world_extends w uv X : extends w (transformed_world w uv X).
Proof.
  split; [done|]. unfold transformed_world. cbn [heap].
  etrans; [apply insert_subseteq, fresh_loc_unused|].
  apply insert_subseteq, not_elem_of_dom, is_fresh.
Qed.

Lemma zip_with_app_fmap (g h : list Qc → list Qc) (X : list (list Qc)) :
  zip_with app (g <$> X) (h <$> X) = (λ ex, g ex ++ h ex) <$> X.
Proof. induction X as [|ex X IH]; csimpl; [done|]. by rewrite IH. Qed.

Lemma with_new_representation_returns w m lu uv X d :
  u (self w) = Some lu → heap w !! lu = Some (Arr1 uv) →
  heap w !! m = Some (Arr2 X) →
  X ≠ [] → rectangular d X → length uv = (d - 1)%nat →
  is_Some (normalize_index (d - 1) (sensitive_feature (self w))) →
  ∃ lr w',
    with_new_representation m w = (Ok lr, w')
    ∧ heap w' !! lr = Some (Arr2 (corrected_example (self w) uv <$> X))
    ∧ extends w w'.
Proof.
  intros Hu Hlu Hm Hne HX Huv Hs. unfold with_new_representation.
  destruct (slice_columns_returns features_of m X w Hm) as (l1 & w1 & H1 & Hl1 & He1).
  rewrite (bind_Ok _ _ _ _ _ H1).
  assert (self w1 = self w) as Hself1 by apply He1.
  rewrite (bind_Ok _ _ w1 (transformed_loc w1 uv (features_of <$> X))
             (transformed_world w1 uv (features_of <$> X))); cycle 1.
  apply (new_representation_returns w1 l1 lu).
  { by rewrite Hself1. }
  { by eapply extends_lookup. }
  { done. }
  { by apply fmap_nonempty. }
  { rewrite Huv. eapply rectangular_fmap; [|exact HX].
    intros r <-. apply length_features_of. }
  { by rewrite Hself1, Huv. }
  set (w2 := transformed_world w1 uv (features_of <$> X)).
  set (lt := transformed_loc w1 uv (features_of <$> X)).
  assert (extends w1 w2) as He2 by apply transformed_world_extends.
  assert (heap w2 !! lt
          = Some (Arr2 (transformed_row (self w1) uv <$> (features_of <$> X)))) as Hlt.
  { unfold w2, lt, transformed_world, transformed_loc. cbn [heap].
    apply lookup_insert_eq. }
  assert (heap w2 !! m = Some (Arr2 X)) as Hm2.
  { eapply extends_lookup; [exact He2|]. by eapply extends_lookup. }
  destruct (slice_columns_returns last_column m X w2 Hm2)
    as (l3 & w3 & H3 & Hl3 & He3).
  rewrite (bind_Ok _ _ _ _ _ H3).
  assert (heap w3 !! lt
          = Some (Arr2 (transformed_row (self w1) uv <$> (features_of <$> X)))) as Hlt3.
  { by eapply extends_lookup. }
  rewrite (bind_Ok _ _ w3 (transformed_row (self w1) uv <$> (features_of <$> X)) w3)
    by (unfold load_matrix; by rewrite Hlt3).
  rewrite (bind_Ok _ _ w3 (last_column <$> X) w3)
    by (unfold load_matrix; by rewrite Hl3).
  unfold hstack_rows. rewrite decide_True by (by rewrite !length_fmap).
  rewrite bind_lift_Ok. unfold alloc. eexists _, _. split; [done|].
  cbn [heap]. split.
  - rewrite lookup_insert_eq, <-list_fmap_compose, zip_with_app_fmap.
    by rewrite Hself1.
  - eapply extends_trans; [exact He1|]. eapply extends_trans; [exact He2|].
    eapply extends_trans; [exact He3|]. apply (read_only_alloc _ w3).
Qed.

Lemma last_corrected_example o uv ex :
  ex ≠ [] → last (corrected_example o uv ex) = last ex.
Proof.
  intros Hex. unfold corrected_example, last_column.
  destruct (last ex) as [y|] eqn:Hl; [|by apply last_None in Hl].
  by rewrite last_snoc.
Qed.

Lemma length_corrected_example o uv ex d :
  length ex = d → length uv = (d - 1)%nat →
  is_Some (normalize_index (d - 1) (sensitive_feature o)) →
  length (corrected_example o uv ex) = (d - 1)%nat.
Proof.
  intros Hex Huv Hs. unfold corrected_example, last_column.
  assert (ex ≠ []) as Hne.
  { intros ->. destruct Hs as [j Hj%normalize_index_lt]. simpl in *. lia. }
  assert (0 < d - 1)%nat as Hd.
  { destruct Hs as [j Hj%normalize_index_lt]. lia. }
  destruct (last ex) as [y|] eqn:Hl; [|by apply last_None in Hl].
  rewrite length_app.
  change (transformed_row o uv (features_of ex))
    with (without_index (shifted_row o uv (features_of ex)) (sensitive_feature o)).
  assert (length (shifted_row o uv (features_of ex)) = (d - 1)%nat) as Hlen.
  { rewrite length_shifted_row; [done|]. rewrite length_features_of. lia. }
  rewrite length_without_index, Hlen; [simpl; lia|]. by rewrite Hlen.
Qed.

(** X20.  The cell that imposes fairness, on a training matrix with a
    positive example in each group and a non-empty test matrix of the same
    width [d]: it returns two new arrays, leaving both inputs as they
    were.  Each new matrix has the rows of its input in order, [d - 1]
    columns per row (the corrected features, then the label), and the
    label of every row is the label of the input row; the test matrix is
    corrected with the vector fitted on the training matrix. *)
Theorem impose_fairness_returns w s ltrain ltest D T d :
  heap w !! ltrain = Some (Arr2 D) → heap w !! ltest = Some (Arr2 T) →
  rectangular d D → rectangular d T → T ≠ [] →
  pos_A (init (Z.of_nat s) 0) D ≠ [] → pos_B (init (Z.of_nat s) 0) D ≠ [] →
  ∃ lD lT w',
    let uv := <[s := -1]> (fit_difference (init (Z.of_nat s) 0) D) in
    let D' := corrected_example (init (Z.of_nat s) 0) uv <$> D in
    let T' := corrected_example (init (Z.of_nat s) 0) uv <$> T in
    impose_fairness s ltrain ltest w = (Ok (lD, lT), w')
    ∧ heap w' !! lD = Some (Arr2 D') ∧ heap w' !! lT = Some (Arr2 T')
    ∧ heap w' !! ltrain = Some (Arr2 D) ∧ heap w' !! ltest = Some (Arr2 T)
    ∧ rectangular (d - 1) D' ∧ rectangular (d - 1) T'
    ∧ Forall2 (λ ex ex', last ex' = last ex) D D'
    ∧ Forall2 (λ ex ex', last ex' = last ex) T T'.
Proof.
  intros HlD HlT HD HT HTne HA HB.
  destruct (sensitive_feature_is_feature _ _ _ HD HA HB) as (j & Hj & Hs).
  pose proof (length_fit_difference _ _ _ HD HA HB) as Hlen.
  cbn [sensitive_feature init] in Hj.
  apply normalize_index_nonneg in Hj as ->; [|lia]. rewrite Nat2Z.id in Hs.
  assert (normalize_index (d - 1) (Z.of_nat s) = Some s) as Hfeat
    by (by apply normalize_index_of_nat).
  set (o := init (Z.of_nat s) 0) in *.
  set (uv := <[s := -1]> (fit_difference o D)).
  assert (length uv = (d - 1)%nat) as Huv by (unfold uv; by rewrite length_insert).
  assert (assigned (fit_difference o D) (Z.of_nat s) (-1) = uv) as Hassigned.
  { apply assigned_insert. by rewrite Hlen. }
  set (w0 := mkWorld o (heap w) (stdout w)).
  set (w1 := fitted_world w0 D).
  assert (heap w0 ⊆ heap w1) as Hsub1.
  { unfold w1, fitted_world. cbn [heap]. apply insert_subseteq, fresh_loc_unused. }
  assert (heap w1 !! fresh (dom (heap w0)) = Some (Arr1 uv)) as Hlu.
  { unfold w1, fitted_world. cbn [heap self]. rewrite lookup_insert_eq.
    by rewrite <-Hassigned. }
  assert (D ≠ []) as HDne by (intros ->; by apply HA).
  destruct (with_new_representation_returns w1 ltrain (fresh (dom (heap w0))) uv D d)
    as (lD & w2 & H2 & HlD2 & He2); [done|exact Hlu| |done..|].
  { eapply lookup_weaken; [|exact Hsub1]. exact HlD. }
  destruct (with_new_representation_returns w2 ltest (fresh (dom (heap w0))) uv T d)
    as (lT & w3 & H3 & HlT3 & He3); [| | |done..| |].
  { destruct He2 as [-> _]. done. }
  { by eapply extends_lookup. }
  { eapply extends_lookup; [exact He2|].
    eapply lookup_weaken; [|exact Hsub1]. exact HlT. }
  { destruct He2 as [-> _]. done. }
  assert (self w2 = self w1) as Hself2 by apply He2.
  exists lD, lT, w3. cbv zeta. fold o. fold uv.
  split.
  { unfold impose_fairness.
    rewrite (bind_Ok _ _ w () w0) by done.
    rewrite (bind_Ok _ _ w0 () w1)
      by (apply (fit_returns w0 ltrain D d); [done..|cbn; lia]).
    rewrite (bind_Ok _ _ _ _ _ H2), (bind_Ok _ _ _ _ _ H3). done. }
  split; [by eapply extends_lookup|].
  split; [by rewrite HlT3, Hself2|].
  split.
  { eapply extends_lookup; [exact He3|]. eapply extends_lookup; [exact He2|].
    eapply lookup_weaken; [|exact Hsub1]. exact HlD. }
  split.
  { eapply extends_lookup; [exact He3|]. eapply extends_lookup; [exact He2|].
    eapply lookup_weaken; [|exact Hsub1]. exact HlT. }
  split.
  { eapply rectangular_fmap; [|exact HD]. intros r Hr.
    by apply length_corrected_example. }
  split.
  { eapply rectangular_fmap; [|exact HT]. intros r Hr.
    by apply length_corrected_example. }
  split.
  - apply Forall2_fmap_r, Forall_Forall2_diag.
    eapply Forall_impl; [exact HD|]. intros ex Hex.
    apply last_corrected_example. intros ->. simpl in *. lia.
  - apply Forall2_fmap_r, Forall_Forall2_diag.
    eapply Forall_impl; [exact HT|]. intros ex Hex.
    apply last_corrected_example. intros ->. simpl in *. lia.
Qed.

(** X21.  Evaluating predictions against a corrected matrix is evaluating
    them against the original one: [deo_from_list] gives the same result on
    the matrix of corrected examples as on the matrix it was built from,
    for any index lists (which the notebook computes from the original
    matrix, the corrected one having lost the sensitive column). *)
Theorem deo_from_list_on_corrected_matrix w o uv T predictions groupA_idxs groupB_idxs :
  Forall (λ ex, ex ≠ []) T →
  deo_from_list (corrected_example o uv <$> T) predictions groupA_idxs groupB_idxs w
  = deo_from_list T predictions groupA_idxs groupB_idxs w.
Proof.
  intros HT.
  assert (∀ idxs, same_labels (corrected_example o uv <$> T) T idxs) as Hsame.
  { intros idxs. apply Forall_forall. intros i _. rewrite list_lookup_fmap.
    destruct (T !! i) as [ex|] eqn:Hex; [|done]. simpl.
    apply last_corrected_example. rewrite Forall_forall in HT.
    apply HT. by eapply list_elem_of_lookup_2. }
  unfold deo_from_list.
  by rewrite !(group_confusion_same_labels _ _ _ _ (Hsame _)).
Qed.

(** ** [number_encode_features] *)

Section label_encoder.
Import LabelEncoder.

Lemma insert_class_elem z y cs : z ∈ insert_class y cs ↔ z = y ∨ z ∈ cs.
Proof.
  induction cs as [|c cs IH]; simpl.
  - rewrite list_elem_of_singleton, elem_of_nil. tauto.
  - destruct (decide (y = c)) as [->|?]; [rewrite elem_of_cons; tauto|].
    destruct (decide (String.le y c)); rewrite !elem_of_cons, ?IH; tauto.
Qed.

Lemma insert_class_sorted y cs :
  StronglySorted (strict String.le) cs → StronglySorted (strict String.le) (insert_class y cs).
Proof.
  induction 1 as [|c cs Hs IH Hc]; simpl.
  - repeat constructor.
  - repeat case_decide; subst.
    + by constructor.
    + assert (strict String.le y c) by (by apply strict_spec_alt).
      constructor; [by constructor|].
      constructor; [done|].
      eapply Forall_impl; [exact Hc|]. intros z Hz. by etrans.
    + assert (strict String.le c y) by (by apply total_not_strict).
      constructor; [done|].
      apply Forall_forall. intros z [->|Hz]%insert_class_elem; [done|].
      by eapply Forall_forall in Hc.
Qed.

Lemma unique_elem z ys : z ∈ unique ys ↔ z ∈ ys.
Proof.
  induction ys as [|y ys IH]; simpl; [done|].
  rewrite insert_class_elem, elem_of_cons, IH. done.
Qed.

Lemma unique_sorted ys : StronglySorted (strict String.le) (unique ys).
Proof.
  induction ys as [|y ys IH]; simpl; [constructor|].
  by apply insert_class_sorted.
Qed.

Lemma sorted_NoDup cs : StronglySorted (strict String.le) cs → NoDup cs.
Proof.
  induction 1 as [|c cs Hs IH Hc]; constructor; [|done].
  intros Hin. eapply Forall_forall in Hc; [|done].
  by apply irreflexivity in Hc; [|apply _].
Qed.

Lemma position_lookup cs y : y ∈ cs → cs !! position cs y = Some y.
Proof.
  induction cs as [|c cs IH]; simpl; [by intros ?%elem_of_nil|].
  intros Hin. case_decide; subst; [done|]. simpl. apply IH.
  apply elem_of_cons in Hin as [?|?]; done.
Qed.

Lemma position_lt cs y : y ∈ cs → (position cs y < length cs)%nat.
Proof. intros Hin. eapply lookup_lt_Some, position_lookup, Hin. Qed.

Lemma filter_nothing {A} (P : A → Prop) `{∀ x, Decision (P x)} (l : list A) :
  Forall (λ x, ¬ P x) l → filter P l = [].
Proof.
  induction 1 as [|x l Hx Hl IH]; [done|].
  by rewrite filter_cons_False.
Qed.

Lemma position_below cs y :
  StronglySorted (strict String.le) cs → y ∈ cs →
  position cs y = length (filter (λ c, strict String.le c y) cs).
Proof.
  induction 1 as [|c cs Hs IH Hc]; [by intros ?%elem_of_nil|].
  intros Hin. simpl. case_decide as Hy.
  - subst c. rewrite filter_cons_False by apply irreflexivity, _.
    rewrite filter_nothing; [done|].
    eapply Forall_impl; [exact Hc|]. intros z Hz Hzy.
    eapply (irreflexivity (strict String.le) y). by etrans.
  - apply elem_of_cons in Hin as [?|Hin]; [done|].
    rewrite filter_cons_True by (by eapply Forall_forall in Hc).
    simpl. by rewrite IH.
Qed.

Lemma unique_remove_dups ys : unique ys ≡ₚ remove_dups ys.
Proof.
  apply NoDup_Permutation.
  - apply sorted_NoDup, unique_sorted.
  - apply NoDup_remove_dups.
  - intros z. by rewrite unique_elem, elem_of_remove_dups.
Qed.

End label_encoder.

Lemma not_repeated (labels : list string) :
  NoDup labels → ∀ c, ¬ repeated c labels.
Proof.
  unfold repeated. induction 1 as [|l labels Hl Hnd IH]; intros c; simpl; [lia|].
  rewrite filter_cons. destruct (decide (l = c)) as [->|Hne]; [|apply IH].
  rewrite filter_nothing; [simpl; lia|].
  apply Forall_forall. by intros ? ? ->.
Qed.

Lemma repeated_cons c l (labels : list string) :
  repeated c labels → repeated c (l :: labels).
Proof.
  unfold repeated. rewrite filter_cons. destruct (decide (l = c)); simpl; lia.
Qed.

Lemma some_label_repeated (labels : list string) :
  ¬ NoDup labels → Exists (λ c, repeated c labels) labels.
Proof.
  induction labels as [|l labels IH]; intros Hdup.
  - destruct Hdup. constructor.
  - destruct (decide (l ∈ labels)) as [Hin|Hnotin].
    + apply Exists_cons_hd. unfold repeated. rewrite filter_cons_True by done.
      simpl. apply ->Nat.succ_lt_mono.
      destruct (filter (λ c, c = l) labels) as [|] eqn:Hf; [|simpl; lia].
      exfalso. by eapply (filter_nil_not_elem_of (λ c, c = l)).
    + apply Exists_cons_tl.
      eapply Exists_impl; [apply IH|].
      * intros Hnd. apply Hdup. by constructor.
      * intros c. apply repeated_cons.
Qed.

Lemma encode_columns_returns labels columns result encoders :
  Forall (λ c, ¬ repeated c.1 labels) columns →
  encode_columns labels columns result encoders
  = Ok (result ++ (prod_map id encoded <$> columns),
        encoders_after columns encoders).
Proof.
  intros Hcols. revert result encoders.
  induction Hcols as [|[column [cells|cells]] columns Hc _ IH];
    intros result encoders; simpl in *.
  - by rewrite app_nil_r.
  - rewrite decide_False by done. rewrite IH, <-app_assoc. done.
  - rewrite decide_False by done. rewrite IH, <-app_assoc. done.
Qed.

Lemma encode_columns_raises labels columns result encoders :
  Exists (λ c, repeated c.1 labels) columns →
  encode_columns labels columns result encoders = Raise ValueError.
Proof.
  intros Hcols. revert result encoders.
  induction Hcols as [[column s] columns Hc|[column s] columns _ IH];
    intros result encoders; simpl in *.
  - by rewrite decide_True.
  - destruct (decide (repeated column labels)); [done|].
    destruct s; apply IH.
Qed.

Lemma number_encode_features_returns (df : DataFrame) :
  NoDup df.*1 →
  number_encode_features df
  = Ok (prod_map id encoded <$> df, encoders_after df ∅).
Proof.
  intros Hnd. unfold number_encode_features.
  rewrite encode_columns_returns; [done|].
  apply Forall_forall. intros c _. by apply not_repeated.
Qed.

Lemma number_encode_features_raises (df : DataFrame) :
  ¬ NoDup df.*1 → number_encode_features df = Raise ValueError.
Proof.
  intros Hdup. apply encode_columns_raises.
  apply some_label_repeated in Hdup.
  apply Exists_exists in Hdup as (c & Hin & Hc).
  apply list_elem_of_fmap in Hin as (col & -> & Hin).
  apply Exists_exists. by exists col.
Qed.

Lemma encoders_after_domain columns encoders name :
  is_Some (encoders_after columns encoders !! name)
  ↔ name ∈ object_columns columns ∨ is_Some (encoders !! name).
Proof.
  revert encoders.
  induction columns as [|[column [cells|cells]] columns IH]; intros encoders;
    simpl.
  - rewrite elem_of_nil. tauto.
  - rewrite IH. unfold object_columns. simpl. rewrite elem_of_cons.
    destruct (decide (name = column)) as [->|Hne].
    + rewrite lookup_insert_eq. split; [auto|]. intros _. right. by eexists.
    + rewrite lookup_insert_ne by done. tauto.
  - rewrite IH. unfold object_columns. simpl. done.
Qed.

Lemma encoders_after_keeps columns encoders name :
  name ∉ columns.*1 →
  encoders_after columns encoders !! name = encoders !! name.
Proof.
  revert encoders.
  induction columns as [|[column [cells|cells]] columns IH];
    intros encoders Hfresh; simpl; [done| |].
  - apply not_elem_of_cons in Hfresh as [Hne Hfresh].
    rewrite IH by done. by rewrite lookup_insert_ne.
  - apply not_elem_of_cons in Hfresh as [Hne Hfresh]. by rewrite IH.
Qed.

Lemma encoders_after_lookup columns encoders name cells :
  NoDup columns.*1 → (name, Objects cells) ∈ columns →
  encoders_after columns encoders !! name
  = Some (LabelEncoder.unique (filled cells)).
Proof.
  revert encoders.
  induction columns as [|[column [cells'|cells']] columns IH];
    intros encoders Hnd Hin; simpl.
  - by apply elem_of_nil in Hin.
  - apply NoDup_cons in Hnd as [Hfresh Hnd].
    apply elem_of_cons in Hin as [[= -> ->]|Hin]; [|by apply IH].
    rewrite encoders_after_keeps by done. apply lookup_insert_eq.
  - apply NoDup_cons in Hnd as [Hfresh Hnd].
    apply elem_of_cons in Hin as [[=]|Hin]. by apply IH.
Qed.

Lemma encoded_cell_object df column name cells i cell :
  NoDup df.*1 →
  df !! column = Some (name, Objects cells) → cells !! i = Some cell →
  encoded_cell df column i
  = Some (Num (count (code_in cells (default "None" cell)))).
Proof.
  intros Hnd Hcol Hcell. unfold encoded_cell.
  rewrite number_encode_features_returns by done. unfold DataFrame in *.
  rewrite list_lookup_fmap, Hcol.
  cbn [fmap option_fmap option_map prod_map mbind option_bind encoded int_column snd].
  rewrite list_lookup_fmap.
  unfold filled, fillna. rewrite !list_lookup_fmap, Hcell. done.
Qed.

Lemma count_inj m n : count m = count n → m = n.
Proof.
  unfold count. intros H%(f_equal Qcanon.this). simpl in H.
  injection H as H. lia.
Qed.

Lemma filled_elem cells i cell :
  cells !! i = Some cell → default "None" cell ∈ filled cells.
Proof.
  intros H. unfold filled, fillna.
  apply list_elem_of_fmap. exists cell. split; [done|].
  by eapply list_elem_of_lookup_2.
Qed.

Lemma code_in_below cells y :
  y ∈ filled cells → code_in cells y = length (classes_below cells y).
Proof.
  intros Hy. unfold code_in, classes_below.
  rewrite position_below.
  - by rewrite unique_remove_dups.
  - apply unique_sorted.
  - by apply unique_elem.
Qed.

Lemma code_in_lookup cells y :
  y ∈ filled cells → LabelEncoder.unique (filled cells) !! code_in cells y = Some y.
Proof. intros Hy. by apply position_lookup, unique_elem. Qed.

Lemma sorted_lookup_lt (cs : list string) m n a b :
  StronglySorted (strict String.le) cs →
  cs !! m = Some a → cs !! n = Some b → (m < n)%nat → strict String.le a b.
Proof.
  intros Hs. revert m n. induction Hs as [|c cs Hs IH Hc]; intros m n Hm Hn Hlt.
  - by rewrite lookup_nil in Hm.
  - destruct n as [|n]; [lia|]. destruct m as [|m]; simpl in *.
    + injection Hm as ->. eapply Forall_forall in Hc; [done|].
      by eapply list_elem_of_lookup_2.
    + eapply IH; [done..|lia].
Qed.

Lemma code_in_order cells a b :
  a ∈ filled cells → b ∈ filled cells →
  (code_in cells a = code_in cells b ↔ a = b)
  ∧ ((code_in cells a < code_in cells b)%nat ↔ strict String.le a b).
Proof.
  intros Ha%code_in_lookup Hb%code_in_lookup.
  pose proof (unique_sorted (filled cells)) as Hs.
  assert (Hlt : ∀ x y m n, LabelEncoder.unique (filled cells) !! m = Some x →
            LabelEncoder.unique (filled cells) !! n = Some y →
            (m < n)%nat → strict String.le x y)
    by (intros; by eapply sorted_lookup_lt).
  split; [split; [|by intros ->]|split; [by apply Hlt|]].
  - intros Heq. rewrite Heq in Ha. congruence.
  - intros Hab.
    destruct (lt_eq_lt_dec (code_in cells a) (code_in cells b)) as [[?|Heq]|Hgt];
      [done| |].
    + rewrite Heq in Ha. assert (a = b) as -> by congruence.
      by apply irreflexivity in Hab; [|apply _].
    + pose proof (Hlt _ _ _ _ Hb Ha Hgt) as Hba.
      destruct (irreflexivity (strict String.le) a). by etrans.
Qed.

(** X22.  [number_encode_features] returns exactly when the column labels
    of the frame are distinct, and raises [ValueError] when a label is
    repeated.  When it returns it keeps the shape of the frame: the result
    has the same column labels in the same order, every numeric column is
    returned as it is, every object column is replaced by an integer
    column of the same length (so no object column is left), and
    [encoders] has an entry exactly for the labels of the object columns. *)
Theorem number_encode_features_frame (df : DataFrame) :
  match number_encode_features df with
  | Ok (result, encoders) =>
      NoDup df.*1
      ∧ result.*1 = df.*1
      ∧ Forall2 (λ c c', match c.2 with
                         | Numbers cells => c'.2 = Numbers cells
                         | Objects cells =>
                             ∃ codes, c'.2 = int_column codes
                                      ∧ length codes = length cells
                         end) df result
      ∧ ∀ name, is_Some (encoders !! name) ↔ name ∈ object_columns df
  | Raise e => e = ValueError ∧ ¬ NoDup df.*1
  end.
Proof.
  destruct (decide (NoDup df.*1)) as [Hnd|Hdup];
    [|by rewrite number_encode_features_raises].
  rewrite number_encode_features_returns by done.
  split; [done|]. split; [|split].
  - rewrite <-list_fmap_compose. apply list_fmap_ext. by intros _ [??] _.
  - apply Forall2_fmap_r, Forall_Forall2_diag, Forall_forall.
    intros [name [cells|cells]] _; simpl; [|done].
    eexists. split; [done|]. unfold filled, fillna. by rewrite !length_fmap.
  - intros name. rewrite encoders_after_domain, lookup_empty.
    split; [intros [?|[? [=]]]; done|auto].
Qed.

(** A frame in which two columns carry the label Sex is refused, although
    each of the two columns could be encoded. *)
Example number_encode_features_repeated_label :
  number_encode_features
    [("Age", Numbers [Num (Qc_of_Z 39)]);
     ("Sex", Objects [Some "Male"]); ("Sex", Objects [Some "Female"])]
  = Raise ValueError.
Proof. apply encode_columns_raises. apply Exists_cons_tl, Exists_cons_hd. cbv. lia. Qed.

(** X23.  On a frame with distinct column labels, the code
    [number_encode_features] writes for a cell of an object column is the
    number of distinct values of that column (missing cells counted as the
    text None) that are strictly smaller, as strings, than the value of
    the cell. *)
Theorem code_counts_smaller_values df column name cells i cell :
  NoDup df.*1 →
  df !! column = Some (name, Objects cells) → cells !! i = Some cell →
  encoded_cell df column i
  = Some (Num (count (length (classes_below cells (default "None" cell))))).
Proof.
  intros Hnd Hcol Hcell. erewrite encoded_cell_object by done.
  rewrite code_in_below; [done|]. by eapply filled_elem.
Qed.

(** X24.  On a frame with distinct column labels [number_encode_features]
    returns, and the encoder returned for an object column decodes the
    column: its classes are the values of the column in strictly
    increasing order, and the class at the position given by the code of a
    cell is the value of that cell (the text None for a missing cell). *)
Theorem encoders_decode df column name cells :
  NoDup df.*1 → df !! column = Some (name, Objects cells) →
  ∃ result encoders classes_,
    number_encode_features df = Ok (result, encoders)
    ∧ encoders !! name = Some classes_
    ∧ StronglySorted (strict String.le) classes_
    ∧ (∀ y, y ∈ classes_ ↔ y ∈ filled cells)
    ∧ ∀ i cell, cells !! i = Some cell →
        ∃ n, encoded_cell df column i = Some (Num (count n))
             ∧ classes_ !! n = Some (default "None" cell).
Proof.
  intros Hnd Hcol. eexists _, _, (LabelEncoder.unique (filled cells)).
  split; [by apply number_encode_features_returns|].
  split; [|split; [|split]].
  - apply encoders_after_lookup; [done|]. by eapply list_elem_of_lookup_2.
  - apply unique_sorted.
  - intros y. apply unique_elem.
  - intros i cell Hcell. eexists. split; [by eapply encoded_cell_object|].
    apply code_in_lookup. by eapply filled_elem.
Qed.

(** X25.  On a frame with distinct column labels, the codes within an
    object column identify and order the values: two cells get the same
    code exactly when they hold the same value (a missing cell and the
    text None being the same value), the code of one is smaller exactly
    when its value is the smaller string, and every code is below the
    number of distinct values. *)
Theorem codes_keep_order df column name cells i j a b :
  NoDup df.*1 →
  df !! column = Some (name, Objects cells) →
  cells !! i = Some a → cells !! j = Some b →
  ∃ m n,
    encoded_cell df column i = Some (Num (count m))
    ∧ encoded_cell df column j = Some (Num (count n))
    ∧ (m = n ↔ default "None" a = default "None" b)
    ∧ ((m < n)%nat ↔ strict String.le (default "None" a) (default "None" b))
    ∧ (m < length (remove_dups (filled cells)))%nat.
Proof.
  intros Hnd Hcol Ha Hb.
  exists (code_in cells (default "None" a)), (code_in cells (default "None" b)).
  pose proof (filled_elem _ _ _ Ha) as Hina.
  pose proof (filled_elem _ _ _ Hb) as Hinb.
  destruct (code_in_order cells _ _ Hina Hinb) as [Heq Hlt].
  split; [by eapply encoded_cell_object|].
  split; [by eapply encoded_cell_object|].
  split; [done|]. split; [done|].
  rewrite <-(Permutation_length (unique_remove_dups (filled cells))).
  apply position_lt. by apply unique_elem.
Qed.

(** X26.  The training frame and the test frame, each with distinct
    column labels, are encoded by two separate calls.  When every value of
    the test column also occurs in the training column, a value never gets
    a larger code in the test frame than in the training frame, and it
    gets the same code exactly when every smaller value of the training
    column occurs in the test column as well. *)
Theorem codes_of_two_frames df1 df2 k1 k2 name1 name2 cells1 cells2 i j a b :
  NoDup df1.*1 → NoDup df2.*1 →
  df1 !! k1 = Some (name1, Objects cells1) →
  df2 !! k2 = Some (name2, Objects cells2) →
  filled cells2 ⊆ filled cells1 →
  cells1 !! i = Some a → cells2 !! j = Some b →
  default "None" a = default "None" b →
  ∃ m n,
    encoded_cell df1 k1 i = Some (Num (count m))
    ∧ encoded_cell df2 k2 j = Some (Num (count n))
    ∧ (n ≤ m)%nat
    ∧ (n = m ↔ ∀ z, strict String.le z (default "None" a) →
                    z ∈ filled cells1 → z ∈ filled cells2).
Proof.
  intros Hnd1' Hnd2' Hcol1 Hcol2 Hsub Ha Hb Hab.
  exists (length (classes_below cells1 (default "None" a))),
         (length (classes_below cells2 (default "None" b))).
  split.
  { erewrite encoded_cell_object by done.
    rewrite code_in_below; [done|]. by eapply filled_elem. }
  split.
  { erewrite encoded_cell_object by done.
    rewrite code_in_below; [done|]. by eapply filled_elem. }
  rewrite <-Hab. unfold classes_below.
  set (P := λ c, strict String.le c (default "None" a)).
  assert (Hnd1 : NoDup (filter P (remove_dups (filled cells1))))
    by apply NoDup_filter, NoDup_remove_dups.
  assert (Hnd2 : NoDup (filter P (remove_dups (filled cells2))))
    by apply NoDup_filter, NoDup_remove_dups.
  assert (Hle : filter P (remove_dups (filled cells2))
                ⊆+ filter P (remove_dups (filled cells1))).
  { apply NoDup_submseteq; [done|]. intros z.
    rewrite !list_elem_of_filter, !elem_of_remove_dups. intros [? ?]; auto. }
  split; [by apply submseteq_length|]. split.
  - intros Hlen z Hz Hin.
    assert (Hperm : filter P (remove_dups (filled cells2))
                    ≡ₚ filter P (remove_dups (filled cells1)))
      by (apply submseteq_length_Permutation; [done|lia]).
    assert (z ∈ filter P (remove_dups (filled cells2))) as Hz2.
    { rewrite Hperm. apply list_elem_of_filter.
      by rewrite elem_of_remove_dups. }
    apply list_elem_of_filter in Hz2 as [_ Hz2].
    rewrite elem_of_remove_dups in Hz2. exact Hz2.
  - intros Hall. apply Nat.le_antisymm; [by apply submseteq_length|].
    apply submseteq_length, NoDup_submseteq; [done|]. intros z.
    rewrite !list_elem_of_filter, !elem_of_remove_dups. intros [? ?]; auto.
Qed.

(** X27.  On a frame with distinct column labels, a column that holds
    only two values [a < b] is coded 0 and 1: when the smaller value
    occurs in the column, every cell holding it is replaced by 0 and every
    other cell by 1. *)
Theorem two_valued_column_is_0_1 df column name cells a b :
  NoDup df.*1 →
  df !! column = Some (name, Objects cells) →
  strict String.le a b → a ∈ filled cells →
  Forall (λ y, y = a ∨ y = b) (filled cells) →
  ∀ i cell, cells !! i = Some cell →
    encoded_cell df column i
    = Some (Num (count (if decide (default "None" cell = a) then 0 else 1))).
Proof.
  intros Hnd Hcol Hab Ha Hall i cell Hcell.
  erewrite encoded_cell_object by done.
  pose proof (filled_elem _ _ _ Hcell) as Hin.
  pose proof (proj1 (Forall_forall _ _) Hall) as Hcases.
  rewrite code_in_below by done. unfold classes_below.
  case_decide as Hc.
  - rewrite Hc. rewrite filter_nothing; [reflexivity|].
    apply Forall_forall. intros z Hz Hlt.
    rewrite elem_of_remove_dups in Hz.
    destruct (Hcases z Hz) as [->| ->].
    + by apply irreflexivity in Hlt; [|apply _].
    + destruct (irreflexivity (strict String.le) a). by etrans.
  - assert (default "None" cell = b) as -> by (by destruct (Hcases _ Hin)).
    assert (Hperm : filter (λ c, strict String.le c b) (remove_dups (filled cells))
                    ≡ₚ [a]).
    { apply NoDup_Permutation.
      - apply NoDup_filter, NoDup_remove_dups.
      - apply NoDup_singleton.
      - intros z. rewrite list_elem_of_filter, elem_of_remove_dups,
          list_elem_of_singleton. split.
        + intros [Hlt Hz]. destruct (Hcases z Hz) as [->| ->]; [done|].
          by apply irreflexivity in Hlt; [|apply _].
        + by intros ->. }
    rewrite Hperm. reflexivity.
Qed.

(** ** [MinMaxScaler] and the scaling of the two matrices *)

Section axis0.
Context (op : Qc → Qc → Qc) (R : relation Qc).
Context (op_cases : ∀ x y, op x y = x ∨ op x y = y).
Context (op_l : ∀ x y, R (op x y) x) (op_r : ∀ x y, R (op x y) y).
Context (R_refl : ∀ x, R x x) (R_trans : ∀ x y z, R x y → R y z → R x z).

Lemma length_fold_axis0 d r rows :
  length r = d → rectangular d rows →
  length (foldl (zip_with op) r rows) = d.
Proof.
  intros Hr Hrows. revert r Hr.
  induction Hrows as [|r' rows Hr' Hrows IH]; intros r Hr; simpl; [done|].
  apply IH. rewrite length_zip_with. lia.
Qed.

Lemma fold_axis0_lookup d r rows j :
  length r = d → rectangular d rows → (j < d)%nat →
  ∃ m, foldl (zip_with op) r rows !! j = Some m
       ∧ (∃ row, row ∈ r :: rows ∧ row !! j = Some m)
       ∧ Forall (λ row, ∀ x, row !! j = Some x → R m x) (r :: rows).
Proof.
  intros Hr Hrows Hj. revert r Hr.
  induction Hrows as [|r' rows Hr' Hrows IH]; intros r Hr; simpl.
  - destruct (lookup_lt_is_Some_2 r j) as [m Hm]; [lia|].
    exists m. split; [done|]. split.
    + exists r. split; [rewrite elem_of_cons; auto|done].
    + constructor; [|constructor]. intros x Hx. rewrite Hm in Hx.
      injection Hx as <-. apply R_refl.
  - destruct (lookup_lt_is_Some_2 r j) as [x Hx]; [lia|].
    destruct (lookup_lt_is_Some_2 r' j) as [x' Hx']; [lia|].
    assert (Hz : zip_with op r r' !! j = Some (op x x')).
    { rewrite lookup_zip_with, Hx. simpl. by rewrite Hx'. }
    destruct (IH (zip_with op r r')) as (m & Hm & (row & Hrow & Hat) & Hall).
    { rewrite length_zip_with. lia. }
    apply Forall_cons in Hall as [Hzip Hall].
    pose proof (Hzip _ Hz) as Hmz.
    exists m. split; [done|]. split.
    + apply elem_of_cons in Hrow as [->|Hrow].
      * rewrite Hz in Hat. injection Hat as <-.
        destruct (op_cases x x') as [-> | ->].
        -- exists r. split; [rewrite elem_of_cons; auto|done].
        -- exists r'. split; [rewrite !elem_of_cons; auto|done].
      * exists row. split; [|done]. rewrite !elem_of_cons; auto.
    + constructor; [|constructor; [|done]].
      * intros y Hy. rewrite Hx in Hy. injection Hy as <-.
        eapply R_trans; [exact Hmz|apply op_l].
      * intros y Hy. rewrite Hx' in Hy. injection Hy as <-.
        eapply R_trans; [exact Hmz|apply op_r].
Qed.

End axis0.

Lemma Qc_min_cases x y :
  MinMaxScaler.Qc_min x y = x ∨ MinMaxScaler.Qc_min x y = y.
Proof. unfold MinMaxScaler.Qc_min. case_decide; auto. Qed.

Lemma Qc_min_lb_l x y : MinMaxScaler.Qc_min x y ≤ x.
Proof.
  unfold MinMaxScaler.Qc_min. case_decide as H; [apply Qcle_refl|].
  apply Qclt_le_weak, Qcnot_le_lt, H.
Qed.

Lemma Qc_min_lb_r x y : MinMaxScaler.Qc_min x y ≤ y.
Proof. unfold MinMaxScaler.Qc_min. case_decide as H; [done|apply Qcle_refl]. Qed.

Lemma min_axis0_least d r rows j :
  length r = d → rectangular d rows → (j < d)%nat →
  ∃ lo, MinMaxScaler.min_axis0 r rows !! j = Some lo ∧ is_least lo j (r :: rows).
Proof.
  intros Hr Hrows Hj.
  destruct (fold_axis0_lookup MinMaxScaler.Qc_min Qcle Qc_min_cases Qc_min_lb_l
              Qc_min_lb_r Qcle_refl Qcle_trans d r rows j Hr Hrows Hj)
    as (m & Hm & Hat & Hall).
  by exists m.
Qed.

Lemma max_axis0_greatest d r rows j :
  length r = d → rectangular d rows → (j < d)%nat →
  ∃ hi, MinMaxScaler.max_axis0 r rows !! j = Some hi ∧ is_greatest hi j (r :: rows).
Proof.
  intros Hr Hrows Hj.
  destruct (fold_axis0_lookup Qc_max (λ m x, x ≤ m) Qc_max_cases Qc_max_ub_l
              Qc_max_ub_r Qcle_refl (λ x y z H1 H2, Qcle_trans _ _ _ H2 H1)
              d r rows j Hr Hrows Hj)
    as (m & Hm & Hat & Hall).
  by exists m.
Qed.

Lemma is_least_unique lo lo' j X : is_least lo j X → is_least lo' j X → lo = lo'.
Proof.
  intros [(row & Hrow & Hat) Hall] [(row' & Hrow' & Hat') Hall'].
  apply Qcle_antisym.
  - eapply Forall_forall in Hall; [|exact Hrow']. by apply Hall.
  - eapply Forall_forall in Hall'; [|exact Hrow]. by apply Hall'.
Qed.

Lemma is_greatest_unique hi hi' j X :
  is_greatest hi j X → is_greatest hi' j X → hi = hi'.
Proof.
  intros [(row & Hrow & Hat) Hall] [(row' & Hrow' & Hat') Hall'].
  apply Qcle_antisym.
  - eapply Forall_forall in Hall'; [|exact Hrow]. by apply Hall'.
  - eapply Forall_forall in Hall; [|exact Hrow']. by apply Hall.
Qed.

Lemma rescaled_formula lo hi x :
  x * ((1 - 0) / MinMaxScaler.handle_zeros_in_scale (hi - lo))
  + (0 - lo * ((1 - 0) / MinMaxScaler.handle_zeros_in_scale (hi - lo)))
  = rescaled lo hi x.
Proof.
  unfold rescaled, MinMaxScaler.handle_zeros_in_scale.
  destruct (decide (hi = lo)) as [->|Hne].
  - rewrite decide_True by ring. field. discriminate.
  - assert (hi - lo ≠ 0) as Hnz.
    { intros H. apply Hne. rewrite <-(Qcplus_0_l lo), <-H. ring. }
    rewrite decide_False by done. field. done.
Qed.

Lemma rescaled_lo lo hi : rescaled lo hi lo = 0.
Proof.
  unfold rescaled. case_decide as H; [ring|].
  assert (hi - lo ≠ 0) as Hnz.
  { intros H'. apply H. rewrite <-(Qcplus_0_l lo), <-H'. ring. }
  field. done.
Qed.

Lemma rescaled_hi lo hi : hi ≠ lo → rescaled lo hi hi = 1.
Proof.
  intros H. unfold rescaled. rewrite decide_False by done.
  assert (hi - lo ≠ 0) as Hnz.
  { intros H'. apply H. rewrite <-(Qcplus_0_l lo), <-H'. ring. }
  field. done.
Qed.

Lemma Qcminus_nonneg a b : b ≤ a → 0 ≤ a - b.
Proof.
  intros H. replace (0 : Qc) with (b + - b) by ring. unfold Qcminus.
  apply Qcplus_le_compat; [done|apply Qcle_refl].
Qed.

Lemma rescaled_bounds lo hi x :
  lo ≤ x → x ≤ hi → 0 ≤ rescaled lo hi x ∧ rescaled lo hi x ≤ 1.
Proof.
  intros Hlo Hhi. unfold rescaled. case_decide as H.
  - subst hi. assert (x = lo) as -> by (by apply Qcle_antisym).
    replace (lo - lo) with (0 : Qc) by ring. done.
  - assert (hi - lo ≠ 0) as Hnz.
    { intros H'. apply H. rewrite <-(Qcplus_0_l lo), <-H'. ring. }
    assert (0 < hi - lo) as Hpos.
    { destruct (Qcle_lt_or_eq _ _ (Qcminus_nonneg hi lo (Qcle_trans _ _ _ Hlo Hhi)))
        as [?|?]; [done|congruence]. }
    split.
    + apply (Qcmult_le_mono_pos_r _ _ (hi - lo)); [done|].
      rewrite Qcmult_0_l, (Qcmult_comm _ (hi - lo)), Qcmult_div_r by done.
      by apply Qcminus_nonneg.
    + apply (Qcmult_le_mono_pos_r _ _ (hi - lo)); [done|].
      rewrite Qcmult_1_l, (Qcmult_comm _ (hi - lo)), Qcmult_div_r by done.
      unfold Qcminus. apply Qcplus_le_compat; [done|apply Qcle_refl].
Qed.

Lemma scaler_fit_returns d r rows :
  length r = d → (0 < d)%nat →
  MinMaxScaler.fit (r :: rows)
  = Ok (MinMaxScaler.mkFitted
          (MinMaxScaler.min_axis0 r rows) (MinMaxScaler.max_axis0 r rows)
          ((λ x, (1 - 0) / MinMaxScaler.handle_zeros_in_scale x)
             <$> zip_with Qcminus (MinMaxScaler.max_axis0 r rows)
                   (MinMaxScaler.min_axis0 r rows))
          (zip_with (λ m s, 0 - m * s) (MinMaxScaler.min_axis0 r rows)
             ((λ x, (1 - 0) / MinMaxScaler.handle_zeros_in_scale x)
                <$> zip_with Qcminus (MinMaxScaler.max_axis0 r rows)
                      (MinMaxScaler.min_axis0 r rows)))).
Proof. intros Hr Hd. destruct r; [simpl in Hr; lia|done]. Qed.

(** A scaler fitted on a matrix of [d] columns transforms any matrix of
    [d] columns entry by entry, with the least and greatest entries of the
    training columns. *)
Lemma transform_rescaled training d self X :
  rectangular d training → (0 < d)%nat →
  MinMaxScaler.fit training = Ok self →
  rectangular d X → X ≠ [] →
  ∃ X',
    MinMaxScaler.transform self X = Ok X'
    ∧ length X' = length X ∧ rectangular d X'
    ∧ ∀ j lo hi, is_least lo j training → is_greatest hi j training →
        ∀ i, entry X' i j = rescaled lo hi <$> entry X i j.
Proof.
  intros Htr Hd Hfit HX HXne.
  destruct training as [|r rows]; [done|].
  apply Forall_cons in Htr as [Hr Hrows].
  rewrite (scaler_fit_returns d) in Hfit by done. injection Hfit as <-.
  pose proof (length_fold_axis0 MinMaxScaler.Qc_min d r rows Hr Hrows) as Hlmin.
  pose proof (length_fold_axis0 Qc_max d r rows Hr Hrows) as Hlmax.
  fold (MinMaxScaler.min_axis0 r rows) in Hlmin.
  fold (MinMaxScaler.max_axis0 r rows) in Hlmax.
  set (scale := (λ x, (1 - 0) / MinMaxScaler.handle_zeros_in_scale x)
         <$> zip_with Qcminus (MinMaxScaler.max_axis0 r rows)
               (MinMaxScaler.min_axis0 r rows)).
  assert (Hlscale : length scale = d).
  { unfold scale. rewrite length_fmap, length_zip_with. lia. }
  eexists. split; [|split; [|split]].
  - unfold MinMaxScaler.transform. destruct X as [|x0 X]; [done|].
    apply Forall_cons in HX as [Hx0 _]. cbn [MinMaxScaler.scale_].
    fold scale. rewrite decide_True by lia. reflexivity.
  - by rewrite length_fmap.
  - apply Forall_fmap. eapply Forall_impl; [exact HX|].
    intros row Hrow. simpl in *. rewrite !length_zip_with. lia.
  - intros j lo hi Hlo Hhi i. unfold entry.
    rewrite list_lookup_fmap. destruct (X !! i) as [row|] eqn:Hrow; [|done].
    simpl. assert (length row = d) as Hlen.
    { eapply Forall_forall in HX; [done|]. by eapply list_elem_of_lookup_2. }
    destruct Hlo as [(row0 & Hrow0 & Hat0) Hall0].
    assert (Hj : (j < d)%nat).
    { assert (length row0 = d) as Hlen0.
      { pose proof Hrow0 as Hin0.
        apply elem_of_cons in Hin0 as [->|Hin0]; [done|].
        by apply (proj1 (Forall_forall _ _) Hrows). }
      apply lookup_lt_Some in Hat0. lia. }
    destruct (min_axis0_least d r rows j Hr Hrows Hj) as (lo' & Hmin & Hlo').
    destruct (max_axis0_greatest d r rows j Hr Hrows Hj) as (hi' & Hmax & Hhi').
    assert (lo' = lo) as ->.
    { eapply is_least_unique; [done|]. split; [by exists row0|done]. }
    assert (hi' = hi) as -> by (by eapply is_greatest_unique).
    destruct (lookup_lt_is_Some_2 row j) as [x Hx]; [lia|].
    assert (Hs : scale !! j
                 = Some ((1 - 0) / MinMaxScaler.handle_zeros_in_scale (hi - lo))).
    { unfold scale. rewrite list_lookup_fmap, lookup_zip_with, Hmax. simpl.
      by rewrite Hmin. }
    rewrite Hx. simpl. rewrite !lookup_zip_with, Hx. simpl.
    rewrite Hs. simpl. rewrite Hmin. simpl.
    by rewrite rescaled_formula.
Qed.

Lemma entry_Some X i j x :
  entry X i j = Some x ↔ ∃ row, X !! i = Some row ∧ row !! j = Some x.
Proof.
  unfold entry. destruct (X !! i) as [row|]; simpl.
  - split; [by exists row|]. by intros (? & [= <-] & ?).
  - split; [done|]. by intros (? & [=] & _).
Qed.

Lemma column_range training d j :
  rectangular d training → training ≠ [] → (j < d)%nat →
  ∃ lo hi, is_least lo j training ∧ is_greatest hi j training.
Proof.
  intros Htr Hne Hj. destruct training as [|r rows]; [done|].
  apply Forall_cons in Htr as [Hr Hrows].
  destruct (min_axis0_least d r rows j Hr Hrows Hj) as (lo & _ & Hlo).
  destruct (max_axis0_greatest d r rows j Hr Hrows Hj) as (hi & _ & Hhi).
  by exists lo, hi.
Qed.

Lemma scaler_fit_total training d :
  rectangular d training → training ≠ [] → (0 < d)%nat →
  ∃ self, MinMaxScaler.fit training = Ok self.
Proof.
  intros Htr Hne Hd. destruct training as [|r rows]; [done|].
  apply Forall_cons in Htr as [Hr Hrows].
  eexists. by apply (scaler_fit_returns d).
Qed.

Lemma is_least_entry lo j X :
  is_least lo j X ↔
  (∃ i, entry X i j = Some lo) ∧ ∀ i x, entry X i j = Some x → lo ≤ x.
Proof.
  unfold is_least. split.
  - intros [(row & Hrow & Hat) Hall]. split.
    + apply list_elem_of_lookup_1 in Hrow as [i Hi]. exists i.
      apply entry_Some. by exists row.
    + intros i x (row' & Hrow' & Hx)%entry_Some.
      apply (proj1 (Forall_forall _ _) Hall row'); [|done].
      by eapply list_elem_of_lookup_2.
  - intros [(i & (row & Hrow & Hat)%entry_Some) Hall]. split.
    + exists row. split; [|done]. by eapply list_elem_of_lookup_2.
    + apply Forall_forall. intros row' [i' Hi']%list_elem_of_lookup_1 x Hx.
      apply (Hall i'). apply entry_Some. by exists row'.
Qed.

Lemma is_greatest_entry hi j X :
  is_greatest hi j X ↔
  (∃ i, entry X i j = Some hi) ∧ ∀ i x, entry X i j = Some x → x ≤ hi.
Proof.
  unfold is_greatest. split.
  - intros [(row & Hrow & Hat) Hall]. split.
    + apply list_elem_of_lookup_1 in Hrow as [i Hi]. exists i.
      apply entry_Some. by exists row.
    + intros i x (row' & Hrow' & Hx)%entry_Some.
      apply (proj1 (Forall_forall _ _) Hall row'); [|done].
      by eapply list_elem_of_lookup_2.
  - intros [(i & (row & Hrow & Hat)%entry_Some) Hall]. split.
    + exists row. split; [|done]. by eapply list_elem_of_lookup_2.
    + apply Forall_forall. intros row' [i' Hi']%list_elem_of_lookup_1 x Hx.
      apply (Hall i'). apply entry_Some. by exists row'.
Qed.

(** X28.  The scaler is fitted on the training matrix only: on a training
    and a test matrix of the same positive width, both with rows, the
    scaling returns two matrices of the same shapes in which every entry
    [x] of column [j], of the training as of the test matrix, has become
    [(x - lo) / (hi - lo)] for the least and greatest entries [lo] and
    [hi] of column [j] of the training matrix ([x - lo] when that column
    is constant). *)
Theorem scaler_uses_training_range training test d :
  rectangular d training → rectangular d test →
  training ≠ [] → test ≠ [] → (0 < d)%nat →
  ∃ training' test',
    scale_matrices training test = Ok (training', test')
    ∧ length training' = length training ∧ rectangular d training'
    ∧ length test' = length test ∧ rectangular d test'
    ∧ ∀ j lo hi, is_least lo j training → is_greatest hi j training →
        ∀ i, entry training' i j = rescaled lo hi <$> entry training i j
             ∧ entry test' i j = rescaled lo hi <$> entry test i j.
Proof.
  intros Htr Hte Hne Hne' Hd.
  destruct (scaler_fit_total training d Htr Hne Hd) as [self Hfit].
  destruct (transform_rescaled training d self training Htr Hd Hfit Htr Hne)
    as (training' & Htrain & Hlen & Hrect & Hentries).
  destruct (transform_rescaled training d self test Htr Hd Hfit Hte Hne')
    as (test' & Htest & Hlen' & Hrect' & Hentries').
  exists training', test'. split.
  { unfold scale_matrices, MinMaxScaler.fit_transform.
    rewrite Hfit. simpl. rewrite Htrain. simpl. by rewrite Htest. }
  repeat (split; [done|]).
  intros j lo hi Hlo Hhi i. split; [by apply Hentries|by apply Hentries'].
Qed.

(** X29.  In exact arithmetic (the entries are exact rationals here; the
    rounding of floats, which can leave the greatest entry just below 1,
    is not modelled) the scaled training matrix lies in the unit square:
    it has the shape of the training matrix, every entry is between 0 and
    1, the least entry of every column is 0, and the greatest entry of a
    column is 1 unless the column was constant (its greatest and least
    entries exactly equal), in which case it is 0. *)
Theorem scaled_training_matrix training d :
  rectangular d training → training ≠ [] → (0 < d)%nat →
  ∃ scaler training',
    MinMaxScaler.fit_transform training = Ok (scaler, training')
    ∧ length training' = length training ∧ rectangular d training'
    ∧ (∀ i j x, entry training' i j = Some x → 0 ≤ x ∧ x ≤ 1)
    ∧ ∀ j, (j < d)%nat →
        is_least 0 j training'
        ∧ (is_greatest 1 j training'
           ∨ (is_greatest 0 j training'
              ∧ ∃ c, ∀ i x, entry training i j = Some x → x = c)).
Proof.
  intros Htr Hne Hd.
  destruct (scaler_fit_total training d Htr Hne Hd) as [self Hfit].
  destruct (transform_rescaled training d self training Htr Hd Hfit Htr Hne)
    as (training' & Htrain & Hlen & Hrect & Hentries).
  exists self, training'. split.
  { unfold MinMaxScaler.fit_transform. rewrite Hfit. simpl. by rewrite Htrain. }
  split; [done|]. split; [done|].
  assert (Hin : ∀ j lo hi i x', is_least lo j training → is_greatest hi j training →
            entry training' i j = Some x' →
            ∃ x, entry training i j = Some x ∧ x' = rescaled lo hi x
                 ∧ lo ≤ x ∧ x ≤ hi).
  { intros j lo hi i x' Hlo Hhi Hx'. rewrite (Hentries j lo hi Hlo Hhi) in Hx'.
    destruct (entry training i j) as [x|] eqn:Hx; [|done].
    injection Hx' as <-. exists x. split; [done|]. split; [done|].
    apply is_least_entry in Hlo as [_ Hlo]. apply is_greatest_entry in Hhi as [_ Hhi].
    split; [by eapply Hlo|by eapply Hhi]. }
  assert (Hunit : ∀ i j x, entry training' i j = Some x → 0 ≤ x ∧ x ≤ 1).
  { intros i j x' Hx'. pose proof Hx' as (row' & Hrow' & Hat)%entry_Some.
    assert (j < d)%nat as Hj.
    { apply lookup_lt_Some in Hat.
      rewrite (proj1 (Forall_forall _ _) Hrect row') in Hat; [done|].
      by eapply list_elem_of_lookup_2. }
    destruct (column_range training d j Htr Hne Hj) as (lo & hi & Hlo & Hhi).
    destruct (Hin j lo hi i x' Hlo Hhi Hx') as (x & _ & -> & ? & ?).
    by apply rescaled_bounds. }
  split; [done|]. intros j Hj.
  destruct (column_range training d j Htr Hne Hj) as (lo & hi & Hlo & Hhi).
  pose proof Hlo as [(ilo & Hilo) _]%is_least_entry.
  pose proof Hhi as [(ihi & Hihi) _]%is_greatest_entry.
  split.
  - apply is_least_entry. split.
    + exists ilo. rewrite (Hentries j lo hi Hlo Hhi), Hilo. simpl.
      by rewrite rescaled_lo.
    + intros i x Hx. by apply (Hunit i j).
  - destruct (decide (hi = lo)) as [->|Hneq].
    + right. split.
      * apply is_greatest_entry. split.
        -- exists ilo. rewrite (Hentries j lo lo Hlo Hhi), Hilo. simpl.
           by rewrite rescaled_lo.
        -- intros i x' Hx'.
           destruct (Hin j lo lo i x' Hlo Hhi Hx') as (x & _ & -> & ? & ?).
           assert (x = lo) as -> by (by apply Qcle_antisym).
           rewrite rescaled_lo. apply Qcle_refl.
      * exists lo. intros i x Hx.
        apply is_least_entry in Hlo as [_ Hlo].
        apply is_greatest_entry in Hhi as [_ Hhi].
        apply Qcle_antisym; [by eapply Hhi|by eapply Hlo].
    + left. apply is_greatest_entry. split.
      * exists ihi. rewrite (Hentries j lo hi Hlo Hhi), Hihi. simpl.
        by rewrite rescaled_hi.
      * intros i x Hx. by apply (Hunit i j).
Qed.

(** X30.  A column whose training entries have least value 0 and greatest
    value 1 - a column of 0/1 codes, such as the label and the sensitive
    feature - is left as it is by the scaling, in the training and in the
    test matrix. *)
Theorem zero_one_column_not_rescaled training test d j :
  rectangular d training → rectangular d test →
  training ≠ [] → test ≠ [] →
  is_least 0 j training → is_greatest 1 j training →
  ∃ training' test',
    scale_matrices training test = Ok (training', test')
    ∧ ∀ i, entry training' i j = entry training i j
           ∧ entry test' i j = entry test i j.
Proof.
  intros Htr Hte Hne Hne' Hlo Hhi.
  assert (0 < d)%nat as Hd.
  { destruct Hlo as [(row & Hrow & Hat) _]. apply lookup_lt_Some in Hat.
    rewrite (proj1 (Forall_forall _ _) Htr row) in Hat by done. lia. }
  destruct (scaler_fit_total training d Htr Hne Hd) as [self Hfit].
  destruct (transform_rescaled training d self training Htr Hd Hfit Htr Hne)
    as (training' & Htrain & _ & _ & Hentries).
  destruct (transform_rescaled training d self test Htr Hd Hfit Hte Hne')
    as (test' & Htest & _ & _ & Hentries').
  exists training', test'. split.
  { unfold scale_matrices, MinMaxScaler.fit_transform.
    rewrite Hfit. simpl. rewrite Htrain. simpl. by rewrite Htest. }
  assert (Hid : ∀ x, rescaled 0 1 x = x).
  { intros x. unfold rescaled. rewrite decide_False by discriminate.
    field. discriminate. }
  intros i. rewrite (Hentries j 0 1 Hlo Hhi), (Hentries' j 0 1 Hlo Hhi).
  split.
  - destruct (entry training i j); simpl; [by rewrite Hid|done].
  - destruct (entry test i j); simpl; [by rewrite Hid|done].
Qed.

(** ** Witnesses *)

Lemma deo_from_list_reads_only_labels_witness :
  deo_from_list example.labelled example.predictions
    example.groupA_idxs example.groupB_idxs example.unfitted
  = deo_from_list more_examples.labels_only example.predictions
      example.groupA_idxs example.groupB_idxs example.unfitted.
Proof.
  apply (deo_from_list_reads_only_labels example.unfitted example.labelled
           more_examples.labels_only).
  - unfold same_labels. repeat constructor.
  - unfold same_labels. repeat constructor.
Defined.

Lemma deo_from_list_between_0_and_1_witness :
  0 ≤ more_examples.deo_gap ∧ more_examples.deo_gap ≤ 1.
Proof.
  apply (deo_from_list_between_0_and_1 example.unfitted example.labelled
           example.predictions example.groupA_idxs example.groupB_idxs).
  vm_compute. reflexivity.
Defined.

Lemma deo_from_list_symmetric_witness :
  (deo_from_list example.labelled example.predictions
     example.groupB_idxs example.groupA_idxs example.unfitted).1
  = Ok (Num more_examples.deo_gap).
Proof.
  apply (deo_from_list_symmetric example.unfitted example.labelled
           example.predictions example.groupA_idxs example.groupB_idxs).
  vm_compute. reflexivity.
Defined.

Lemma deo_from_list_two_labels_witness :
  (deo_from_list example.labelled example.predictions
     more_examples.negatives_idxs example.groupB_idxs example.unfitted).1
  = Ok (scalar_abs
          (scalar_sub
             (group_tpr example.labelled example.predictions more_examples.negatives_idxs)
             (group_tpr example.labelled example.predictions example.groupB_idxs)))
  ∧ ((count_cell example.labelled example.predictions
        more_examples.negatives_idxs true 1
      + count_cell example.labelled example.predictions
          more_examples.negatives_idxs true 0 = 0)%nat
     ∨ (count_cell example.labelled example.predictions example.groupB_idxs true 1
        + count_cell example.labelled example.predictions
            example.groupB_idxs true 0 = 0)%nat →
     (deo_from_list example.labelled example.predictions
        more_examples.negatives_idxs example.groupB_idxs example.unfitted).1
     = Ok NaN).
Proof.
  apply (deo_from_list_two_labels example.unfitted example.labelled
           example.predictions more_examples.negatives_idxs example.groupB_idxs).
  - unfold selects_binary. apply (bool_decide_unpack _). by vm_compute.
  - unfold both_labels. apply (bool_decide_unpack _). by vm_compute.
  - unfold selects_binary. apply (bool_decide_unpack _). by vm_compute.
  - unfold both_labels. apply (bool_decide_unpack _). by vm_compute.
Defined.

Lemma deo_from_list_single_label_group_witness :
  deo_from_list example.labelled example.predictions
    example.groupA_idxs more_examples.perfect_idxs example.unfitted
  = (Raise ValueError, example.unfitted).
Proof.
  apply (deo_from_list_single_label_group example.unfitted example.labelled
           example.predictions example.groupA_idxs more_examples.perfect_idxs 1).
  right. split; [|split].
  - unfold selects_binary. apply (bool_decide_unpack _). by vm_compute.
  - unfold both_labels. apply (bool_decide_unpack _). by vm_compute.
  - unfold uniform_group. apply (bool_decide_unpack _). by vm_compute.
Defined.

Lemma deo_from_list_empty_group_witness :
  ∃ e, deo_from_list example.labelled example.predictions
         [] example.groupB_idxs example.unfitted
       = (Raise e, example.unfitted).
Proof.
  apply (deo_from_list_empty_group example.unfitted example.labelled
           example.predictions [] example.groupB_idxs).
  left. reflexivity.
Defined.

Lemma deo_from_list_index_out_of_range_witness :
  deo_from_list example.labelled example.predictions
    [0; 9]%nat example.groupB_idxs example.unfitted
  = (Raise IndexError, example.unfitted).
Proof.
  apply (deo_from_list_index_out_of_range example.unfitted example.labelled
           example.predictions [0; 9]%nat example.groupB_idxs 9).
  - apply (bool_decide_unpack _). by vm_compute.
  - simpl. lia.
Defined.

Lemma group_positions_partition_witness :
  ∃ A B,
    groupA_positions 1 0 (mrows more_examples.dataset) = Ok A
    ∧ groupB_positions 1 0 (mrows more_examples.dataset) = Ok B
    ∧ A ++ B ≡ₚ seq 0 (length (mrows more_examples.dataset))
    ∧ Forall (marked 1 0 (mrows more_examples.dataset)) A
    ∧ Forall (unmarked 1 0 (mrows more_examples.dataset)) B.
Proof.
  apply (group_positions_partition 1 0 more_examples.dataset).
  - repeat constructor.
  - simpl. lia.
Defined.

Lemma deo_from_model_default_marker_witness :
  ∃ v,
    deo_from_model more_examples.rowwise_model more_examples.dataset 1 None
      example.unfitted
    = deo_from_model more_examples.rowwise_model more_examples.dataset 1 (Some v)
        example.unfitted
    ∧ (∃ i, marked 1 v (mrows more_examples.dataset) i)
    ∧ Forall (λ r, ∃ x, r !! 1%nat = Some x ∧ x ≤ v) (mrows more_examples.dataset).
Proof.
  apply (deo_from_model_default_marker example.unfitted
           more_examples.rowwise_model more_examples.dataset 1).
  - repeat constructor.
  - discriminate.
  - simpl. lia.
Defined.

Lemma deo_from_model_rowwise_witness :
  deo_from_model more_examples.rowwise_model more_examples.dataset 1 (Some 0)
    example.unfitted
  = (groupA_idxs ← lift (groupA_positions 1 0 (mrows more_examples.dataset));
     groupB_idxs ← lift (groupB_positions 1 0 (mrows more_examples.dataset));
     deo_from_list (mrows more_examples.dataset)
       (more_examples.label_of <$> (features_of <$> mrows more_examples.dataset))
       groupA_idxs groupB_idxs) example.unfitted.
Proof.
  apply (deo_from_model_rowwise example.unfitted more_examples.label_of
           more_examples.rowwise_model more_examples.dataset 1 0).
  intros batch. reflexivity.
Defined.

Lemma deo_from_model_fewer_than_100_rows_witness :
  np_array_split (features_of <$> mrows more_examples.dataset) 100
  = Ok (((λ r, [features_of r]) <$> mrows more_examples.dataset)
        ++ replicate (100 - length (mrows more_examples.dataset)) [])
  ∧ deo_from_model more_examples.strict_model more_examples.dataset 1 (Some 0)
      example.unfitted
    = (Raise ValueError, example.unfitted).
Proof.
  apply (deo_from_model_fewer_than_100_rows example.unfitted
           more_examples.strict_model more_examples.dataset 1 0 ValueError).
  - repeat constructor.
  - simpl. lia.
  - simpl. lia.
  - intros r. eexists. reflexivity.
  - reflexivity.
Defined.

Lemma deo_from_model_index_out_of_range_witness :
  deo_from_model more_examples.rowwise_model more_examples.dataset 5 None
    example.unfitted
  = (Raise IndexError, example.unfitted).
Proof.
  apply (deo_from_model_index_out_of_range example.unfitted
           more_examples.rowwise_model more_examples.dataset 5 None).
  - repeat constructor.
  - simpl. lia.
  - left. reflexivity.
Defined.

Lemma deo_from_model_no_rows_witness :
  ∃ e, deo_from_model more_examples.rowwise_model more_examples.no_rows 1 (Some 0)
         example.unfitted
       = (Raise e, example.unfitted).
Proof.
  apply (deo_from_model_no_rows example.unfitted more_examples.rowwise_model
           more_examples.no_rows 1 (Some 0)).
  reflexivity.
Defined.

Lemma fit_fails_without_effect_witness :
  (fit 1%positive more_examples.one_sided).2 = more_examples.one_sided.
Proof.
  apply (fit_fails_without_effect more_examples.one_sided
           (fit 1%positive more_examples.one_sided).2 1%positive
           [ [Qc_of_Z 1; 0; 1]; [Qc_of_Z 2; 1; 0] ] 3 IndexError).
  - reflexivity.
  - repeat constructor.
  - vm_compute. discriminate.
  - vm_compute. reflexivity.
Defined.

Lemma fit_twice_witness :
  ∃ w1 w2 lu1 lu2 uv,
    fit example.dataset example.unfitted = (Ok (), w1)
    ∧ fit example.dataset w1 = (Ok (), w2)
    ∧ u (self w1) = Some lu1 ∧ u (self w2) = Some lu2 ∧ lu1 ≠ lu2
    ∧ heap w1 !! lu1 = Some (Arr1 uv)
    ∧ heap w2 !! lu2 = Some (Arr1 uv)
    ∧ heap w2 !! lu1 = Some (Arr1 uv).
Proof.
  apply (fit_twice example.unfitted example.dataset example.D 3).
  - reflexivity.
  - repeat constructor.
  - vm_compute. discriminate.
  - vm_compute. discriminate.
  - vm_compute. discriminate.
Defined.

Lemma fit_needs_a_feature_column_witness :
  ∃ e, fit 1%positive more_examples.label_as_sensitive
       = (Raise e, more_examples.label_as_sensitive).
Proof.
  apply (fit_needs_a_feature_column more_examples.label_as_sensitive
           1%positive example.D 3).
  - reflexivity.
  - repeat constructor.
  - simpl. lia.
Defined.

Lemma new_representation_width_mismatch_witness :
  new_representation example.dataset example.fitted
  = (Raise ValueError, example.fitted).
Proof.
  apply (new_representation_width_mismatch example.fitted example.dataset
           3%positive example.fitted_u example.D 3).
  - reflexivity.
  - vm_compute. reflexivity.
  - reflexivity.
  - repeat constructor.
  - vm_compute. by eexists.
  - vm_compute. lia.
  - lia.
  - vm_compute. lia.
  - apply (bool_decide_unpack _). by vm_compute.
Defined.

Lemma new_representation_group_A_only_witness :
  ∃ lr w',
    new_representation 1%positive more_examples.fitted_with_group_A_batch
    = (Ok lr, w')
    ∧ heap w' !! lr
      = Some (Arr2 ((λ ex, without_index ex
                             (sensitive_feature
                                (self more_examples.fitted_with_group_A_batch)))
                      <$> more_examples.group_A_batch)).
Proof.
  apply (new_representation_group_A_only more_examples.fitted_with_group_A_batch
           1%positive 2%positive [Qc_of_Z (-5); -1; 0]
           more_examples.group_A_batch 2).
  - reflexivity.
  - reflexivity.
  - reflexivity.
  - discriminate.
  - repeat constructor.
  - repeat constructor.
Defined.

Lemma new_representation_index_out_of_range_witness :
  new_representation 1%positive more_examples.fitted_with_far_index
  = (Raise IndexError, more_examples.fitted_with_far_index).
Proof.
  apply (new_representation_index_out_of_range more_examples.fitted_with_far_index
           1%positive 2%positive [Qc_of_Z (-5); -1] more_examples.group_A_batch 2).
  - reflexivity.
  - reflexivity.
  - reflexivity.
  - discriminate.
  - repeat constructor.
  - reflexivity.
Defined.

Lemma impose_fairness_returns_witness :
  ∃ lD lT w',
    let uv := <[1%nat := -1]> (fit_difference (init 1 0) example.D) in
    let D' := corrected_example (init 1 0) uv <$> example.D in
    let T' := corrected_example (init 1 0) uv <$> more_examples.test_rows in
    impose_fairness 1 1%positive 2%positive more_examples.train_and_test
    = (Ok (lD, lT), w')
    ∧ heap w' !! lD = Some (Arr2 D') ∧ heap w' !! lT = Some (Arr2 T')
    ∧ heap w' !! 1%positive = Some (Arr2 example.D)
    ∧ heap w' !! 2%positive = Some (Arr2 more_examples.test_rows)
    ∧ rectangular (3 - 1) D' ∧ rectangular (3 - 1) T'
    ∧ Forall2 (λ ex ex', last ex' = last ex) example.D D'
    ∧ Forall2 (λ ex ex', last ex' = last ex) more_examples.test_rows T'.
Proof.
  apply (impose_fairness_returns more_examples.train_and_test 1
           1%positive 2%positive example.D more_examples.test_rows 3).
  - reflexivity.
  - reflexivity.
  - repeat constructor.
  - repeat constructor.
  - discriminate.
  - vm_compute. discriminate.
  - vm_compute. discriminate.
Defined.

Lemma deo_from_list_on_corrected_matrix_witness :
  (∃ v, (deo_from_list example.D example.predictions
           more_examples.D_groupA_idxs more_examples.D_groupB_idxs
           example.unfitted).1 = Ok (Num v))
  ∧ deo_from_list
      (corrected_example (init 1 0) example.fitted_u <$> example.D)
      example.predictions more_examples.D_groupA_idxs more_examples.D_groupB_idxs
      example.unfitted
    = deo_from_list example.D example.predictions
        more_examples.D_groupA_idxs more_examples.D_groupB_idxs example.unfitted.
Proof.
  split.
  - eexists. vm_compute. reflexivity.
  - apply (deo_from_list_on_corrected_matrix example.unfitted (init 1 0)
             example.fitted_u example.D).
    repeat constructor; discriminate.
Defined.

Lemma code_counts_smaller_values_witness :
  encoded_cell census.original_data 1 0
  = Some (Num (count (length (classes_below census.workclass "State-gov")))).
Proof.
  apply (code_counts_smaller_values census.original_data 1 "Workclass"
           census.workclass 0 (Some "State-gov")); [|reflexivity..].
  apply (bool_decide_unpack _). by vm_compute.
Defined.

Lemma encoders_decode_witness :
  ∃ result encoders classes_,
    number_encode_features census.original_data = Ok (result, encoders)
    ∧ encoders !! "Workclass" = Some classes_
    ∧ StronglySorted (strict String.le) classes_
    ∧ (∀ y, y ∈ classes_ ↔ y ∈ filled census.workclass)
    ∧ ∀ i cell, census.workclass !! i = Some cell →
        ∃ n, encoded_cell census.original_data 1 i = Some (Num (count n))
             ∧ classes_ !! n = Some (default "None" cell).
Proof.
  apply (encoders_decode census.original_data 1 "Workclass" census.workclass).
  - apply (bool_decide_unpack _). by vm_compute.
  - reflexivity.
Defined.

Lemma codes_keep_order_witness :
  ∃ m n,
    encoded_cell census.original_data 1 1 = Some (Num (count m))
    ∧ encoded_cell census.original_data 1 2 = Some (Num (count n))
    ∧ (m = n ↔ "None" = "Private")
    ∧ ((m < n)%nat ↔ strict String.le "None" "Private")
    ∧ (m < length (remove_dups (filled census.workclass)))%nat.
Proof.
  apply (codes_keep_order census.original_data 1 "Workclass" census.workclass
           1 2 None (Some "Private")); [|reflexivity..].
  apply (bool_decide_unpack _). by vm_compute.
Defined.

Lemma codes_of_two_frames_witness :
  ∃ m n,
    encoded_cell census.original_data 1 2 = Some (Num (count m))
    ∧ encoded_cell census.original_test 1 0 = Some (Num (count n))
    ∧ (n ≤ m)%nat
    ∧ (n = m ↔ ∀ z, strict String.le z "Private" →
                    z ∈ filled census.workclass → z ∈ filled census.test_workclass).
Proof.
  apply (codes_of_two_frames census.original_data census.original_test 1 1
           "Workclass" "Workclass" census.workclass census.test_workclass
           2 0 (Some "Private") (Some "Private")); try reflexivity.
  - apply (bool_decide_unpack _). by vm_compute.
  - apply (bool_decide_unpack _). by vm_compute.
  - apply (bool_decide_unpack _). by vm_compute.
Defined.

Lemma two_valued_column_is_0_1_witness :
  encoded_cell census.original_data 2 2
  = Some (Num (count (if decide (default "None" (Some "Female") = "Female")
                      then 0 else 1))).
Proof.
  apply (two_valued_column_is_0_1 census.original_data 2 "Sex" census.sex
           "Female" "Male").
  - apply (bool_decide_unpack _). by vm_compute.
  - reflexivity.
  - apply (bool_decide_unpack _). by vm_compute.
  - apply (bool_decide_unpack _). by vm_compute.
  - apply (bool_decide_unpack _). by vm_compute.
  - reflexivity.
Defined.

Lemma scaler_uses_training_range_witness :
  ∃ training' test',
    scale_matrices census.training_data_matrix census.test_data_matrix
    = Ok (training', test')
    ∧ length training' = length census.training_data_matrix
    ∧ rectangular 3 training'
    ∧ length test' = length census.test_data_matrix ∧ rectangular 3 test'
    ∧ ∀ j lo hi, is_least lo j census.training_data_matrix →
        is_greatest hi j census.training_data_matrix →
        ∀ i, entry training' i j
             = rescaled lo hi <$> entry census.training_data_matrix i j
             ∧ entry test' i j = rescaled lo hi <$> entry census.test_data_matrix i j.
Proof.
  apply (scaler_uses_training_range census.training_data_matrix
           census.test_data_matrix 3).
  - repeat constructor.
  - repeat constructor.
  - discriminate.
  - discriminate.
  - lia.
Defined.

Lemma scaled_training_matrix_witness :
  ∃ scaler training',
    MinMaxScaler.fit_transform census.training_data_matrix = Ok (scaler, training')
    ∧ length training' = length census.training_data_matrix
    ∧ rectangular 3 training'
    ∧ (∀ i j x, entry training' i j = Some x → 0 ≤ x ∧ x ≤ 1)
    ∧ ∀ j, (j < 3)%nat →
        is_least 0 j training'
        ∧ (is_greatest 1 j training'
           ∨ (is_greatest 0 j training'
              ∧ ∃ c, ∀ i x, entry census.training_data_matrix i j = Some x → x = c)).
Proof.
  apply (scaled_training_matrix census.training_data_matrix 3).
  - repeat constructor.
  - discriminate.
  - lia.
Defined.

Lemma zero_one_column_not_rescaled_witness :
  ∃ training' test',
    scale_matrices census.training_data_matrix census.test_data_matrix
    = Ok (training', test')
    ∧ ∀ i, entry training' i 2 = entry census.training_data_matrix i 2
           ∧ entry test' i 2 = entry census.test_data_matrix i 2.
Proof.
  apply (zero_one_column_not_rescaled census.training_data_matrix
           census.test_data_matrix 3 2).
  - repeat constructor.
  - repeat constructor.
  - discriminate.
  - discriminate.
  - split.
    + exists [count 39; count 7; 0]. split; [|reflexivity].
      apply elem_of_cons. by left.
    + repeat constructor; intros x [= <-];
        apply (bool_decide_unpack _); by vm_compute.
  - split.
    + exists [count 50; count 7; 1]. split; [|reflexivity].
      apply elem_of_cons. right. apply elem_of_cons. by left.
    + repeat constructor; intros x [= <-];
        apply (bool_decide_unpack _); by vm_compute.
Defined.
